(** * Topology core and property cache: a shallow embedding

    The development follows two source files:
    - [libgraph/src/GraphTopology.cpp]: CSR topologies, the edge-shuffle
      views derived from them (copy, transpose, per-node edge sorts, edge
      lookup), the condensed edge-type map and the per-edge-type adjacency
      index;
    - [libtsuba/include/tsuba/Cache.h]: the property cache with its LRU
      and byte-budget replacement policies.

    Node, edge and property identifiers are unsigned machine integers in
    the source.  They are only ever used as array positions and counters
    bounded by the array sizes, so they are embedded as [nat]; the byte
    counter of the cache, which accumulates user-supplied sizes, is kept
    as a 64-bit value with its wrap-around written out. *)

From stdpp Require Import base option list sorting gmap strings.
From Stdlib Require Import ZArith Lia.

#[local] Set Warnings "-clear-no-such-hyp".

Module Topo.

(** ** Data model *)

Abbreviation Node := nat (only parsing).
Abbreviation Edge := nat (only parsing).
Abbreviation PropertyIndex := nat (only parsing).
Abbreviation EntityTypeID := nat (only parsing).

(** [katana::GraphTopology]: the four arrays of a CSR topology.  An empty
    [edge_prop_indices_] / [node_prop_indices_] stands for the identity. *)
Record GraphTopology := mkGraphTopology {
  adj_indices_ : list Edge;
  dests_ : list Node;
  edge_prop_indices_ : list PropertyIndex;
  node_prop_indices_ : list PropertyIndex
}.

Inductive TransposeKind := kNo | kYes.
Inductive EdgeSortKind := kAny | kSortedByDestID | kSortedByEdgeType.

#[global] Instance TransposeKind_eq_dec : EqDecision TransposeKind.
Proof. solve_decision. Defined.
#[global] Instance EdgeSortKind_eq_dec : EqDecision EdgeSortKind.
Proof. solve_decision. Defined.

(** [katana::EdgeShuffleTopology]: a topology together with its tags. *)
Record EdgeShuffleTopology := mkEdgeShuffleTopology {
  tpose_state_ : TransposeKind;
  edge_sort_state_ : EdgeSortKind;
  topo : GraphTopology
}.

(** The accessors below are declared in [GraphTopology.h], which is not
    among the sources; they follow section 4.1 of the specification.  A
    read outside an array is undefined in the source; the total accessors
    return [0] there and are only reasoned about inside the array. *)

(** Modelled from the spec: [num_nodes()], the length of [adj_indices]. *)
Definition NumNodes (t : GraphTopology) : nat := length (adj_indices_ t).
(** Modelled from the spec: [num_edges()], the length of [dests]. *)
Definition NumEdges (t : GraphTopology) : nat := length (dests_ t).
(** Modelled from the spec: [empty()], a topology without nodes. *)
Definition empty (t : GraphTopology) : bool := bool_decide (NumNodes t = 0).

(** Modelled from the spec: the first edge of [out_edges(n)],
    [n == 0 ? 0 : adj_indices[n-1]]. *)
Definition edge_begin (t : GraphTopology) (n : Node) : Edge :=
  match n with
  | 0 => 0
  | S m => adj_indices_ t !!! m
  end.
(** Modelled from the spec: the end of [out_edges(n)], [adj_indices[n]],
    the one-past-last edge of node [n]. *)
Definition edge_end (t : GraphTopology) (n : Node) : Edge :=
  adj_indices_ t !!! n.
(** Modelled from the spec:
    [out_degree(n) = adj_indices[n] - (n==0 ? 0 : adj_indices[n-1])]. *)
Definition OutDegree (t : GraphTopology) (n : Node) : nat :=
  edge_end t n - edge_begin t n.
(** Modelled from the spec: [out_edges(n)], the edge ids of
    [[prev(n), adj_indices[n])] in iteration order. *)
Definition OutEdges (t : GraphTopology) (n : Node) : list Edge :=
  seq (edge_begin t n) (OutDegree t n).
(** Modelled from the spec: [out_edge_dst(e)], the entry of [dests]. *)
Definition OutEdgeDst (t : GraphTopology) (e : Edge) : Node :=
  dests_ t !!! e.

(** [GraphTopology::GetEdgePropertyIndexFromOutEdge] *)
Definition GetEdgePropertyIndexFromOutEdge (t : GraphTopology) (eid : Edge)
  : PropertyIndex :=
  match edge_prop_indices_ t with
  | [] => eid
  | _ => edge_prop_indices_ t !!! eid
  end.

(** [GraphTopology::GetNodePropertyIndex] *)
Definition GetNodePropertyIndex (t : GraphTopology) (nid : Node)
  : PropertyIndex :=
  match node_prop_indices_ t with
  | [] => nid
  | _ => node_prop_indices_ t !!! nid
  end.

(** Modelled from the spec: [has_edges_sorted_by] of [GraphTopology.h]
    (not among the sources): a view satisfies a requested edge-sort state
    when its tag equals it; every view satisfies [kAny]. *)
Definition has_edges_sorted_by (v : EdgeShuffleTopology) (kind : EdgeSortKind)
  : bool :=
  bool_decide (kind = kAny) || bool_decide (kind = edge_sort_state_ v).

(** ** Copying a topology *)

(** A [const T*] argument: [None] is the null pointer, [Some buf] points
    at the first element of [buf].  [data()] of an array without storage
    is null. *)
Definition data (l : list nat) : option (list nat) :=
  match l with
  | [] => None
  | _ => Some l
  end.

(** [ParallelSTL::copy(&p[0], &p[n], out)]: the [n] first elements behind
    [p]; reading past the buffer is undefined, modelled as [None]. *)
Definition copy_range (p : option (list nat)) (n : nat) : option (list nat) :=
  match p with
  | None => if decide (n = 0) then Some [] else None
  | Some buf => if decide (n ≤ length buf) then Some (take n buf) else None
  end.

(** The six-argument constructor (lines 40-64): the two optional arrays
    are copied only from a non-null pointer. *)
Definition GraphTopology_from_arrays
    (adj_indices : option (list nat)) (num_nodes : nat)
    (dests : option (list nat)) (num_edges : nat)
    (edge_prop_indices node_prop_indices : option (list nat))
  : option GraphTopology :=
  a ← copy_range adj_indices num_nodes;
  d ← copy_range dests num_edges;
  ep ← match edge_prop_indices with
       | Some _ => copy_range edge_prop_indices num_edges
       | None => Some []
       end;
  np ← match node_prop_indices with
       | Some _ => copy_range node_prop_indices num_nodes
       | None => Some []
       end;
  Some (mkGraphTopology a d ep np).

(** [GraphTopology::Copy] (lines 78-84).  Both optional-array arguments
    are [that.edge_prop_indices_.data()], as in the source. *)
Definition Copy (that : GraphTopology) : option GraphTopology :=
  GraphTopology_from_arrays
    (data (adj_indices_ that)) (length (adj_indices_ that))
    (data (dests_ that)) (length (dests_ that))
    (data (edge_prop_indices_ that))
    (data (edge_prop_indices_ that)).

(** ** Edge lookup *)

(** Edge lookups read [dests_] at computed positions.  To state which
    positions are read, the lookups run in a small monad that logs every
    index passed to [OutEdgeDst] and stops at the first read outside the
    array (undefined in the source) or at a failed assertion. *)
Inductive result (A : Type) :=
  | Ok (a : A)
  | AssertionFailed
  | BadRead (e : Edge).
Arguments Ok {A} a.
Arguments AssertionFailed {A}.
Arguments BadRead {A} e.

Definition Reads (A : Type) : Type := (list Edge * result A)%type.

#[global] Instance Reads_ret : MRet Reads := λ A a, ([], Ok a).
#[global] Instance Reads_bind : MBind Reads := λ A B f m,
  match m.2 with
  | Ok a => (m.1 ++ (f a).1, (f a).2)
  | AssertionFailed => (m.1, AssertionFailed)
  | BadRead e => (m.1, BadRead e)
  end.

Definition reads_of {A} (m : Reads A) : list Edge := m.1.
Definition outcome {A} (m : Reads A) : result A := m.2.

(** [OutEdgeDst(e)], logged and bounds-aware. *)
Definition read_dst (t : GraphTopology) (e : Edge) : Reads Node :=
  match dests_ t !! e with
  | Some d => ([e], Ok d)
  | None => ([e], BadRead e)
  end.

(** [std::find_if] over the edge range [[first, first + n)] with the
    predicate [OutEdgeDst(e) == dst]; the result is [first + n] when no
    edge matches. *)
Fixpoint find_if_dst (t : GraphTopology) (dst : Node) (first : Edge) (n : nat)
  : Reads Edge :=
  match n with
  | 0 => mret first
  | S n' =>
      d ← read_dst t first;
      if decide (d = dst) then mret first
      else find_if_dst t dst (S first) n'
  end.

(** [std::lower_bound] with [EdgeDestComparator] ([OutEdgeDst(e) < dst]):
    the bisection loop of the standard library.  [len] at least halves in
    every round, so [fuel = len] rounds are enough. *)
Fixpoint lower_bound_loop (t : GraphTopology) (dst : Node)
    (fuel : nat) (first : Edge) (len : nat) : Reads Edge :=
  match fuel with
  | 0 => mret first
  | S fuel' =>
      if decide (len = 0) then mret first
      else
        let half := len / 2 in
        let middle := first + half in
        d ← read_dst t middle;
        if decide (d < dst)
        then lower_bound_loop t dst fuel' (middle + 1) (len - half - 1)
        else lower_bound_loop t dst fuel' first half
  end.
Definition lower_bound (t : GraphTopology) (dst : Node) (first last : Edge)
  : Reads Edge :=
  lower_bound_loop t dst (last - first) first (last - first).

(** [std::upper_bound] with [EdgeDestComparator] ([dst < OutEdgeDst(e)]). *)
Fixpoint upper_bound_loop (t : GraphTopology) (dst : Node)
    (fuel : nat) (first : Edge) (len : nat) : Reads Edge :=
  match fuel with
  | 0 => mret first
  | S fuel' =>
      if decide (len = 0) then mret first
      else
        let half := len / 2 in
        let middle := first + half in
        d ← read_dst t middle;
        if decide (dst < d)
        then upper_bound_loop t dst fuel' first half
        else upper_bound_loop t dst fuel' (middle + 1) (len - half - 1)
  end.
Definition upper_bound (t : GraphTopology) (dst : Node) (first last : Edge)
  : Reads Edge :=
  upper_bound_loop t dst (last - first) first (last - first).

(** [std::equal_range] with [EdgeDestComparator]: the loop of the
    standard library.  A round compares the middle edge with [dst] in one
    direction and, when that fails, in the other one (the comparator reads
    the destination at each call).  When neither holds the bounds are
    found by [lower_bound] on the part before the middle and by
    [upper_bound] on the part after it.  [len] at least halves in every
    round. *)
Fixpoint equal_range_loop (t : GraphTopology) (dst : Node)
    (fuel : nat) (first : Edge) (len : nat) : Reads (Edge * Edge) :=
  match fuel with
  | 0 => mret (first, first)
  | S fuel' =>
      if decide (len = 0) then mret (first, first)
      else
        let half := len / 2 in
        let middle := first + half in
        d ← read_dst t middle;
        if decide (d < dst)
        then equal_range_loop t dst fuel' (middle + 1) (len - half - 1)
        else
          d' ← read_dst t middle;
          if decide (dst < d')
          then equal_range_loop t dst fuel' first half
          else
            left ← lower_bound t dst first middle;
            right ← upper_bound t dst (middle + 1) (first + len);
            mret (left, right)
  end.
Definition equal_range (t : GraphTopology) (dst : Node) (first last : Edge)
  : Reads (Edge * Edge) :=
  equal_range_loop t dst (last - first) first (last - first).

Definition kBinarySearchThreshold : nat := 64.

(** [EdgeShuffleTopology::FindEdge] (lines 264-293).  The first [if] of
    the source only logs a warning and is left out; the branch is chosen
    on the size of the edge range alone.  The result is an edge iterator,
    i.e. an edge index; [edge_end] of [src] is the "not found" value. *)
Definition FindEdge (v : EdgeShuffleTopology) (src dst : Node) : Reads Edge :=
  let t := topo v in
  let e_begin := edge_begin t src in
  let e_end := edge_end t src in
  if decide (e_end - e_begin ≤ kBinarySearchThreshold) then
    find_if_dst t dst e_begin (e_end - e_begin)
  else
    iter ← lower_bound t dst e_begin e_end;
    d ← read_dst t iter;
    mret (if decide (d = dst) then iter else e_end).

(** [KATANA_LOG_VASSERT(cond, msg)]: aborts unless [cond] holds. *)
Definition VASSERT (cond : bool) : Reads unit :=
  if cond then mret () else ([], AssertionFailed).

(** [KATANA_LOG_DEBUG_ASSERT(cond)], as a debug build checks it. *)
Definition DEBUG_ASSERT (cond : bool) : Reads unit :=
  if cond then mret () else ([], AssertionFailed).

(** The closing loop of [FindAllEdges]: the destination of every edge of
    the range [[e, e + n)] is read again and compared with [dst]. *)
Fixpoint assert_range_dsts (t : GraphTopology) (dst : Node) (e : Edge) (n : nat)
  : Reads unit :=
  match n with
  | 0 => mret ()
  | S n' =>
      d ← read_dst t e;
      _ ← DEBUG_ASSERT (bool_decide (d = dst));
      assert_range_dsts t dst (S e) n'
  end.

(** [EdgeShuffleTopology::FindAllEdges] (lines 295-322); the result is the
    pair (begin, end) of the returned edge range.  The closing loop of
    debug assertions is run as in a debug build (a release build skips it
    and its reads). *)
Definition FindAllEdges (v : EdgeShuffleTopology) (src dst : Node)
  : Reads (Edge * Edge) :=
  let t := topo v in
  let e_begin := edge_begin t src in
  let e_end := edge_end t src in
  if decide (e_begin = e_end) then mret (e_begin, e_end)
  else
    _ ← VASSERT (negb (has_edges_sorted_by v kSortedByDestID));
    r ← equal_range t dst e_begin e_end;
    if decide (r.1 = e_end) then mret (e_end, e_end)
    else
      d ← read_dst t r.1;
      if decide (d ≠ dst) then mret (e_end, e_end)
      else
        _ ← assert_range_dsts t dst r.1 (r.2 - r.1);
        mret (r.1, r.2).

(** ** The condensed edge-type map *)

(** Modelled from the spec: the part of [PropertyGraph] the topology code
    uses (its header is not among the sources): the base topology and the
    edge-type column of the property table, addressed by edge property
    index. *)
Record PropertyGraph := mkPropertyGraph {
  topology : GraphTopology;
  edge_entity_type_ids_ : list EntityTypeID
}.
(** Modelled from the spec: the edge type stored in the row [p] of the
    property table. *)
Definition GetTypeOfEdgeFromPropertyIndex (pg : PropertyGraph)
    (p : PropertyIndex) : EntityTypeID :=
  edge_entity_type_ids_ pg !!! p.
(** Modelled from the spec: the type of a topology edge is the type found
    at its property index. *)
Definition GetTypeOfEdgeFromTopoIndex (pg : PropertyGraph) (e : Edge)
  : EntityTypeID :=
  GetTypeOfEdgeFromPropertyIndex pg
    (GetEdgePropertyIndexFromOutEdge (topology pg) e).

(** [std::set<EntityTypeID>]: its elements in iteration (ascending)
    order; [insert] keeps the order and drops a key already present. *)
Fixpoint set_insert (x : EntityTypeID) (s : list EntityTypeID)
  : list EntityTypeID :=
  match s with
  | [] => [x]
  | y :: s' =>
      if decide (x < y) then x :: s
      else if decide (x = y) then s
      else y :: set_insert x s'
  end.

(** [katana::CondensedTypeIDMap]: the hash map from type to dense index
    and the vector from dense index to type. *)
Record CondensedTypeIDMap := mkCondensedTypeIDMap {
  type_to_index_map_ : gmap EntityTypeID nat;
  index_to_type_map_ : list EntityTypeID
}.
(** Modelled from the spec: the size [T] of the map (its accessors are
    declared in the header). *)
Definition num_unique_types (m : CondensedTypeIDMap) : nat :=
  length (index_to_type_map_ m).
(** Modelled from the spec: the dense [index -> EntityTypeID] lookup;
    [None] outside [[0, T)]. *)
Definition GetType (m : CondensedTypeIDMap) (index : nat)
  : option EntityTypeID :=
  index_to_type_map_ m !! index.
(** Modelled from the spec: the inverse lookup; [None] for a type that is
    not in the map. *)
Definition GetIndex (m : CondensedTypeIDMap) (ty : EntityTypeID)
  : option nat :=
  type_to_index_map_ m !! ty.

(** The first [do_all] of [MakeFromEdgeTypes]: the thread that runs the
    edges [es] inserts their types into its own set. *)
Definition thread_edge_types (pg : PropertyGraph) (es : list Edge)
  : list EntityTypeID :=
  foldl (λ s e, set_insert (GetTypeOfEdgeFromTopoIndex pg e) s) [] es.

(** The merge loop over [getRemote(i)], [i < activeThreads]. *)
Definition merge_sets (sets : list (list EntityTypeID)) : list EntityTypeID :=
  foldl (λ merged s, foldl (λ m ty, set_insert ty m) merged s) [] sets.

(** The numbering loop: [edge_type_to_index[edgeType] = num_edge_types++;
    edge_index_to_type.emplace_back(edgeType)].  [EntityTypeID] is
    narrower than the 32-bit counter, which therefore cannot wrap. *)
Definition number_types (merged : list EntityTypeID) : CondensedTypeIDMap :=
  let '(m, v, _) :=
    foldl (λ '(m, v, num_edge_types) ty,
             (<[ty := num_edge_types]> m, v ++ [ty], S num_edge_types))
          (∅, [], 0) merged in
  mkCondensedTypeIDMap m v.

(** [CondensedTypeIDMap::MakeFromEdgeTypes] (lines 516-559).  [work] is
    the way [do_all] hands the edges [0 .. NumEdges) to the active
    threads: one list of edges per thread. *)
Definition MakeFromEdgeTypes (pg : PropertyGraph) (work : list (list Edge))
  : CondensedTypeIDMap :=
  number_types (merge_sets (thread_edge_types pg <$> work)).

(** Four edges of types 7, 3, 7, 5 (by property index), split over two
    threads. *)
Definition typed_graph : PropertyGraph :=
  mkPropertyGraph (mkGraphTopology [2; 3; 4] [1; 2; 0; 1] [] [])
                  [7; 3; 7; 5].

(** ** Per-node edge sorts *)

(** The part [[b, e)] of an array, and the array with that part
    overwritten. *)
Definition slice {A} (b e : nat) (l : list A) : list A :=
  take (e - b) (drop b l).
Definition splice {A} (b e : nat) (s l : list A) : list A :=
  take b l ++ s ++ drop e l.

(** [std::sort(first, last, comp)].  The C++ standard fixes its result
    only up to the order of equivalent elements: the range is permuted so
    that [comp(a[i + n], a[i])] is false for every position [i] and every
    [n >= 0].  (libstdc++'s introsort does reorder equivalent elements on
    ranges of more than 16 elements.)  [std_sort comp l l'] says that [l']
    is a permitted result on input [l]. *)
Definition std_sort {A} (comp : A → A → bool) (l l' : list A) : Prop :=
  l' ≡ₚ l ∧ StronglySorted (λ x y, comp y x = false) l'.

(** The comparator of [SortEdgesByDestID] on (property index, destination)
    tuples. *)
Definition comp_dest (tup1 tup2 : PropertyIndex * Node) : bool :=
  bool_decide (tup1.2 < tup2.2).

(** The comparator of [SortEdgesByTypeThenDest]. *)
Definition comp_type_dest (pg : PropertyGraph)
    (tup1 tup2 : PropertyIndex * Node) : bool :=
  let data1 := GetTypeOfEdgeFromPropertyIndex pg tup1.1 in
  let data2 := GetTypeOfEdgeFromPropertyIndex pg tup2.1 in
  if decide (data1 ≠ data2) then bool_decide (data1 < data2)
  else bool_decide (tup1.2 < tup2.2).

(** What the zip iterator over [edge_prop_indices_] and [dests_] ranges
    over: the array of (property index, destination) tuples. *)
Definition edge_tuples (t : GraphTopology) : list (PropertyIndex * Node) :=
  zip (edge_prop_indices_ t) (dests_ t).

(** The body of the [do_all] of both sorts: the tuples of [node]'s edge
    range are sorted in place. *)
Definition sort_node_edges (comp : PropertyIndex * Node → PropertyIndex * Node → bool)
    (t : GraphTopology) (node : Node) (t' : GraphTopology) : Prop :=
  let e_beg := edge_begin t node in
  let e_end := edge_end t node in
  ∃ sorted,
    std_sort comp (slice e_beg e_end (edge_tuples t)) sorted ∧
    t' = mkGraphTopology (adj_indices_ t)
           (splice e_beg e_end sorted (edge_tuples t)).*2
           (splice e_beg e_end sorted (edge_tuples t)).*1
           (node_prop_indices_ t).

(** The [do_all] over the nodes, in the order in which they are run. *)
Inductive sort_nodes (comp : PropertyIndex * Node → PropertyIndex * Node → bool)
  : list Node → GraphTopology → GraphTopology → Prop :=
  | sort_nodes_nil t : sort_nodes comp [] t t
  | sort_nodes_cons node order t t1 t2 :
      sort_node_edges comp t node t1 →
      sort_nodes comp order t1 t2 →
      sort_nodes comp (node :: order) t t2.

(** [EdgeShuffleTopology::SortEdgesByDestID] (lines 324-361): [v'] is a
    view the call may leave behind when run on [v]. *)
Definition SortEdgesByDestID (v v' : EdgeShuffleTopology) : Prop :=
  ∃ order, order ≡ₚ seq 0 (NumNodes (topo v)) ∧
    sort_nodes comp_dest order (topo v) (topo v') ∧
    tpose_state_ v' = tpose_state_ v ∧
    edge_sort_state_ v' = kSortedByDestID.

(** [EdgeShuffleTopology::SortEdgesByTypeThenDest] (lines 363-415). *)
Definition SortEdgesByTypeThenDest (pg : PropertyGraph)
    (v v' : EdgeShuffleTopology) : Prop :=
  ∃ order, order ≡ₚ seq 0 (NumNodes (topo v)) ∧
    sort_nodes (comp_type_dest pg) order (topo v) (topo v') ∧
    tpose_state_ v' = tpose_state_ v ∧
    edge_sort_state_ v' = kSortedByEdgeType.

(** The CSR invariants of the data model: offsets non-decreasing and
    ending at [NumEdges], destinations inside [[0, N)]. *)
Definition well_formed (t : GraphTopology) : Prop :=
  StronglySorted le (adj_indices_ t) ∧
  default 0 (last (adj_indices_ t)) = NumEdges t ∧
  Forall (λ d, d < NumNodes t) (dests_ t).

(** An edge-shuffle view stores a property index for every edge. *)
Definition shuffle_wf (t : GraphTopology) : Prop :=
  well_formed t ∧ length (edge_prop_indices_ t) = NumEdges t.

(** The edges of every node are in non-decreasing destination order. *)
Definition sorted_by_dest (t : GraphTopology) : Prop :=
  ∀ n, n < NumNodes t →
    StronglySorted le (slice (edge_begin t n) (edge_end t n) (dests_ t)).

(** The lexicographic order on (edge type, destination). *)
Definition type_dest_le (a b : EntityTypeID * Node) : Prop :=
  a.1 < b.1 ∨ (a.1 = b.1 ∧ a.2 ≤ b.2).
#[global] Instance type_dest_le_dec : RelDecision type_dest_le.
Proof. intros a b. unfold type_dest_le. apply _. Defined.
Definition type_dest_key (pg : PropertyGraph) (tup : PropertyIndex * Node)
  : EntityTypeID * Node :=
  (GetTypeOfEdgeFromPropertyIndex pg tup.1, tup.2).

(** The edges of every node are in non-decreasing (type, destination)
    order. *)
Definition sorted_by_type_then_dest (pg : PropertyGraph) (t : GraphTopology)
  : Prop :=
  ∀ n, n < NumNodes t →
    StronglySorted type_dest_le
      (type_dest_key pg <$> slice (edge_begin t n) (edge_end t n) (edge_tuples t)).

(** One node with 17 parallel edges to itself, sorted by destination, and
    the same view with the property indices in the order in which
    libstdc++ leaves 17 equivalent elements. *)
Definition parallel_edges : EdgeShuffleTopology :=
  mkEdgeShuffleTopology kNo kSortedByDestID
    (mkGraphTopology [17] (replicate 17 0) (seq 0 17) []).
Definition parallel_edges_resorted : EdgeShuffleTopology :=
  mkEdgeShuffleTopology kNo kSortedByDestID
    (mkGraphTopology [17] (replicate 17 0)
       [8; 16; 15; 14; 13; 12; 11; 10; 9; 0; 7; 6; 5; 4; 3; 2; 1] []).

(** All 17 edges have type 4; tagged as sorted by edge type. *)
Definition parallel_edges_pg : PropertyGraph :=
  mkPropertyGraph (mkGraphTopology [17] (replicate 17 0) [] [])
                  (replicate 17 4).
Definition parallel_typed : EdgeShuffleTopology :=
  mkEdgeShuffleTopology kNo kSortedByEdgeType (topo parallel_edges).
Definition parallel_typed_resorted : EdgeShuffleTopology :=
  mkEdgeShuffleTopology kNo kSortedByEdgeType (topo parallel_edges_resorted).

(** Two nodes whose edges are sorted by destination, no node with two
    edges to the same destination: 0 -> 0, 0 -> 1 and 1 -> 0, stored in the
    property rows 2, 0 and 1. *)
Definition distinct_dests : EdgeShuffleTopology :=
  mkEdgeShuffleTopology kNo kSortedByDestID
    (mkGraphTopology [2; 3] [0; 1; 0] [2; 0; 1] []).

(** Parallel edges of different types: node 0 has the edges 0 -> 0 of type
    3, 0 -> 0 of type 7 and 0 -> 1 of type 7 (property rows 1, 0 and 2),
    node 1 has none.  The edges are sorted by type then destination and
    no two of them have the same type and destination, though two have
    the same destination. *)
Definition typed_parallel_pg : PropertyGraph :=
  mkPropertyGraph (mkGraphTopology [3; 3] [0; 0; 1] [] []) [7; 3; 7].
Definition typed_parallel : EdgeShuffleTopology :=
  mkEdgeShuffleTopology kNo kSortedByEdgeType
    (mkGraphTopology [3; 3] [0; 0; 1] [1; 0; 2] []).

(** ** The per-edge-type adjacency index *)

(** The type of an edge of a view, looked up through its property index
    (the view may have rearranged the edges). *)
Definition edge_type (pg : PropertyGraph) (t : GraphTopology) (e : Edge)
  : EntityTypeID :=
  GetTypeOfEdgeFromPropertyIndex pg (GetEdgePropertyIndexFromOutEdge t e).

(** The inner loop
    [while (type != GetType(index)) { adj_indices[offset + index] = e; index++; }]
    on the state [(index, adj_indices)].  Reading [GetType] at or past
    [num_unique_types] (the loop's debug assertion) ends the run with
    [None].  [index] can be advanced at most [num_unique_types] times
    before that happens, which is the loop budget given by the caller. *)
Fixpoint skip_to_type (cm : CondensedTypeIDMap) (type : EntityTypeID)
    (e : Edge) (offset : nat) (fuel : nat) (st : nat * list Edge)
  : option (nat * list Edge) :=
  match GetType cm st.1 with
  | None => None
  | Some ty =>
      if decide (type ≠ ty) then
        match fuel with
        | 0 => None
        | S fuel' =>
            skip_to_type cm type e offset fuel'
              (S st.1, <[offset + st.1 := e]> st.2)
        end
      else Some st
  end.

(** The closing loop
    [while (index < num_unique_types) { adj_indices[offset + index] = e; index++; }],
    and more generally writing [e] into the slots [lo .. hi) of a row. *)
Definition fill_row (adj : list Edge) (offset lo hi : nat) (e : Edge)
  : list Edge :=
  foldl (λ a index, <[offset + index := e]> a) adj (seq lo (hi - lo)).

(** The body of the [do_all]: the row of node [N]. *)
Definition index_node (pg : PropertyGraph) (cm : CondensedTypeIDMap)
    (e_topo : GraphTopology) (adj : list Edge) (N : Node)
  : option (list Edge) :=
  let T := num_unique_types cm in
  let offset := N * T in
  st ← foldl (λ acc e, st ← acc;
                skip_to_type cm (edge_type pg e_topo e) e offset T st)
             (Some (0, adj)) (OutEdges e_topo N);
  Some (fill_row st.2 offset st.1 T (edge_end e_topo N)).

(** [EdgeTypeAwareTopology::CreatePerEdgeTypeAdjacencyIndex] (lines
    563-609).  [order] is the order in which the [do_all] runs the nodes.
    The freshly allocated array is modelled as zeros; [None] is a failed
    assertion. *)
Definition CreatePerEdgeTypeAdjacencyIndex (pg : PropertyGraph)
    (cm : CondensedTypeIDMap) (e_topo : GraphTopology) (order : list Node)
  : option (list Edge) :=
  if empty e_topo then
    if decide (NumEdges e_topo = 0) then Some [] else None
  else if decide (num_unique_types cm = 0) then
    if decide (NumEdges e_topo = 0) then Some [] else None
  else
    let sz := NumNodes e_topo * num_unique_types cm in
    foldl (λ acc N, adj ← acc; index_node pg cm e_topo adj N)
          (Some (replicate sz 0)) order.

(** Modelled from the spec: [out_edges(n, t)] of the edge-type-aware
    topology ([GraphTopology.h] is not at hand): the edges of node [n]
    with type index [t] occupy
    [[per_type_adj[n*T + t-1] .. per_type_adj[n*T + t])], with the base of
    node [n] for [t == 0].  The result is the pair (begin, end). *)
Definition OutEdgesOfType (e_topo : GraphTopology) (T : nat)
    (per_type_adj : list Edge) (n : Node) (t : nat) : Edge * Edge :=
  (match t with
   | 0 => edge_begin e_topo n
   | S t' => per_type_adj !!! (n * T + t')
   end,
   per_type_adj !!! (n * T + t)).

(** The edges of every node are in non-decreasing order of type. *)
Definition sorted_by_type (pg : PropertyGraph) (t : GraphTopology) : Prop :=
  ∀ n, n < NumNodes t →
    StronglySorted le (edge_type pg t <$> OutEdges t n).

(** A condensed map as [MakeFromEdgeTypes] builds it: types in
    increasing order, all types of the view's edges among them. *)
Definition covers_types (pg : PropertyGraph) (cm : CondensedTypeIDMap)
    (t : GraphTopology) : Prop :=
  StronglySorted lt (index_to_type_map_ cm) ∧
  ∀ e, e < NumEdges t → edge_type pg t e ∈ index_to_type_map_ cm.

(** Scenario S4: the graph of S1 with the two edges of node 0 typed
    [A = 3] and [B = 7], and the other edges typed [7, 3, 3]. *)
Definition typed_view : GraphTopology :=
  mkGraphTopology [2; 2; 3; 5] [1; 2; 3; 2; 0] [0; 1; 2; 4; 3] [].
Definition typed_view_pg : PropertyGraph :=
  mkPropertyGraph (mkGraphTopology [2; 2; 3; 5] [1; 2; 3; 0; 2] [] [])
                  [3; 7; 7; 7; 3].
Definition typed_view_map : CondensedTypeIDMap :=
  MakeFromEdgeTypes typed_view_pg [[0; 1; 2]; [3; 4]].

(** ** Transposition *)

(** [ParallelSTL::partial_sum]: inclusive prefix sums. *)
Fixpoint partial_sum_from (acc : nat) (l : list nat) : list nat :=
  match l with
  | [] => []
  | x :: l' => (acc + x) :: partial_sum_from (acc + x) l'
  end.
Definition partial_sum (l : list nat) : list nat := partial_sum_from 0 l.

(** The first [do_all] of [MakeTransposeCopy]: every edge atomically
    increments the counter of its destination.  [edges] is the order in
    which the increments take effect. *)
Definition count_in_edges (t : GraphTopology) (edges : list Edge) : list Edge :=
  foldl (λ out_indices e,
           let dest := OutEdgeDst t e in
           <[dest := S (out_indices !!! dest)]> out_indices)
        (replicate (NumNodes t) 0) edges.

(** The scatter state: [out_dests_offset], [out_dests] and the new
    [edge_prop_indices]. *)
Record scatter := mkScatter {
  out_dests_offset : list Edge;
  out_dests : list Node;
  new_edge_prop_indices : list PropertyIndex
}.

(** One iteration of the inner loop of the last [do_all], for the edge
    [e] of source [src]: fetch-and-increment the write position of the
    destination, store [src] and the edge's property index there. *)
Definition scatter_edge (t : GraphTopology) (s : scatter) (se : Node * Edge)
  : scatter :=
  let dest := OutEdgeDst t se.2 in
  let e_new := out_dests_offset s !!! dest in
  mkScatter (<[dest := S e_new]> (out_dests_offset s))
            (<[e_new := se.1]> (out_dests s))
            (<[e_new := GetEdgePropertyIndexFromOutEdge t se.2]>
               (new_edge_prop_indices s)).

(** All iterations of that loop nest as (source, edge) pairs, in
    sequential order.  The parallel run performs them in some other
    order. *)
Definition source_edge_pairs (t : GraphTopology) : list (Node * Edge) :=
  concat ((λ src, pair src <$> OutEdges t src) <$> seq 0 (NumNodes t)).

(** [EdgeShuffleTopology::MakeTransposeCopy] (lines 111-188) on the
    topology of the property graph.  [count_order] and [scatter_order]
    are the orders in which the atomic operations of the first and of the
    last [do_all] take effect.  Freshly allocated arrays are modelled as
    zeros. *)
Definition MakeTransposeCopy (t : GraphTopology)
    (count_order : list Edge) (scatter_order : list (Node * Edge))
  : EdgeShuffleTopology :=
  if empty t then
    mkEdgeShuffleTopology kYes kAny (mkGraphTopology [] [] [] [])
  else
    let out_indices := partial_sum (count_in_edges t count_order) in
    let offsets := 0 :: take (NumNodes t - 1) out_indices in
    let s := foldl (scatter_edge t)
               (mkScatter offsets (replicate (NumEdges t) 0)
                          (replicate (NumEdges t) 0))
               scatter_order in
    mkEdgeShuffleTopology kYes kAny
      (mkGraphTopology out_indices (out_dests s) (new_edge_prop_indices s) []).

(** The edges of a topology as (source, destination, property index)
    triples. *)
Definition edge_triples (t : GraphTopology)
  : list (Node * Node * PropertyIndex) :=
  (λ se, (se.1, OutEdgeDst t se.2, GetEdgePropertyIndexFromOutEdge t se.2))
    <$> source_edge_pairs t.

(** The number of edges that arrive at node [d]. *)
Definition in_degree (t : GraphTopology) (d : Node) : nat :=
  length (filter (λ e, OutEdgeDst t e = d) (seq 0 (NumEdges t))).

(** The number of edges that arrive at nodes below [d]: where the block
    of node [d] starts in the transposed arrays. *)
Definition in_offset (t : GraphTopology) (d : Node) : nat :=
  sum_list (in_degree t <$> seq 0 d).

(** A base topology: the CSR invariants, and property indices either
    absent or one per edge. *)
Definition base_wf (t : GraphTopology) : Prop :=
  well_formed t ∧
  (edge_prop_indices_ t = [] ∨ length (edge_prop_indices_ t) = NumEdges t).

(** ** The original copy and the random topology *)

(** [EdgeShuffleTopology::MakeOriginalCopy] (lines 190-208): the copy of
    the base topology of [pg], with identity edge property indices when
    the copy has none; [None] when [Copy] reads past a buffer. *)
Definition MakeOriginalCopy (pg : PropertyGraph) : option EdgeShuffleTopology :=
  copy_topo ← Copy (topology pg);
  let edge_prop_indices :=
    match edge_prop_indices_ copy_topo with
    | [] => seq 0 (NumEdges copy_topo)
    | _ => edge_prop_indices_ copy_topo
    end in
  Some (mkEdgeShuffleTopology kNo kAny
          (mkGraphTopology (adj_indices_ copy_topo) (dests_ copy_topo)
             edge_prop_indices (node_prop_indices_ copy_topo))).

(** A value of an unsigned type of [w] bits. *)
Definition wrap_bits (w : Z) (x : nat) : nat :=
  Z.to_nat (Z.of_nat x mod 2 ^ w).

(** [KATANA_LOG_ASSERT(cond)]: aborts unless [cond] holds. *)
Definition ASSERT (cond : bool) : option unit :=
  if cond then Some () else None.

(** [CreateUniformRandomTopology] (lines 932-963); [None] is an abort.
    [GenerateUniformRandomSequence] is not among the sources: the value
    it writes at position [i] for the bounds [lo] and [hi] is
    [gen lo hi i].  [size_t] and [Edge] have 64 bits, so the prefix sums
    and the product are reduced modulo [2^64]; the upper bound of the
    draws is cast to the 32 bits of [Node]. *)
Definition CreateUniformRandomTopology (num_nodes edges_per_node : nat)
    (gen : Node → Node → nat → Node) : option GraphTopology :=
  _ ← ASSERT (bool_decide (0 < edges_per_node));
  if decide (num_nodes = 0) then Some (mkGraphTopology [] [] [] [])
  else
    _ ← ASSERT (bool_decide (edges_per_node ≤ num_nodes));
    let adj_indices :=
      wrap_bits 64 <$> partial_sum (replicate num_nodes edges_per_node) in
    let num_edges := wrap_bits 64 (num_nodes * edges_per_node) in
    _ ← ASSERT (bool_decide (0 < length adj_indices) &&
                bool_decide (adj_indices !!! (length adj_indices - 1) = num_edges));
    let dests := gen 0 (wrap_bits 32 (num_nodes - 1)) <$> seq 0 num_edges in
    Some (mkGraphTopology adj_indices dests [] []).

(** ** The edge-type-aware topology *)

(** The members of [EdgeTypeAwareTopology]: the edge-shuffle view it is
    built on, the condensed type map and the per-type table. *)
Record EdgeTypeAwareTopology := mkEdgeTypeAwareTopology {
  shuffle_topo : EdgeShuffleTopology;
  edge_type_index_ : CondensedTypeIDMap;
  per_type_adj_indices_ : list Edge
}.

(** [EdgeTypeAwareTopology::MakeFrom] (lines 611-627), with its two debug
    assertions checked; [order] is the order in which the [do_all] of the
    table construction runs the nodes. *)
Definition MakeFrom (pg : PropertyGraph) (edge_type_index : CondensedTypeIDMap)
    (e_topo : EdgeShuffleTopology) (order : list Node)
  : option EdgeTypeAwareTopology :=
  _ ← ASSERT (has_edges_sorted_by e_topo kSortedByEdgeType);
  _ ← ASSERT (bool_decide (NumEdges (topo e_topo) = NumEdges (topology pg)));
  per_type_adj_indices ←
    CreatePerEdgeTypeAdjacencyIndex pg edge_type_index (topo e_topo) order;
  Some (mkEdgeTypeAwareTopology e_topo edge_type_index per_type_adj_indices).

(** Scenario S1 of the specification. *)
Definition s1_topology : GraphTopology :=
  mkGraphTopology [2; 2; 3; 5] [1; 2; 3; 0; 2] [] [].

(** Scenario S1 as an edge-shuffle view with identity property indices
    and no sort tag; the destinations of every node happen to be in
    increasing order. *)
Definition s1_view : EdgeShuffleTopology :=
  mkEdgeShuffleTopology kNo kAny
    (mkGraphTopology [2; 2; 3; 5] [1; 2; 3; 0; 2] (seq 0 5) []).

(** Scenario S1 with the edges of nodes 0 and 3 stored in decreasing
    destination order, the views the two sorts make of it, and a property
    graph that gives the edges with property indices 0 and 3 type 7 and
    the others type 5. *)
Definition s1_unsorted : EdgeShuffleTopology :=
  mkEdgeShuffleTopology kNo kAny
    (mkGraphTopology [2; 2; 3; 5] [2; 1; 3; 2; 0] (seq 0 5) []).
Definition s1_sorted_by_dest : EdgeShuffleTopology :=
  mkEdgeShuffleTopology kNo kSortedByDestID
    (mkGraphTopology [2; 2; 3; 5] [1; 2; 3; 0; 2] [1; 0; 2; 4; 3] []).
Definition s1_sorted_by_type : EdgeShuffleTopology :=
  mkEdgeShuffleTopology kNo kSortedByEdgeType
    (mkGraphTopology [2; 2; 3; 5] [1; 2; 3; 0; 2] [1; 0; 2; 4; 3] []).
Definition s1_pg : PropertyGraph :=
  mkPropertyGraph s1_topology [7; 5; 5; 7; 5].

(** A sequence generator for the random topology: it counts up from [lo]
    and stays at [hi]. *)
Definition counting_gen (lo hi : Node) (i : nat) : Node :=
  if decide (lo + i ≤ hi) then lo + i else hi.

(** The original copy [s1_view] of [s1_pg] sorted by edge type, then
    destination. *)
Definition s1_view_by_type : EdgeShuffleTopology :=
  mkEdgeShuffleTopology kNo kSortedByEdgeType
    (mkGraphTopology [2; 2; 3; 5] [2; 1; 3; 2; 0] [1; 0; 2; 4; 3] []).

(** Sample views for the lookups. *)

(** One node with the edges [0 -> 1] and [0 -> 2], tagged as sorted by
    destination (scenario S3 of the specification, node 0). *)
Definition two_sorted_edges : EdgeShuffleTopology :=
  mkEdgeShuffleTopology kNo kSortedByDestID
    (mkGraphTopology [2; 2; 2] [1; 2] [0; 1] []).

(** Node 0 has 65 out-edges with destinations [1, 0, ..., 0, 2]; the view
    is not sorted by destination. *)
Definition unsorted_hub : EdgeShuffleTopology :=
  mkEdgeShuffleTopology kNo kAny
    (mkGraphTopology [65; 65; 65] (1 :: replicate 63 0 ++ [2])
       (seq 0 65) []).

(** Node 0 has no edge, node 1 has 65 edges to node 0; sorted by
    destination, and node 1's range ends at [NumEdges]. *)
Definition sorted_hub_at_end : EdgeShuffleTopology :=
  mkEdgeShuffleTopology kNo kSortedByDestID
    (mkGraphTopology [0; 65] (replicate 65 0) (seq 0 65) []).

(** A two-node cycle whose nodes are stored in swapped property rows. *)
Definition swapped_rows : GraphTopology :=
  mkGraphTopology [1; 2] [1; 0] [0; 1] [1; 0].

End Topo.

(** * The property cache ([tsuba/Cache.h]) *)

Module Cache.

Inductive NodeEdge := kNode | kEdge.

Record KeyBase := mkKey { node_edge_ : NodeEdge; name_ : string }.

#[global] Instance NodeEdge_eq_dec : EqDecision NodeEdge.
Proof. solve_decision. Defined.
#[global] Instance KeyBase_eq_dec : EqDecision KeyBase.
Proof. solve_decision. Defined.
#[global] Program Instance NodeEdge_countable : Countable NodeEdge :=
  inj_countable' (λ x, match x with kNode => false | kEdge => true end)
                 (λ b : bool, if b then kEdge else kNode) _.
Next Obligation. by intros []. Qed.
#[global] Program Instance KeyBase_countable : Countable KeyBase :=
  inj_countable' (λ k, (node_edge_ k, name_ k)) (λ p, mkKey p.1 p.2) _.
Next Obligation. by intros []. Qed.

Inductive ReplacementPolicy := kLRU | kSize.
#[global] Instance ReplacementPolicy_eq_dec : EqDecision ReplacementPolicy.
Proof. solve_decision. Defined.

(** [size_t] arithmetic on the byte counter. *)
Definition wrap64 (z : Z) : Z := (z mod 2 ^ 64)%Z.

(** The result of a member function: it returns, or a
    [KATANA_LOG_ASSERT] / an undefined list operation stops it, or the
    model's loop budget ran out. *)
Inductive run (A : Type) :=
  | Done (a : A)
  | Abort
  | OutOfFuel.
Arguments Done {A} a.
Arguments Abort {A}.
Arguments OutOfFuel {A}.

Section WithValue.
Context {Value : Type}.

(** The members of [Cache<Value>].  A [std::list] iterator is the identity
    of a list node: nodes carry a number drawn from [next_node_], and the
    map stores that number next to the value.  The front of [lru_list_] is
    the most recently used end.  [evict_cb_] is represented by the log of
    the keys it was called with ([evicted_] stays empty without a
    callback). *)
Record Cache := mkCache {
  key_to_value_ : gmap KeyBase (Value * nat);
  lru_list_ : list (nat * KeyBase);
  next_node_ : nat;
  total_bytes_ : Z;
  policy_ : ReplacementPolicy;
  lru_capacity_ : nat;
  byte_capacity_ : Z;
  evict_cb_ : bool;
  evicted_ : list KeyBase;
  value_to_bytes_ : option (Value → Z)
}.

(** The constructor (lines 54-70): an empty cache with the given
    configuration, after its two [KATANA_LOG_VASSERT]s. *)
Definition new_cache (policy : ReplacementPolicy) (lru_capacity : nat)
    (byte_capacity : Z) (evict_cb : bool)
    (value_to_bytes : option (Value → Z)) : run Cache :=
  if negb (bool_decide (policy ≠ kLRU) || bool_decide (0 < lru_capacity))
  then Abort
  else if negb (bool_decide (policy ≠ kSize)
                || bool_decide (0 < byte_capacity)%Z)
  then Abort
  else Done (mkCache ∅ [] 0 0 policy lru_capacity byte_capacity evict_cb []
               value_to_bytes).

Definition size (c : Cache) : nat := base.size (key_to_value_ c).
Definition bytes (c : Cache) : Z := total_bytes_ c.
Definition Contains (c : Cache) (key : KeyBase) : bool :=
  bool_decide (is_Some (key_to_value_ c !! key)).

(** The loop conditions of [evict_if_necessary]. *)
Definition over_capacity (c : Cache) : bool :=
  match policy_ c with
  | kLRU => bool_decide (lru_capacity_ c < size c)
  | kSize => bool_decide (byte_capacity_ c < bytes c)%Z
             && bool_decide (1 < size c)
  end.

(** One round of the eviction loop: take the tail of the list (the
    assertion [tail != end()] fails on an empty list), give back the bytes
    of the value the map holds for that key, erase the key from the map
    and the node from the list, call the callback.  Under [kSize] the byte
    supplier is called without a null check. *)
Definition evict_tail (c : Cache) : run Cache :=
  match last (lru_list_ c) with
  | None => Abort
  | Some (_, evicted_key) =>
      let after (b : Z) :=
        Done (mkCache (delete evicted_key (key_to_value_ c))
                (take (pred (length (lru_list_ c))) (lru_list_ c))
                (next_node_ c) b
                (policy_ c) (lru_capacity_ c) (byte_capacity_ c)
                (evict_cb_ c)
                (if evict_cb_ c then evicted_ c ++ [evicted_key]
                 else evicted_ c)
                (value_to_bytes_ c)) in
      match key_to_value_ c !! evicted_key, value_to_bytes_ c with
      | Some (v, _), Some f => after (wrap64 (total_bytes_ c - f v))
      | Some _, None =>
          match policy_ c with
          | kLRU => after (total_bytes_ c)
          | kSize => Abort
          end
      | None, _ => after (total_bytes_ c)
      end
  end.

(** [evict_if_necessary] (lines 119-166): the [while] loop, with a bound
    on the number of rounds. *)
Fixpoint evict_loop (fuel : nat) (c : Cache) : run Cache :=
  if over_capacity c then
    match fuel with
    | 0 => OutOfFuel
    | S fuel' =>
        match evict_tail c with
        | Done c' => evict_loop fuel' c'
        | r => r
        end
    end
  else Done c.

(** Under [kSize] the function starts with
    [KATANA_LOG_DEBUG_ASSERT(value_to_bytes_ != nullptr)], checked as in a
    debug build.  Every round of the loop erases one list node, and a
    round on an empty list stops at the assertion, so one round more than
    the list has nodes is a budget that is never used up. *)
Definition evict_if_necessary (c : Cache) : run Cache :=
  match policy_ c, value_to_bytes_ c with
  | kSize, None => Abort
  | _, _ => evict_loop (S (length (lru_list_ c))) c
  end.

(** [Insert] (lines 84-94). *)
Definition Insert (c : Cache) (key : KeyBase) (value : Value) : run Cache :=
  let node := next_node_ c in
  evict_if_necessary
    (mkCache (<[key := (value, node)]> (key_to_value_ c))
       ((node, key) :: lru_list_ c)
       (S node)
       (match value_to_bytes_ c with
        | Some f => wrap64 (total_bytes_ c + f value)
        | None => total_bytes_ c
        end)
       (policy_ c) (lru_capacity_ c) (byte_capacity_ c)
       (evict_cb_ c) (evicted_ c) (value_to_bytes_ c)).

(** [lru_list_.splice(head, lru_list_, it)] with [head = begin()]: the
    node [it] moves to the front; [None] when no node of the list has that
    identity (a stale iterator, undefined in the source). *)
Definition splice_front (l : list (nat * KeyBase)) (it : nat)
  : option (list (nat * KeyBase)) :=
  match list_find (λ n, n.1 = it) l with
  | Some (i, n) => Some (n :: delete i l)
  | None => None
  end.

(** [Get] (lines 96-116).  [modify_if] runs the lambda only on a present
    key.  After a splice the map entry receives [head], the iterator taken
    before the splice, as in the source. *)
Definition Get (c : Cache) (key : KeyBase) : run (Cache * option Value) :=
  match key_to_value_ c !! key with
  | None => Done (c, None)
  | Some (v, it) =>
      match lru_list_ c with
      | [] => Abort
      | (head, _) :: _ =>
          if decide (it ≠ head) then
            match splice_front (lru_list_ c) it with
            | None => Abort
            | Some l' =>
                Done (mkCache (<[key := (v, head)]> (key_to_value_ c)) l'
                        (next_node_ c) (total_bytes_ c)
                        (policy_ c) (lru_capacity_ c) (byte_capacity_ c)
                        (evict_cb_ c) (evicted_ c) (value_to_bytes_ c),
                      Some v)
            end
          else Done (c, Some v)
      end
  end.

(** The states after each of a sequence of [Insert] calls; the sequence
    stops at the first call that does not return. *)
Fixpoint insert_all (c : Cache) (ops : list (KeyBase * Value))
  : list (run Cache) :=
  match ops with
  | [] => []
  | (k, v) :: ops' =>
      match Insert c k v with
      | Done c' => Done c' :: insert_all c' ops'
      | r => [r]
      end
  end.

(** Every key of the map has a node in the list.  The constructor
    establishes it and [Insert] and [Get] keep it. *)
Definition linked (c : Cache) : Prop :=
  ∀ k, is_Some (key_to_value_ c !! k) → k ∈ (lru_list_ c).*2.

(** The byte policy has its byte supplier (the debug assertion of
    [evict_if_necessary]). *)
Definition sized (c : Cache) : Prop :=
  policy_ c = kSize → is_Some (value_to_bytes_ c).

(** Two states of one cache object: the configuration is the same. *)
Definition same_config (c c' : Cache) : Prop :=
  policy_ c' = policy_ c ∧ lru_capacity_ c' = lru_capacity_ c ∧
  byte_capacity_ c' = byte_capacity_ c ∧ evict_cb_ c' = evict_cb_ c ∧
  value_to_bytes_ c' = value_to_bytes_ c.

(** The capacity bound of the configured policy. *)
Definition within_capacity (c : Cache) : Prop :=
  match policy_ c with
  | kLRU => size c ≤ lru_capacity_ c
  | kSize => (bytes c ≤ byte_capacity_ c)%Z ∨ size c = 1
  end.

(** The list holds exactly one node per stored key; node identities are
    pairwise distinct and were drawn from [next_node_].  The constructor
    establishes it; [Insert] of a key that is not stored and [Get] keep
    it. *)
Definition tidy (c : Cache) : Prop :=
  NoDup (lru_list_ c).*1 ∧ NoDup (lru_list_ c).*2 ∧
  (∀ k, is_Some (key_to_value_ c !! k) ↔ k ∈ (lru_list_ c).*2) ∧
  Forall (λ n, n.1 < next_node_ c) (lru_list_ c).

(** Every map entry holds the iterator of the list node of its key. *)
Definition anchored (c : Cache) : Prop :=
  ∀ k v it, key_to_value_ c !! k = Some (v, it) → (it, k) ∈ lru_list_ c.

(** The bytes of the stored values, and the byte counter being their sum
    (in [size_t] arithmetic). *)
Definition stored_bytes (f : Value → Z) (m : gmap KeyBase (Value * nat)) : Z :=
  map_fold (λ _ x acc, (acc + f x.1)%Z) 0%Z m.
Definition bytes_exact (c : Cache) : Prop :=
  ∀ f, value_to_bytes_ c = Some f →
       total_bytes_ c = wrap64 (stored_bytes f (key_to_value_ c)).

End WithValue.
Arguments Cache Value : clear implicits.

(** Scenario S6 of the specification: a byte budget of 100 and three
    values of 60 bytes each (a value is its own size). *)
Definition k1 : KeyBase := mkKey kNode "k1".
Definition k2 : KeyBase := mkKey kNode "k2".
Definition k3 : KeyBase := mkKey kEdge "k3".
Definition byte_cache : Cache Z :=
  mkCache ∅ [] 0 0 kSize 0 100 true [] (Some (λ v : Z, v)).
Definition lru_cache : Cache Z :=
  mkCache ∅ [] 0 0 kLRU 2 0 true [] None.

(** The LRU cache above after [Insert(k1, 10)] and [Insert(k2, 20)]. *)
Definition lru_two : Cache Z :=
  mkCache (<[k2 := (20%Z, 1)]> (<[k1 := (10%Z, 0)]> ∅)) [(1, k2); (0, k1)]
          2 0 kLRU 2 0 true [] None.

(** The byte cache above after [Insert(k1, 60)] and [Insert(k2, 30)]: 90 of
    its 100 bytes are in use. *)
Definition byte_two : Cache Z :=
  mkCache (<[k2 := (30%Z, 1)]> (<[k1 := (60%Z, 0)]> ∅)) [(1, k2); (0, k1)]
          2 90 kSize 0 100 true [] (Some (λ v : Z, v)).

(** An LRU cache of capacity 2 that counts bytes, after [Insert(k1, 10)]
    and [Insert(k2, 20)]. *)
Definition lru_sized_two : Cache Z :=
  mkCache (<[k2 := (20%Z, 1)]> (<[k1 := (10%Z, 0)]> ∅)) [(1, k2); (0, k1)]
          2 30 kLRU 2 0 true [] (Some (λ v : Z, v)).

End Cache.

(** * The dynamic bitset ([libgalois/src/DynamicBitset.cpp]) *)

Module Bitset.

(** Modelled from the spec: the members of [DynamicBitset] the source
    file uses (its header is not among the sources): the vector of 64-bit
    words and the number of bits. *)
Record DynamicBitset := mkDynamicBitset {
  bitvec_ : list Z;
  num_bits_ : nat
}.

(** Modelled from the spec: [size()], the number of bits. *)
Definition size (b : DynamicBitset) : nat := num_bits_ b.

(** Modelled from the spec: [test(i)], bit [i % 64] of word [i / 64]. *)
Definition test (b : DynamicBitset) (i : nat) : bool :=
  Z.testbit (bitvec_ b !!! (i / 64)) (Z.of_nat (i mod 64)).

(** The counting loop of a thread over its block [[start, end)]. *)
Definition count_block (bitset : DynamicBitset) (range : nat * nat) : nat :=
  foldl (λ count i, if test bitset i then S count else count) 0
        (seq range.1 (range.2 - range.1)).

(** The writing loop of a thread over its block, on the state
    [(index, offsets)]; [offsets->at(index)] throws past the end of the
    vector, which ends the run with [None]. *)
Definition write_block (bitset : DynamicBitset) (range : nat * nat)
    (st : nat * list nat) : option (nat * list nat) :=
  foldl (λ acc i,
           st ← acc;
           if test bitset i then
             if decide (st.1 < length st.2)
             then Some (S st.1, <[st.1 := i]> st.2)
             else None
           else Some st)
        (Some st) (seq range.1 (range.2 - range.1)).

(** [ComputeOffsets<uint64_t>] (lines 124-172), behind
    [GetOffsets<uint64_t>] and [AppendOffsets] on a vector of
    [uint64_t].
    [block_range start end tid nthreads] is the block of thread [tid]
    ([katana::block_range] is not among the sources); [first] and
    [second] are the orders in which the threads run the two [on_each]
    phases (a thread touches only its own cells of the shared vectors).
    Counts and indices are bounded by the sizes of vectors in memory, so
    the 64-bit arithmetic does not wrap. *)
Definition ComputeOffsets (block_range : nat → nat → nat → nat → nat * nat)
    (activeThreads : nat) (first second : list nat)
    (bitset : DynamicBitset) (offsets : list nat) : option (list nat) :=
  let counts :=
    foldl (λ tPrefixBitCounts tid,
             <[tid := count_block bitset
                        (block_range 0 (size bitset) tid activeThreads)]>
               tPrefixBitCounts)
          (replicate activeThreads 0) first in
  let tPrefixBitCounts :=
    foldl (λ c i, <[i := c !!! i + c !!! (i - 1)]> c) counts
          (seq 1 (activeThreads - 1)) in
  let bitsetCount := tPrefixBitCounts !!! (activeThreads - 1) in
  if decide (0 < bitsetCount) then
    let cur_size := length offsets in
    foldl (λ acc tid,
             offs ← acc;
             let index :=
               if decide (tid ≠ 0)
               then cur_size + tPrefixBitCounts !!! (tid - 1)
               else cur_size in
             snd <$> write_block bitset
                       (block_range 0 (size bitset) tid activeThreads)
                       (index, offs))
          (Some (offsets ++ replicate bitsetCount 0)) second
  else Some offsets.

(** The block of thread [tid], the set bits in it in increasing order,
    and the number of set bits in the blocks of the threads below [k]. *)
Definition thread_range (block_range : nat → nat → nat → nat → nat * nat)
    (nthreads : nat) (bitset : DynamicBitset) (tid : nat) : nat * nat :=
  block_range 0 (size bitset) tid nthreads.
Definition thread_bits (block_range : nat → nat → nat → nat → nat * nat)
    (nthreads : nat) (bitset : DynamicBitset) (tid : nat) : list nat :=
  filter (λ i, test bitset i)
    (seq (thread_range block_range nthreads bitset tid).1
         ((thread_range block_range nthreads bitset tid).2
          - (thread_range block_range nthreads bitset tid).1)).
Definition bits_before (block_range : nat → nat → nat → nat → nat * nat)
    (nthreads : nat) (bitset : DynamicBitset) (k : nat) : nat :=
  sum_list (length <$> (thread_bits block_range nthreads bitset <$> seq 0 k)).

(** [GetOffsets<uint64_t>] (lines 182-188). *)
Definition GetOffsets (block_range : nat → nat → nat → nat → nat * nat)
    (activeThreads : nat) (first second : list nat)
    (bitset : DynamicBitset) : option (list nat) :=
  ComputeOffsets block_range activeThreads first second bitset [].

(** Equal blocks, the last one taking the remainder: a block
    distribution for the examples. *)
Definition even_blocks (start end_ tid nthreads : nat) : nat * nat :=
  let len := (end_ - start) / nthreads in
  (start + tid * len,
   if decide (S tid = nthreads) then end_ else start + S tid * len).

(** Ten bits, of which bits 1, 3, 4 and 9 are set. *)
Definition ten_bits : DynamicBitset := mkDynamicBitset [538%Z] 10.

End Bitset.

Import Topo.

(** ** Copying a topology *)

Lemma copy_range_whole (l : list nat) : copy_range (data l) (length l) = Some l.
Proof.
  destruct l as [|x l]; [done|].
  unfold data, copy_range. rewrite decide_True by done. by rewrite take_ge.
Qed.

(** Whenever the original stores edge property indices (at least as many
    as it has nodes), the node property index array of the copy is cut
    from the edge property index array; the original's node property
    index array plays no part. *)
Lemma Copy_node_prop_indices (that : GraphTopology) :
  edge_prop_indices_ that ≠ [] →
  length (edge_prop_indices_ that) = NumEdges that →
  NumNodes that ≤ NumEdges that →
  node_prop_indices_ <$> Copy that
    = Some (take (NumNodes that) (edge_prop_indices_ that)).
Proof.
  intros Hne Hlen HNE. unfold Copy, GraphTopology_from_arrays.
  rewrite !copy_range_whole. simpl.
  destruct (edge_prop_indices_ that) as [|x l] eqn:Hep; [done|].
  unfold NumEdges, NumNodes in *. cbn [data copy_range].
  rewrite !decide_True by lia. done.
Qed.

(** C8: For every topology that stores edge property indices (one per
    edge, and at least as many edges as nodes, so that the copy reads
    inside the array), [Copy] returns a topology whose node property index
    array is the first [NumNodes] entries of the EDGE property index
    array; it differs from the node property index array of the original
    whenever that is not the same sequence. *)
Theorem Copy_takes_node_rows_from_edge_rows (that : GraphTopology) :
  edge_prop_indices_ that ≠ [] →
  length (edge_prop_indices_ that) = NumEdges that →
  NumNodes that ≤ NumEdges that →
  node_prop_indices_ that ≠ take (NumNodes that) (edge_prop_indices_ that) →
  ∃ copy, Copy that = Some copy ∧
    node_prop_indices_ copy = take (NumNodes that) (edge_prop_indices_ that) ∧
    node_prop_indices_ copy ≠ node_prop_indices_ that.
Proof.
  intros Hne Hlen HNE Hdiff.
  pose proof (Copy_node_prop_indices that Hne Hlen HNE) as Hcopy.
  destruct (Copy that) as [copy|]; [|done].
  exists copy. injection Hcopy as Hcopy.
  split; [done|]. split; [done|]. congruence.
Qed.

Lemma Copy_takes_node_rows_from_edge_rows_witness :
  ∃ copy, Copy swapped_rows = Some copy ∧
    node_prop_indices_ copy = [0; 1] ∧
    node_prop_indices_ copy ≠ [1; 0].
Proof.
  apply (Copy_takes_node_rows_from_edge_rows swapped_rows).
  - done.
  - reflexivity.
  - vm_compute. lia.
  - by vm_compute.
Defined.

(** C1: For every view tagged as sorted by destination ID and every source
    node with a non-empty edge range, [FindAllEdges] stops at its
    precondition assertion: the asserted condition,
    [!has_edges_sorted_by(kSortedByDestID)], is false, no destination is
    read and no range is returned. *)
Theorem FindAllEdges_asserts_not_sorted (v : EdgeShuffleTopology) (src dst : Node) :
  edge_sort_state_ v = kSortedByDestID →
  edge_begin (topo v) src ≠ edge_end (topo v) src →
  negb (has_edges_sorted_by v kSortedByDestID) = false ∧
  FindAllEdges v src dst = ([], AssertionFailed).
Proof.
  intros Hs Hne. unfold FindAllEdges, has_edges_sorted_by.
  rewrite Hs. case_decide; [done|]. by vm_compute.
Qed.

Lemma FindAllEdges_asserts_not_sorted_witness :
  negb (has_edges_sorted_by two_sorted_edges kSortedByDestID) = false ∧
  FindAllEdges two_sorted_edges 0 2 = ([], AssertionFailed).
Proof.
  apply (FindAllEdges_asserts_not_sorted two_sorted_edges 0 2).
  - reflexivity.
  - vm_compute. lia.
Defined.

(** C6: On [unsorted_hub] (not sorted by destination, node 0 of degree
    65) the edge [0 -> 1] exists at index 0, yet [FindEdge 0 1] bisects the
    unsorted range (it reads six midpoints and position 64, never position
    0) and returns the end sentinel 65; the linear scan of the same range
    finds edge 0 at its first read. *)
Theorem FindEdge_bisects_unsorted_range :
  has_edges_sorted_by unsorted_hub kSortedByDestID = false ∧
  OutDegree (topo unsorted_hub) 0 = 65 ∧
  0 ∈ OutEdges (topo unsorted_hub) 0 ∧
  OutEdgeDst (topo unsorted_hub) 0 = 1 ∧
  reads_of (FindEdge unsorted_hub 0 1) = [32; 49; 57; 61; 63; 64; 64] ∧
  outcome (FindEdge unsorted_hub 0 1) = Ok (edge_end (topo unsorted_hub) 0) ∧
  edge_end (topo unsorted_hub) 0 = 65 ∧
  find_if_dst (topo unsorted_hub) 1 0 65 = ([0], Ok 0).
Proof.
  repeat split; try by vm_compute.
  apply list_elem_of_In. vm_compute. by left.
Qed.

(** ** The property cache *)

Section CacheFacts.
Context {Value : Type}.
Implicit Types (c : Cache.Cache Value) (k : Cache.KeyBase) (v : Value).

Lemma over_capacity_nonempty c :
  Cache.over_capacity c = true → Cache.key_to_value_ c ≠ ∅.
Proof.
  unfold Cache.over_capacity, Cache.size. intros H Hm.
  rewrite Hm, map_size_empty in H.
  destruct (Cache.policy_ c); repeat case_bool_decide; simpl in H; try done; lia.
Qed.

(** The budget of [evict_if_necessary] is never what stops the loop. *)
Lemma evict_loop_budget fuel c :
  length (Cache.lru_list_ c) < fuel → Cache.evict_loop fuel c ≠ Cache.OutOfFuel.
Proof.
  revert c. induction fuel as [|fuel IH]; intros c Hlen; [lia|].
  simpl. destruct (Cache.over_capacity c); [|done].
  unfold Cache.evict_tail.
  destruct (last (Cache.lru_list_ c)) as [[id ek]|] eqn:Hlast; [|done].
  assert (Hshort : length (take (pred (length (Cache.lru_list_ c)))
                             (Cache.lru_list_ c)) < fuel).
  { rewrite length_take. apply last_Some in Hlast as [l' Hl'].
    rewrite Hl', length_app in *. simpl in *. lia. }
  destruct (Cache.key_to_value_ c !! ek) as [[v it]|];
    destruct (Cache.value_to_bytes_ c) as [f|];
    try destruct (Cache.policy_ c); try done; by apply IH.
Qed.

(** One round of eviction on a linked, non-empty cache returns, keeps the
    configuration and the two invariants, shortens the list by one node
    and removes at most one key. *)
Lemma evict_tail_linked c :
  Cache.linked c → Cache.sized c → Cache.key_to_value_ c ≠ ∅ →
  ∃ c', Cache.evict_tail c = Cache.Done c' ∧
        Cache.linked c' ∧ Cache.same_config c c' ∧
        S (length (Cache.lru_list_ c')) = length (Cache.lru_list_ c) ∧
        Cache.size c ≤ S (Cache.size c').
Proof.
  destruct c as [m l nn tb pol L B cb ev f].
  unfold Cache.linked, Cache.sized, Cache.same_config, Cache.size,
    Cache.evict_tail; simpl.
  intros Hl Hs Hne.
  destruct (map_choose _ Hne) as (k0 & x0 & Hk0).
  assert (Hin : k0 ∈ l.*2) by (apply Hl; eauto).
  destruct l as [|[id ek] l0 _] using rev_ind; [by apply elem_of_nil in Hin|].
  rewrite last_snoc.
  replace (take (pred (length (l0 ++ [(id, ek)]))) (l0 ++ [(id, ek)])) with l0.
  2:{ rewrite length_app; simpl.
      replace (pred (length l0 + 1)) with (length l0) by lia.
      by rewrite take_app_length. }
  assert (Hlink : ∀ k, is_Some (delete ek m !! k) → k ∈ l0.*2).
  { intros k [y Hy]. apply lookup_delete_Some in Hy as [Hkne Hy].
    assert (Hk : k ∈ (l0 ++ [(id, ek)]).*2) by (apply Hl; eauto).
    rewrite fmap_app, elem_of_app in Hk. destruct Hk as [Hk|Hk]; [done|].
    simpl in Hk. apply list_elem_of_singleton in Hk. congruence. }
  assert (Hlen : S (length l0) = length (l0 ++ [(id, ek)])).
  { rewrite length_app. simpl. lia. }
  assert (Hsize : base.size m ≤ S (base.size (delete ek m))).
  { rewrite map_size_delete. destruct (m !! ek); simpl; lia. }
  destruct (m !! ek) as [[v it]|] eqn:Hek.
  - destruct f as [f|].
    + eexists; split; [done|]. simpl. by repeat split.
    + destruct pol.
      * eexists; split; [done|]. simpl. by repeat split.
      * destruct (Hs eq_refl) as [? ?]; done.
  - destruct f; (eexists; split; [done|]; simpl; by repeat split).
Qed.

Lemma sized_same_config c c' :
  Cache.same_config c c' → Cache.sized c → Cache.sized c'.
Proof. intros (Hp & _ & _ & _ & Hf) Hs. unfold Cache.sized. rewrite Hp, Hf. exact Hs. Qed.

Lemma same_config_trans c1 c2 c3 :
  Cache.same_config c1 c2 → Cache.same_config c2 c3 → Cache.same_config c1 c3.
Proof. unfold Cache.same_config. intuition congruence. Qed.

(** The loop's exit condition is the capacity bound (a byte-policy cache
    that holds a key and is not over capacity has [bytes <= B] or exactly
    one key). *)
Lemma exit_within_capacity c :
  Cache.over_capacity c = false →
  (Cache.policy_ c = Cache.kSize → 1 ≤ Cache.size c) →
  Cache.within_capacity c.
Proof.
  intros Hov Hsz.
  unfold Cache.within_capacity. unfold Cache.over_capacity in Hov.
  destruct (Cache.policy_ c); repeat case_bool_decide; simpl in Hov;
    try done; try lia.
  specialize (Hsz eq_refl). right. lia.
Qed.

(** The eviction loop returns within [length lru_list_] rounds, and on
    return the capacity bound of the policy holds. *)
Lemma evict_loop_returns fuel c :
  Cache.linked c → Cache.sized c →
  length (Cache.lru_list_ c) ≤ fuel →
  (Cache.policy_ c = Cache.kSize → 1 ≤ Cache.size c) →
  ∃ c', Cache.evict_loop fuel c = Cache.Done c' ∧
        Cache.linked c' ∧ Cache.same_config c c' ∧
        Cache.within_capacity c'.
Proof.
  revert c. induction fuel as [|fuel IH]; intros c Hl Hs Hlen Hsz.
  - destruct (Cache.over_capacity c) eqn:Hov.
    + exfalso. apply over_capacity_nonempty in Hov.
      destruct (map_choose _ Hov) as (k0 & x0 & Hk0).
      assert (Hin : k0 ∈ (Cache.lru_list_ c).*2) by (apply Hl; eauto).
      destruct (Cache.lru_list_ c); [by apply elem_of_nil in Hin|simpl in Hlen; lia].
    + simpl. rewrite Hov. exists c. repeat split; try done.
      by apply exit_within_capacity.
  - simpl. destruct (Cache.over_capacity c) eqn:Hov.
    + destruct (evict_tail_linked c Hl Hs (over_capacity_nonempty _ Hov))
        as (c1 & -> & Hl1 & Hcfg & Hlen1 & Hsz1).
      destruct (IH c1) as (c2 & Hrun & Hl2 & Hcfg2 & Hcap); try done.
      * by eapply sized_same_config.
      * lia.
      * destruct Hcfg as (Hp & _). rewrite Hp. intros Hpol.
        unfold Cache.over_capacity in Hov. rewrite Hpol in Hov.
        repeat case_bool_decide; simpl in Hov; try done. lia.
      * exists c2. split; [done|]. split; [done|].
        split; [by eapply same_config_trans|done].
    + exists c. repeat split; try done. by apply exit_within_capacity.
Qed.

(** With the byte supplier that the byte policy needs, the debug
    assertion of [evict_if_necessary] passes. *)
Lemma evict_if_necessary_sized c :
  Cache.sized c →
  Cache.evict_if_necessary c
    = Cache.evict_loop (S (length (Cache.lru_list_ c))) c.
Proof.
  unfold Cache.sized, Cache.evict_if_necessary. intros Hs.
  destruct (Cache.policy_ c); [done|].
  destruct (Cache.value_to_bytes_ c); [done|]. by destruct (Hs eq_refl).
Qed.

(** [Insert] returns on every linked cache, and the cache it returns is
    linked again and within the capacity of its policy. *)
Lemma Insert_returns c k v :
  Cache.linked c → Cache.sized c →
  ∃ c', Cache.Insert c k v = Cache.Done c' ∧
        Cache.linked c' ∧ Cache.same_config c c' ∧
        Cache.within_capacity c'.
Proof.
  intros Hl Hs. unfold Cache.Insert.
  rewrite evict_if_necessary_sized by exact Hs.
  match goal with |- ∃ c', Cache.evict_loop _ ?c0 = _ ∧ _ =>
    destruct (evict_loop_returns (S (length (Cache.lru_list_ c0))) c0)
      as (c' & Hrun & Hl' & Hcfg & Hcap) end; simpl.
  - intros k' [y Hy]. simpl in *.
    destruct (decide (k = k')) as [->|Hne]; [left|right].
    rewrite lookup_insert_ne in Hy by done. apply Hl; eauto.
  - exact Hs.
  - lia.
  - intros _. unfold Cache.size. simpl.
    destruct (Cache.key_to_value_ c !! k) eqn:Hk.
    + rewrite map_size_insert_Some by eauto.
      assert (base.size (Cache.key_to_value_ c) ≠ 0); [|lia].
      apply map_size_non_empty_iff. intros He. by rewrite He in Hk.
    + rewrite map_size_insert_None by done. lia.
  - exists c'. split; [done|]. split; [done|]. split; [exact Hcfg|done].
Qed.

(** The constructor establishes the invariants, and [Get] keeps them. *)
Lemma new_cache_linked policy L B cb (f : option (Value → Z)) c :
  Cache.new_cache policy L B cb f = Cache.Done c → Cache.linked c.
Proof.
  unfold Cache.new_cache. repeat case_match; try done.
  intros [= <-] k [x Hx]. simpl in Hx. by rewrite lookup_empty in Hx.
Qed.

Lemma splice_front_keys (l l' : list (nat * Cache.KeyBase)) it :
  Cache.splice_front l it = Some l' → l'.*2 ≡ₚ l.*2.
Proof.
  unfold Cache.splice_front.
  destruct (list_find _ l) as [[i n]|] eqn:Hfind; [|done].
  intros [= <-]. apply list_find_Some in Hfind as (Hi & _ & _).
  rewrite fmap_cons. rewrite (delete_Permutation l i n Hi) at 2.
  by rewrite fmap_cons.
Qed.

Lemma Get_linked c k c' r :
  Cache.linked c → Cache.Get c k = Cache.Done (c', r) →
  Cache.linked c' ∧ Cache.same_config c c'.
Proof.
  intros Hl. unfold Cache.Get.
  destruct (Cache.key_to_value_ c !! k) as [[v it]|] eqn:Hk.
  2:{ intros [= <- <-]. by split. }
  destruct (Cache.lru_list_ c) as [|[head hk] l] eqn:Hlist; [done|].
  case_decide as Hit.
  - destruct (Cache.splice_front _ it) as [l'|] eqn:Hsp; [|done].
    intros [= <- <-]. split; [|done].
    intros k' [y Hy]. simpl in *.
    rewrite (splice_front_keys _ _ _ Hsp), <- Hlist. apply Hl.
    destruct (decide (k = k')) as [<-|Hne]; [eauto|].
    rewrite lookup_insert_ne in Hy by done. eauto.
  - intros [= <- <-]. by split.
Qed.

(** C2: Starting from any cache in which every stored key has its list
    node (and the byte policy has its byte supplier), every call of a
    finite sequence of [Insert] calls returns, and the cache it returns
    has the configured capacities [L] and [B] and satisfies
    [size() <= L] under the LRU policy and [bytes() <= B] or
    [size() == 1] under the byte policy. *)
Theorem Insert_capacity_invariant c (ops : list (Cache.KeyBase * Value)) :
  Cache.linked c → Cache.sized c →
  length (Cache.insert_all c ops) = length ops ∧
  Forall (λ r, ∃ c', r = Cache.Done c' ∧ Cache.same_config c c' ∧
             match Cache.policy_ c with
             | Cache.kLRU => Cache.size c' ≤ Cache.lru_capacity_ c
             | Cache.kSize =>
                 (Cache.bytes c' ≤ Cache.byte_capacity_ c)%Z ∨ Cache.size c' = 1
             end)
         (Cache.insert_all c ops).
Proof.
  revert c. induction ops as [|[k v] ops IH]; intros c Hl Hs; [by split|].
  simpl. destruct (Insert_returns c k v Hl Hs) as (c1 & -> & Hl1 & Hcfg & Hcap).
  destruct (IH c1 Hl1 (sized_same_config _ _ Hcfg Hs)) as [Hlen Hall].
  split; [simpl; by rewrite Hlen|].
  constructor.
  - exists c1. split; [done|]. split; [done|].
    unfold Cache.within_capacity in Hcap.
    destruct Hcfg as (Hp & HL & HB & _). by rewrite Hp, HL, HB in Hcap.
  - eapply Forall_impl; [exact Hall|]. simpl.
    intros r (c' & -> & Hcfg' & Hcap').
    exists c'. split; [done|]. split; [by eapply same_config_trans|].
    destruct Hcfg as (Hp & HL & HB & _). by rewrite Hp, HL, HB in Hcap'.
Qed.

(** C10: [Get] of a key that is not in the cache returns empty and the
    cache it leaves behind is the cache it was given: the map with every
    stored value, the MRU list with its order, the byte counter (and the
    callback log) are unchanged. *)
Theorem Get_absent_unchanged c k :
  Cache.key_to_value_ c !! k = None →
  Cache.Get c k = Cache.Done (c, None).
Proof. intros H. unfold Cache.Get. by rewrite H. Qed.

End CacheFacts.

Lemma Insert_capacity_invariant_witness :
  length (Cache.insert_all Cache.byte_cache
            [(Cache.k1, 60%Z); (Cache.k2, 60%Z); (Cache.k3, 60%Z)]) = 3 ∧
  Forall (λ r, ∃ c', r = Cache.Done c' ∧ Cache.same_config Cache.byte_cache c' ∧
             ((Cache.bytes c' ≤ 100)%Z ∨ Cache.size c' = 1))
         (Cache.insert_all Cache.byte_cache
            [(Cache.k1, 60%Z); (Cache.k2, 60%Z); (Cache.k3, 60%Z)]).
Proof.
  apply (Insert_capacity_invariant Cache.byte_cache
           [(Cache.k1, 60%Z); (Cache.k2, 60%Z); (Cache.k3, 60%Z)]).
  - intros k [x Hx]. by vm_compute in Hx.
  - intros _. by eexists.
Defined.

Lemma Get_absent_unchanged_witness :
  Cache.Get Cache.lru_two Cache.k3 = Cache.Done (Cache.lru_two, None).
Proof. apply (Get_absent_unchanged Cache.lru_two Cache.k3). reflexivity. Defined.

(** ** The condensed edge-type map *)

Section CondensedMap.

Lemma elem_of_set_insert x y s : y ∈ set_insert x s ↔ y = x ∨ y ∈ s.
Proof.
  induction s as [|z s IH]; simpl.
  - rewrite list_elem_of_singleton. set_solver.
  - repeat case_decide; subst; rewrite ?elem_of_cons, ?IH; naive_solver.
Qed.

Lemma set_insert_sorted x s :
  StronglySorted lt s → StronglySorted lt (set_insert x s).
Proof.
  induction 1 as [|z s Hs IH Hz]; simpl.
  - repeat constructor.
  - repeat case_decide; subst.
    + constructor; [by constructor|]. constructor; [done|].
      eapply Forall_impl; [exact Hz|]. simpl. lia.
    + by constructor.
    + constructor; [done|]. apply Forall_forall. intros y Hy.
      apply elem_of_set_insert in Hy as [->|Hy]; [lia|].
      rewrite Forall_forall in Hz. by apply Hz.
Qed.

Lemma foldl_set_insert (f : nat → EntityTypeID) (es : list nat) s0 :
  StronglySorted lt s0 →
  let s := foldl (λ s e, set_insert (f e) s) s0 es in
  StronglySorted lt s ∧ ∀ y, y ∈ s ↔ y ∈ s0 ∨ ∃ e, e ∈ es ∧ f e = y.
Proof.
  revert s0. induction es as [|e es IH]; intros s0 Hs0; simpl.
  - split; [done|]. intros y. set_solver.
  - destruct (IH (set_insert (f e) s0) (set_insert_sorted _ _ Hs0)) as [H1 H2].
    split; [done|]. intros y. rewrite H2, elem_of_set_insert. set_solver.
Qed.

Lemma merge_sets_spec (sets : list (list EntityTypeID)) s0 :
  StronglySorted lt s0 →
  let s := foldl (λ merged s, foldl (λ m ty, set_insert ty m) merged s) s0 sets in
  StronglySorted lt s ∧ ∀ y, y ∈ s ↔ y ∈ s0 ∨ ∃ t, t ∈ sets ∧ y ∈ t.
Proof.
  revert s0. induction sets as [|t sets IH]; intros s0 Hs0; simpl.
  - split; [done|]. intros y. set_solver.
  - destruct (foldl_set_insert id t s0 Hs0) as [H1 H2].
    destruct (IH _ H1) as [H3 H4]. split; [done|].
    intros y. rewrite H4, H2. set_solver.
Qed.

(** The numbering loop numbers the elements of a duplicate-free list by
    their position. *)
Lemma number_types_spec (merged : list EntityTypeID) :
  NoDup merged →
  index_to_type_map_ (number_types merged) = merged ∧
  ∀ X i, type_to_index_map_ (number_types merged) !! X = Some i ↔
         merged !! i = Some X.
Proof.
  intros Hnd. unfold number_types.
  assert (Hgen : ∀ l (m : gmap EntityTypeID nat) v,
    NoDup (v ++ l) →
    (∀ X i, m !! X = Some i ↔ v !! i = Some X) →
    let r := foldl (λ '(m, v, n) ty, (<[ty := n]> m, v ++ [ty], S n))
                   (m, v, length v) l in
    r.1.2 = v ++ l ∧ ∀ X i, r.1.1 !! X = Some i ↔ (v ++ l) !! i = Some X).
  { clear. induction l as [|ty l IH]; intros m v Hnd Hm; simpl.
    - rewrite app_nil_r. by split.
    - replace (S (length v)) with (length (v ++ [ty]))
        by (rewrite length_app; simpl; lia).
      rewrite (assoc_L (++) v [ty] l : v ++ ty :: l = (v ++ [ty]) ++ l).
      apply IH.
      + by rewrite <- (assoc_L (++)).
      + intros X i. apply NoDup_app in Hnd as (_ & Hdis & _).
        assert (Hty : ty ∉ v) by (intros ?; apply (Hdis ty); set_solver).
        destruct (decide (X = ty)) as [->|Hne].
        * rewrite lookup_insert_eq. split.
          -- intros [= <-]. by rewrite lookup_app_r, Nat.sub_diag by lia.
          -- intros Hi. destruct (decide (i < length v)).
             ++ rewrite lookup_app_l in Hi by done.
                exfalso. apply Hty. by eapply list_elem_of_lookup_2.
             ++ rewrite lookup_app_r in Hi by lia.
                destruct (i - length v) as [|?] eqn:Hd; simpl in Hi; [|done].
                f_equal. lia.
        * rewrite lookup_insert_ne by done. rewrite Hm. split.
          -- intros Hi. rewrite lookup_app_l; [done|]. by eapply lookup_lt_Some.
          -- intros Hi. destruct (decide (i < length v)).
             ++ by rewrite lookup_app_l in Hi.
             ++ rewrite lookup_app_r in Hi by lia.
                destruct (i - length v) as [|?]; simpl in Hi; [congruence|done]. }
  specialize (Hgen merged ∅ [] Hnd). simpl in Hgen.
  destruct (foldl _ _ merged) as [[m v] n]. simpl in *.
  apply Hgen. intros X i. by rewrite lookup_empty.
Qed.

Lemma StronglySorted_lt_NoDup (l : list nat) : StronglySorted lt l → NoDup l.
Proof.
  induction 1 as [|x l Hl IH Hx]; constructor; [|done].
  intros Hin. rewrite Forall_forall in Hx. specialize (Hx _ Hin). lia.
Qed.

(** The merged set holds exactly the types of the edges handed out. *)
Lemma merged_types_spec (pg : PropertyGraph) (work : list (list Edge)) :
  let merged := merge_sets (thread_edge_types pg <$> work) in
  StronglySorted lt merged ∧
  ∀ X, X ∈ merged ↔
       ∃ e, e ∈ concat work ∧ GetTypeOfEdgeFromTopoIndex pg e = X.
Proof.
  simpl. unfold merge_sets.
  destruct (merge_sets_spec (thread_edge_types pg <$> work) [])
    as [Hs Hel]; [constructor|].
  split; [done|]. intros X. rewrite Hel. split.
  - intros [Hx|(t & Ht & Hx)]; [by apply elem_of_nil in Hx|].
    apply list_elem_of_fmap in Ht as (es & -> & Hes).
    unfold thread_edge_types in Hx.
    destruct (foldl_set_insert (GetTypeOfEdgeFromTopoIndex pg) es [])
      as [_ Hel']; [constructor|].
    apply Hel' in Hx as [Hx|(e & He & <-)]; [by apply elem_of_nil in Hx|].
    exists e. split; [|done]. apply list_elem_of_In, in_concat.
    exists es. by rewrite <- !list_elem_of_In.
  - intros (e & He & <-). right.
    apply list_elem_of_In, in_concat in He as (es & Hes & He).
    rewrite <- !list_elem_of_In in *.
    exists (thread_edge_types pg es). split; [by apply list_elem_of_fmap_2|].
    unfold thread_edge_types.
    destruct (foldl_set_insert (GetTypeOfEdgeFromTopoIndex pg) es [])
      as [_ Hel']; [constructor|].
    apply Hel'. right. eauto.
Qed.

(** C7: Whatever way the edges [0 .. NumEdges) are shared out among the
    threads, the map built by [MakeFromEdgeTypes] sends every edge type
    [X] present among the graph's edges to an index [i < T] with
    [index_to_type[i] = X]; only present types receive an index; every
    index below [T] is the index of a present type; and [T] is the number
    of distinct present edge types. *)
Theorem MakeFromEdgeTypes_bijection (pg : PropertyGraph) (work : list (list Edge)) :
  concat work ≡ₚ seq 0 (NumEdges (topology pg)) →
  let cm := MakeFromEdgeTypes pg work in
  let T := num_unique_types cm in
  let present X := ∃ e, e < NumEdges (topology pg) ∧
                        GetTypeOfEdgeFromTopoIndex pg e = X in
  (∀ X, present X →
        ∃ i, GetIndex cm X = Some i ∧ i < T ∧ GetType cm i = Some X) ∧
  (∀ X i, GetIndex cm X = Some i → present X ∧ i < T) ∧
  (∀ i, i < T → ∃ X, present X ∧ GetIndex cm X = Some i) ∧
  T = size (list_to_set (GetTypeOfEdgeFromTopoIndex pg <$>
                           seq 0 (NumEdges (topology pg))) : gset EntityTypeID).
Proof.
  intros Hwork cm T present.
  destruct (merged_types_spec pg work) as [Hsorted Hel].
  set (merged := merge_sets (thread_edge_types pg <$> work)) in *.
  assert (Hnd : NoDup merged) by by apply StronglySorted_lt_NoDup.
  destruct (number_types_spec merged Hnd) as [Hvec Hmap].
  assert (HT : T = length merged).
  { change (length (index_to_type_map_ (number_types merged)) = length merged).
    by rewrite Hvec. }
  assert (Hpres : ∀ X, X ∈ merged ↔ present X).
  { intros X. rewrite Hel. unfold present. split; intros (e & He & HX); exists e; (split; [|done]).
    - rewrite Hwork in He. apply elem_of_seq in He. lia.
    - rewrite Hwork. apply elem_of_seq. lia. }
  unfold GetIndex, GetType.
  change cm with (number_types merged).
  split; [|split; [|split]].
  - intros X HX. apply Hpres, list_elem_of_lookup in HX as [i Hi].
    exists i. rewrite Hvec. split; [by apply Hmap|]. split; [|done].
    rewrite HT. by eapply lookup_lt_Some.
  - intros X i Hi. apply Hmap in Hi. split.
    + apply Hpres. by eapply list_elem_of_lookup_2.
    + rewrite HT. by eapply lookup_lt_Some.
  - intros i Hi. rewrite HT in Hi.
    destruct (lookup_lt_is_Some_2 merged i Hi) as [X HX].
    exists X. split; [|by apply Hmap].
    apply Hpres. by eapply list_elem_of_lookup_2.
  - rewrite HT, <- (size_list_to_set (C:=gset EntityTypeID) merged Hnd).
    f_equal. apply set_eq. intros X. rewrite !elem_of_list_to_set, Hpres.
    rewrite list_elem_of_fmap. unfold present.
    split; intros (e & H1 & H2).
    + exists e. split; [done|]. apply elem_of_seq. lia.
    + exists e. apply elem_of_seq in H2. split; [lia|done].
Qed.

End CondensedMap.

Lemma MakeFromEdgeTypes_bijection_witness :
  let cm := MakeFromEdgeTypes typed_graph [[3; 0]; [2; 1]] in
  let T := num_unique_types cm in
  let present X := ∃ e, e < 4 ∧ GetTypeOfEdgeFromTopoIndex typed_graph e = X in
  (∀ X, present X →
        ∃ i, GetIndex cm X = Some i ∧ i < T ∧ GetType cm i = Some X) ∧
  (∀ X i, GetIndex cm X = Some i → present X ∧ i < T) ∧
  (∀ i, i < T → ∃ X, present X ∧ GetIndex cm X = Some i) ∧
  T = size (list_to_set (GetTypeOfEdgeFromTopoIndex typed_graph <$> seq 0 4)
              : gset EntityTypeID).
Proof.
  apply (MakeFromEdgeTypes_bijection typed_graph [[3; 0]; [2; 1]]).
  simpl. apply (bool_decide_unpack _). by vm_compute.
Defined.

(** ** Slices of arrays *)

Section Slices.
Context {A : Type}.
Implicit Types (l s : list A).

Lemma splice_slice b e l : b ≤ e → splice b e (slice b e l) l = l.
Proof.
  intros Hbe. unfold splice, slice.
  rewrite <- (take_drop b l) at 4. f_equal.
  rewrite <- (take_drop (e - b) (drop b l)) at 2. f_equal.
  rewrite drop_drop. f_equal. lia.
Qed.

Lemma length_slice b e l : b ≤ e → e ≤ length l → length (slice b e l) = e - b.
Proof. intros. unfold slice. rewrite length_take, length_drop. lia. Qed.

Lemma length_splice b e s l :
  b ≤ e → e ≤ length l → length s = e - b → length (splice b e s l) = length l.
Proof.
  intros. unfold splice. rewrite !length_app, length_take, length_drop. lia.
Qed.

(** Overwriting [[b, e)] leaves every part before [b] or after [e] as it
    was, and puts the new content at [[b, e)]. *)
Lemma slice_splice_before b e s l b' e' :
  e' ≤ b → b ≤ length l → slice b' e' (splice b e s l) = slice b' e' l.
Proof.
  intros. unfold slice, splice.
  destruct (decide (b' ≤ e')) as [Hle|Hgt].
  - rewrite !take_drop_commute. f_equal.
    rewrite take_app_le by (rewrite length_take; lia).
    rewrite take_take. f_equal. lia.
  - by replace (e' - b') with 0 by lia.
Qed.

Lemma slice_splice_after b e s l b' e' :
  e ≤ b' → b ≤ e → e ≤ length l → length s = e - b →
  slice b' e' (splice b e s l) = slice b' e' l.
Proof.
  intros. unfold slice, splice. f_equal.
  rewrite (assoc_L (++)).
  rewrite drop_app_ge by (rewrite length_app, length_take; lia).
  rewrite length_app, length_take, drop_drop. f_equal. lia.
Qed.

Lemma slice_splice_same b e s l :
  b ≤ e → e ≤ length l → length s = e - b → slice b e (splice b e s l) = s.
Proof.
  intros. unfold slice, splice.
  rewrite drop_app_length' by (rewrite length_take; lia).
  by rewrite take_app_length' by lia.
Qed.

Lemma fmap_slice {B} (f : A → B) b e l : f <$> slice b e l = slice b e (f <$> l).
Proof. unfold slice. by rewrite fmap_take, fmap_drop. Qed.

Lemma fmap_splice {B} (f : A → B) b e s l :
  f <$> splice b e s l = splice b e (f <$> s) (f <$> l).
Proof. unfold splice. by rewrite !fmap_app, fmap_take, fmap_drop. Qed.

End Slices.

(** ** Edge ranges of a well-formed topology *)

Section Ranges.
Implicit Types (t : GraphTopology).

Lemma StronglySorted_lookup_lt {A} (R : relation A) (l : list A) i j a b :
  StronglySorted R l → l !! i = Some a → l !! j = Some b → i < j → R a b.
Proof.
  intros Hs. revert i j. induction Hs as [|x l Hs IH Hx]; intros i j Ha Hb Hij.
  - done.
  - destruct j as [|j]; [lia|]. destruct i as [|i]; simpl in *.
    + injection Ha as <-. rewrite Forall_forall in Hx. apply Hx.
      by eapply list_elem_of_lookup_2.
    + eapply IH; [done..|lia].
Qed.

Lemma adj_monotone t i j :
  StronglySorted le (adj_indices_ t) → i ≤ j → j < NumNodes t →
  adj_indices_ t !!! i ≤ adj_indices_ t !!! j.
Proof.
  unfold NumNodes. intros Hs Hij Hj.
  destruct (decide (i = j)) as [->|Hne]; [done|].
  assert (Hi : i < length (adj_indices_ t)) by lia.
  destruct (lookup_lt_is_Some_2 _ _ Hi) as [a Ha].
  destruct (lookup_lt_is_Some_2 _ _ Hj) as [b Hb].
  rewrite (list_lookup_total_correct _ _ _ Ha), (list_lookup_total_correct _ _ _ Hb).
  eapply (StronglySorted_lookup_lt le); [done|exact Ha|exact Hb|lia].
Qed.

Lemma adj_le_num_edges t n :
  well_formed t → n < NumNodes t → adj_indices_ t !!! n ≤ NumEdges t.
Proof.
  intros (Hs & Hlast & _) Hn. rewrite <- Hlast.
  rewrite last_lookup.
  assert (Hp : pred (length (adj_indices_ t)) < length (adj_indices_ t))
    by (unfold NumNodes in Hn; lia).
  destruct (lookup_lt_is_Some_2 _ _ Hp) as [b Hb]. rewrite Hb. simpl.
  rewrite <- (list_lookup_total_correct _ _ _ Hb).
  apply adj_monotone; [done| |done]. unfold NumNodes in Hn. lia.
Qed.

Lemma edge_range_bounds t n :
  well_formed t → n < NumNodes t →
  edge_begin t n ≤ edge_end t n ∧ edge_end t n ≤ NumEdges t.
Proof.
  intros Hwf Hn. split; [|by apply adj_le_num_edges].
  unfold edge_begin, edge_end. destruct n as [|m]; [lia|].
  apply adj_monotone; [apply Hwf|lia|done].
Qed.

Lemma edge_ranges_ordered t m n :
  well_formed t → m < n → n < NumNodes t → edge_end t m ≤ edge_begin t n.
Proof.
  intros Hwf Hmn Hn. unfold edge_begin, edge_end. destruct n as [|n']; [lia|].
  apply adj_monotone; [apply Hwf|lia|lia].
Qed.

End Ranges.

(** *** Binary search on a sorted range *)

Lemma read_dst_in_bounds (t : GraphTopology) e :
  e < NumEdges t → read_dst t e = ([e], Ok (OutEdgeDst t e)).
Proof.
  intros He. unfold read_dst, OutEdgeDst.
  destruct (lookup_lt_is_Some_2 (dests_ t) e He) as [d Hd].
  by rewrite Hd, (list_lookup_total_correct _ _ _ Hd).
Qed.

Lemma read_dst_out_of_bounds (t : GraphTopology) e :
  NumEdges t ≤ e → read_dst t e = ([e], BadRead e).
Proof.
  intros He. unfold read_dst. by rewrite (proj2 (lookup_ge_None _ _) He).
Qed.

(** The loop budget of the bisections is never what stops them: any
    budget of at least [len] rounds gives the same run. *)
Lemma lower_bound_loop_fuel (t : GraphTopology) dst fuel fuel' first len :
  len ≤ fuel → len ≤ fuel' →
  lower_bound_loop t dst fuel first len = lower_bound_loop t dst fuel' first len.
Proof.
  revert fuel' first len.
  induction fuel as [|fuel IH]; intros fuel' first len Hf Hf'.
  - assert (len = 0) as -> by lia. by destruct fuel'.
  - destruct fuel' as [|fuel'].
    + assert (len = 0) as -> by lia. done.
    + cbn [lower_bound_loop]. case_decide as Hlen; [done|].
      assert (Hhalf : len / 2 < len) by (apply Nat.div_lt; lia).
      set (half := len / 2) in *.
      unfold mbind, Reads_bind.
      destruct (read_dst t (first + half)) as [rs [d| |e]]; cbn [fst snd]; [|done..].
      case_decide.
      * by rewrite (IH fuel') by lia.
      * by rewrite (IH fuel') by lia.
Qed.

Lemma upper_bound_loop_fuel (t : GraphTopology) dst fuel fuel' first len :
  len ≤ fuel → len ≤ fuel' →
  upper_bound_loop t dst fuel first len = upper_bound_loop t dst fuel' first len.
Proof.
  revert fuel' first len.
  induction fuel as [|fuel IH]; intros fuel' first len Hf Hf'.
  - assert (len = 0) as -> by lia. by destruct fuel'.
  - destruct fuel' as [|fuel'].
    + assert (len = 0) as -> by lia. done.
    + cbn [upper_bound_loop]. case_decide as Hlen; [done|].
      assert (Hhalf : len / 2 < len) by (apply Nat.div_lt; lia).
      set (half := len / 2) in *.
      unfold mbind, Reads_bind.
      destruct (read_dst t (first + half)) as [rs [d| |e]]; cbn [fst snd]; [|done..].
      case_decide.
      * by rewrite (IH fuel') by lia.
      * by rewrite (IH fuel') by lia.
Qed.

(** On a range inside the array whose destinations are in non-decreasing
    order, the bisection returns the first position whose destination is
    not below [dst], and reads inside the range only. *)
Lemma lower_bound_loop_sorted (t : GraphTopology) dst fuel first len :
  first + len ≤ NumEdges t → len ≤ fuel →
  (∀ i j, first ≤ i → i ≤ j → j < first + len →
          OutEdgeDst t i ≤ OutEdgeDst t j) →
  ∃ rs p, lower_bound_loop t dst fuel first len = (rs, Ok p) ∧
    first ≤ p ∧ p ≤ first + len ∧
    (∀ i, first ≤ i → i < p → OutEdgeDst t i < dst) ∧
    (∀ i, p ≤ i → i < first + len → dst ≤ OutEdgeDst t i) ∧
    Forall (λ r, first ≤ r ∧ r < first + len) rs.
Proof.
  revert first len. induction fuel as [|fuel IH]; intros first len Hin Hfuel Hsorted.
  - exists [], first. simpl. repeat split; try done; try lia; intros; lia.
  - cbn [lower_bound_loop]. case_decide as Hlen.
    { exists [], first. repeat split; try done; try lia; intros; lia. }
    assert (Hhalf : len / 2 < len) by (apply Nat.div_lt; lia).
    set (half := len / 2) in *.
    rewrite read_dst_in_bounds by lia.
    unfold mbind, Reads_bind. cbn [fst snd].
    case_decide as Hcmp.
    + destruct (IH (first + half + 1) (len - half - 1))
        as (rs & p & Hrun & Hlo & Hhi & Hbelow & Habove & Hreads);
        [lia|lia|intros; apply Hsorted; lia|].
      rewrite Hrun. cbn [fst snd app]. exists ((first + half) :: rs), p.
      split; [done|]. split; [lia|]. split; [lia|]. split; [|split].
      * intros i Hi Hip.
        destruct (decide (i ≤ first + half)) as [Hle|Hgt].
        -- pose proof (Hsorted i (first + half)). lia.
        -- apply Hbelow; lia.
      * intros i Hi Hilen. apply Habove; lia.
      * constructor; [lia|]. eapply Forall_impl; [exact Hreads|]. simpl. lia.
    + destruct (IH first half)
        as (rs & p & Hrun & Hlo & Hhi & Hbelow & Habove & Hreads);
        [lia|lia|intros; apply Hsorted; lia|].
      rewrite Hrun. cbn [fst snd app]. exists ((first + half) :: rs), p.
      split; [done|]. split; [lia|]. split; [lia|]. split; [|split].
      * intros i Hi Hip. apply Hbelow; lia.
      * intros i Hi Hilen.
        destruct (decide (i < first + half)) as [Hlt|Hge].
        -- apply Habove; lia.
        -- pose proof (Hsorted (first + half) i). lia.
      * constructor; [lia|]. eapply Forall_impl; [exact Hreads|]. simpl. lia.
Qed.

(** The linear scan returns the first edge of the range with destination
    [dst], or the end of the range. *)
Lemma find_if_dst_spec (t : GraphTopology) dst first n :
  first + n ≤ NumEdges t →
  ∃ rs p, find_if_dst t dst first n = (rs, Ok p) ∧
    first ≤ p ∧ p ≤ first + n ∧
    (∀ i, first ≤ i → i < p → OutEdgeDst t i ≠ dst) ∧
    (p < first + n → OutEdgeDst t p = dst) ∧
    Forall (λ r, first ≤ r ∧ r < first + n) rs.
Proof.
  revert first. induction n as [|n IH]; intros first Hin.
  - exists [], first. simpl. repeat split; try done; try lia; intros; lia.
  - cbn [find_if_dst]. rewrite read_dst_in_bounds by lia.
    unfold mbind, Reads_bind. cbn [fst snd].
    case_decide as Hd.
    + exists [first], first. cbn [mret Reads_ret fst snd app].
      split; [done|]. split; [lia|]. split; [lia|]. split; [intros; lia|].
      split; [done|]. constructor; [lia|constructor].
    + destruct (IH (S first)) as (rs & p & Hrun & Hlo & Hhi & Hno & Hyes & Hreads);
        [lia|].
      rewrite Hrun. cbn [fst snd app]. exists (first :: rs), p.
      split; [done|]. split; [lia|]. split; [lia|]. split; [|split].
      * intros i Hi Hip. destruct (decide (i = first)) as [->|Hne]; [done|].
        apply Hno; lia.
      * intros Hp. apply Hyes. lia.
      * constructor; [lia|]. eapply Forall_impl; [exact Hreads|]. simpl. lia.
Qed.

(** Up to 64 out-edges: [FindEdge] returns an edge of [src] with
    destination [dst] when there is one and the end of the range
    otherwise, whatever the order of the edges. *)
Lemma FindEdge_small_degree (v : EdgeShuffleTopology) (src dst : Node) :
  well_formed (topo v) → src < NumNodes (topo v) →
  OutDegree (topo v) src ≤ kBinarySearchThreshold →
  ∃ p, outcome (FindEdge v src dst) = Ok p ∧
    Forall (λ r, r < NumEdges (topo v)) (reads_of (FindEdge v src dst)) ∧
    ((p ∈ OutEdges (topo v) src ∧ OutEdgeDst (topo v) p = dst) ∨
     (p = edge_end (topo v) src ∧
      ∀ e, e ∈ OutEdges (topo v) src → OutEdgeDst (topo v) e ≠ dst)).
Proof.
  intros Hwf Hsrc Hdeg.
  destruct (edge_range_bounds _ _ Hwf Hsrc) as [Hbe HeE].
  unfold FindEdge. unfold OutDegree in Hdeg. rewrite decide_True by done.
  destruct (find_if_dst_spec (topo v) dst (edge_begin (topo v) src)
              (edge_end (topo v) src - edge_begin (topo v) src))
    as (rs & p & Hrun & Hlo & Hhi & Hno & Hyes & Hreads); [lia|].
  rewrite Hrun. exists p. unfold outcome, reads_of. cbn [fst snd].
  split; [done|]. split.
  - eapply Forall_impl; [exact Hreads|]. simpl. lia.
  - destruct (decide (p < edge_end (topo v) src)) as [Hlt|Hge].
    + left. split; [|apply Hyes; lia].
      unfold OutEdges, OutDegree. apply elem_of_seq. lia.
    + right. split; [lia|]. intros e He.
      unfold OutEdges, OutDegree in He. apply elem_of_seq in He.
      apply Hno; lia.
Qed.

(** C9: For every well-formed view whose edge range of [src] is in
    non-decreasing destination order, has more than 64 edges and ends at
    [NumEdges], and every [dst] greater than all destinations of [src]:
    the binary search of [FindEdge] reads inside the range and returns its
    end, and the destination lookup that follows reads [dests_] at index
    [NumEdges], outside the array. *)
Theorem FindEdge_reads_past_last_edge (v : EdgeShuffleTopology) (src dst : Node) :
  well_formed (topo v) → src < NumNodes (topo v) →
  sorted_by_dest (topo v) →
  kBinarySearchThreshold < OutDegree (topo v) src →
  edge_end (topo v) src = NumEdges (topo v) →
  (∀ e, e ∈ OutEdges (topo v) src → OutEdgeDst (topo v) e < dst) →
  last (reads_of (FindEdge v src dst)) = Some (NumEdges (topo v)) ∧
  outcome (FindEdge v src dst) = BadRead (NumEdges (topo v)).
Proof.
  intros Hwf Hsrc Hsorted Hdeg Hend Hall.
  destruct (edge_range_bounds _ _ Hwf Hsrc) as [Hbe HeE].
  unfold FindEdge. unfold OutDegree in Hdeg.
  rewrite decide_False by lia.
  destruct (lower_bound_loop_sorted (topo v) dst
              (edge_end (topo v) src - edge_begin (topo v) src)
              (edge_begin (topo v) src)
              (edge_end (topo v) src - edge_begin (topo v) src))
    as (rs & p & Hrun & Hlo & Hhi & Hbelow & Habove & Hreads); [lia|lia| |].
  { intros i j Hi Hij Hj. specialize (Hsorted src Hsrc).
    destruct (decide (i = j)) as [->|Hne]; [done|].
    eapply (StronglySorted_lookup_lt le _ (i - edge_begin (topo v) src)
              (j - edge_begin (topo v) src)); [exact Hsorted| | |lia].
    - unfold slice. rewrite lookup_take_lt, lookup_drop by lia.
      replace (edge_begin (topo v) src + (i - edge_begin (topo v) src)) with i by lia.
      apply list_lookup_lookup_total_lt. unfold NumEdges in *. lia.
    - unfold slice. rewrite lookup_take_lt, lookup_drop by lia.
      replace (edge_begin (topo v) src + (j - edge_begin (topo v) src)) with j by lia.
      apply list_lookup_lookup_total_lt. unfold NumEdges in *. lia. }
  assert (p = NumEdges (topo v)) as ->.
  { destruct (decide (p < edge_end (topo v) src)) as [Hlt|Hge]; [|lia].
    specialize (Habove p ltac:(lia) ltac:(lia)).
    assert (OutEdgeDst (topo v) p < dst); [|lia].
    apply Hall. unfold OutEdges, OutDegree. apply elem_of_seq. lia. }
  unfold lower_bound. rewrite Hrun.
  unfold mbind, Reads_bind, reads_of, outcome. simpl.
  rewrite read_dst_out_of_bounds by lia. simpl.
  split; [|done]. by rewrite last_snoc.
Qed.

Lemma FindEdge_reads_past_last_edge_witness :
  last (reads_of (FindEdge sorted_hub_at_end 1 1)) = Some 65 ∧
  outcome (FindEdge sorted_hub_at_end 1 1) = BadRead 65.
Proof.
  apply (FindEdge_reads_past_last_edge sorted_hub_at_end 1 1).
  - repeat split; try (by vm_compute); apply (bool_decide_unpack _); by vm_compute.
  - vm_compute. lia.
  - intros n Hn. apply (bool_decide_unpack _).
    do 2 (destruct n as [|n]; [by vm_compute|]). vm_compute in Hn. lia.
  - vm_compute. lia.
  - reflexivity.
  - intros e He. unfold OutEdges in He. apply elem_of_seq in He.
    change (OutDegree (topo sorted_hub_at_end) 1) with 65 in He.
    change (edge_begin (topo sorted_hub_at_end) 1) with 0 in He.
    unfold OutEdgeDst, sorted_hub_at_end. cbn [topo dests_].
    rewrite lookup_total_replicate_2; lia.
Defined.

(** ** Sorting a sorted view again *)

Lemma NoDup_fmap_eq {A B} (f : A → B) (l : list A) x y :
  NoDup (f <$> l) → x ∈ l → y ∈ l → f x = f y → x = y.
Proof.
  induction l as [|z l IH]; simpl; intros Hnd Hx Hy Hf; [by apply elem_of_nil in Hx|].
  apply NoDup_cons in Hnd as [Hz Hnd].
  apply elem_of_cons in Hx as [->|Hx]; apply elem_of_cons in Hy as [->|Hy]; auto.
  - exfalso. apply Hz. rewrite Hf. by apply list_elem_of_fmap_2.
  - exfalso. apply Hz. rewrite <- Hf. by apply list_elem_of_fmap_2.
Qed.

Lemma StronglySorted_fmap_inv {A B} (f : A → B) (R : relation B) (l : list A) :
  StronglySorted R (f <$> l) → StronglySorted (λ x y, R (f x) (f y)) l.
Proof.
  induction l as [|x l IH]; simpl; intros Hs; [constructor|].
  apply StronglySorted_inv in Hs as [Hs Hx].
  constructor; [by apply IH|].
  apply Forall_forall. intros y Hy. rewrite Forall_forall in Hx.
  apply Hx. by apply (list_elem_of_fmap_2 f).
Qed.

Section SortAgain.
Context {K : Type} (kle : relation K) `{!Transitive kle, !AntiSymm (=) kle}.
Context (key : PropertyIndex * Node → K) (kdest : K → Node).
Context (comp : PropertyIndex * Node → PropertyIndex * Node → bool).
Hypothesis comp_key : ∀ x y, comp y x = false ↔ kle (key x) (key y).
Hypothesis kdest_key : ∀ x, kdest (key x) = x.2.

Lemma sorted_comp_keys s :
  StronglySorted (λ x y, comp y x = false) s → StronglySorted kle (key <$> s).
Proof.
  induction 1 as [|x s Hs IH Hx]; simpl; constructor; [done|].
  apply Forall_fmap. eapply Forall_impl; [exact Hx|].
  intros y Hy. simpl. by apply comp_key.
Qed.

(** A permitted result of sorting a sorted range has the same sequence of
    keys. *)
Lemma std_sort_keys s s' :
  StronglySorted kle (key <$> s) → std_sort comp s s' → key <$> s' = key <$> s.
Proof.
  intros Hs [Hp Hs']. apply (StronglySorted_unique kle).
  - by apply sorted_comp_keys.
  - done.
  - by apply fmap_Permutation.
Qed.

(** With pairwise distinct keys the result is the range itself. *)
Lemma std_sort_distinct_keys s s' :
  StronglySorted kle (key <$> s) → NoDup (key <$> s) →
  std_sort comp s s' → s' = s.
Proof.
  intros Hs Hnd Hsort. pose proof (std_sort_keys s s' Hs Hsort) as Hk.
  destruct Hsort as [Hp Hs'].
  apply (StronglySorted_unique_strong (λ x y, kle (key x) (key y))).
  - intros x1 x2 H1 H2 R12 R21. rewrite Hp in H1.
    apply (NoDup_fmap_eq key s); [done..|]. by apply (anti_symm kle).
  - apply StronglySorted_fmap_inv. by rewrite Hk.
  - by apply StronglySorted_fmap_inv.
  - done.
Qed.

Lemma edge_tuples_length t :
  shuffle_wf t → length (edge_tuples t) = NumEdges t.
Proof.
  intros [_ Hlen]. unfold edge_tuples, NumEdges in *.
  rewrite length_zip_with_l_eq; lia.
Qed.

(** Sorting the sorted edge range of one node. *)
Lemma sort_node_edges_sorted t n t' :
  shuffle_wf t → n < NumNodes t →
  StronglySorted kle
    (key <$> slice (edge_begin t n) (edge_end t n) (edge_tuples t)) →
  sort_node_edges comp t n t' →
  adj_indices_ t' = adj_indices_ t ∧
  node_prop_indices_ t' = node_prop_indices_ t ∧
  dests_ t' = dests_ t ∧
  length (edge_prop_indices_ t') = length (dests_ t') ∧
  key <$> edge_tuples t' = key <$> edge_tuples t ∧
  (∀ b' e', e' ≤ edge_begin t n ∨ edge_end t n ≤ b' →
     slice b' e' (edge_tuples t') = slice b' e' (edge_tuples t)) ∧
  slice (edge_begin t n) (edge_end t n) (edge_tuples t')
    ≡ₚ slice (edge_begin t n) (edge_end t n) (edge_tuples t) ∧
  (NoDup (key <$> slice (edge_begin t n) (edge_end t n) (edge_tuples t)) →
   t' = t).
Proof.
  intros Hwf Hn Hsorted (sorted & Hsort & ->).
  pose proof (edge_tuples_length t Hwf) as Hlen.
  destruct (edge_range_bounds t n (proj1 Hwf) Hn) as [Hbe HeE].
  set (b := edge_begin t n) in *. set (e := edge_end t n) in *.
  set (z := edge_tuples t) in *.
  assert (Hls : length sorted = e - b).
  { destruct Hsort as [Hp _]. rewrite Hp. apply length_slice; lia. }
  assert (Hz' : edge_tuples (mkGraphTopology (adj_indices_ t)
             (splice b e sorted z).*2 (splice b e sorted z).*1
             (node_prop_indices_ t)) = splice b e sorted z).
  { unfold edge_tuples. simpl. apply zip_fst_snd. }
  assert (Hkeys : key <$> splice b e sorted z = key <$> z).
  { rewrite fmap_splice, (std_sort_keys _ _ Hsorted Hsort), fmap_slice.
    by apply splice_slice. }
  assert (Hsnd : ∀ l : list (PropertyIndex * Node), l.*2 = kdest <$> (key <$> l)).
  { intros l. rewrite <- list_fmap_compose. apply list_fmap_ext.
    intros ? x _. simpl. by rewrite kdest_key. }
  assert (Hdz : z.*2 = dests_ t).
  { unfold z, edge_tuples. apply snd_zip. destruct Hwf as [_ Hl].
    unfold NumEdges in Hl. lia. }
  assert (Hez : z.*1 = edge_prop_indices_ t).
  { unfold z, edge_tuples. apply fst_zip. destruct Hwf as [_ Hl].
    unfold NumEdges in Hl. lia. }
  rewrite Hz'. simpl. repeat split.
  - by rewrite Hsnd, Hkeys, <- Hsnd.
  - by rewrite !length_fmap.
  - done.
  - intros b' e' [Hb|Ha].
    + apply slice_splice_before; lia.
    + apply slice_splice_after; lia.
  - rewrite slice_splice_same by lia. apply Hsort.
  - intros Hnd. rewrite (std_sort_distinct_keys _ _ Hsorted Hnd Hsort).
    rewrite splice_slice by done. rewrite Hdz, Hez. by destruct t.
Qed.

(** Sorting the sorted edge ranges of a list of nodes, one after the
    other. *)
Lemma sort_nodes_sorted order t t' :
  sort_nodes comp order t t' →
  shuffle_wf t → Forall (λ n, n < NumNodes t) order →
  (∀ n, n < NumNodes t →
     StronglySorted kle
       (key <$> slice (edge_begin t n) (edge_end t n) (edge_tuples t))) →
  adj_indices_ t' = adj_indices_ t ∧
  node_prop_indices_ t' = node_prop_indices_ t ∧
  dests_ t' = dests_ t ∧
  key <$> edge_tuples t' = key <$> edge_tuples t ∧
  (∀ m, m < NumNodes t →
     slice (edge_begin t m) (edge_end t m) (edge_tuples t')
       ≡ₚ slice (edge_begin t m) (edge_end t m) (edge_tuples t)) ∧
  ((∀ m, m < NumNodes t →
      NoDup (key <$> slice (edge_begin t m) (edge_end t m) (edge_tuples t))) →
   t' = t).
Proof.
  induction 1 as [t|n order t t1 t2 Hstep Hrest IH]; intros Hwf Hord Hsorted.
  - by repeat split.
  - apply Forall_cons in Hord as [Hn Hord].
    destruct (sort_node_edges_sorted t n t1 Hwf Hn (Hsorted n Hn) Hstep)
      as (Hadj & Hnpi & Hd & Hlen & Hkeys & Hout & Hin & Hsame).
    assert (HN : NumNodes t1 = NumNodes t) by (unfold NumNodes; by rewrite Hadj).
    assert (Hb : ∀ m, edge_begin t1 m = edge_begin t m)
      by (intros m; unfold edge_begin; by rewrite Hadj).
    assert (He : ∀ m, edge_end t1 m = edge_end t m)
      by (intros m; unfold edge_end; by rewrite Hadj).
    assert (Hwf1 : shuffle_wf t1).
    { destruct Hwf as [(H1 & H2 & H3) H4]. unfold shuffle_wf, well_formed, NumEdges.
      rewrite HN, Hadj, Hd. repeat split; try done. by rewrite Hlen, Hd. }
    destruct IH as (Hadj2 & Hnpi2 & Hd2 & Hkeys2 & Hperm2 & Hsame2).
    + done.
    + by rewrite HN.
    + intros m Hm. rewrite Hb, He, fmap_slice, Hkeys, <- fmap_slice.
      apply Hsorted. by rewrite <- HN.
    + split; [congruence|]. split; [congruence|]. split; [congruence|].
      split; [congruence|]. split.
      * intros m Hm. specialize (Hperm2 m). rewrite HN, Hb, He in Hperm2.
        rewrite (Hperm2 Hm).
        destruct (decide (m = n)) as [->|Hne]; [done|].
        rewrite Hout; [done|].
        destruct (decide (m < n)).
        -- left. apply edge_ranges_ordered; [apply Hwf|done..].
        -- right. apply edge_ranges_ordered; [apply Hwf|lia|done].
      * intros Hnd. specialize (Hsame (Hnd n Hn)). subst t1.
        apply Hsame2. exact Hnd.
Qed.

(** A sorted view is itself a permitted result of sorting it. *)
Lemma sort_nodes_refl order t :
  shuffle_wf t → Forall (λ n, n < NumNodes t) order →
  (∀ n, n < NumNodes t →
     StronglySorted kle
       (key <$> slice (edge_begin t n) (edge_end t n) (edge_tuples t))) →
  sort_nodes comp order t t.
Proof.
  intros Hwf Hord Hsorted.
  induction order as [|n order IH]; [constructor|].
  apply Forall_cons in Hord as [Hn Hord].
  apply (sort_nodes_cons comp n order t t t); [|by apply IH].
  exists (slice (edge_begin t n) (edge_end t n) (edge_tuples t)).
  split; [split; [done|]|].
  - pose proof (StronglySorted_fmap_inv _ _ _ (Hsorted n Hn)) as Hs.
    clear -Hs comp_key. induction Hs as [|x s Hs IH Hx]; constructor; [done|].
    eapply Forall_impl; [exact Hx|]. intros y Hy. simpl. by apply comp_key.
  - pose proof (edge_tuples_length t Hwf) as Hlen.
    destruct (edge_range_bounds t n (proj1 Hwf) Hn) as [Hbe HeE].
    rewrite splice_slice by done. unfold edge_tuples.
    destruct Hwf as [_ Hl]. unfold NumEdges in Hl.
    rewrite snd_zip, fst_zip by lia. by destruct t.
Qed.

End SortAgain.

#[local] Instance type_dest_le_trans : Transitive type_dest_le.
Proof. intros [a1 a2] [b1 b2] [c1 c2]. unfold type_dest_le. simpl. lia. Qed.
#[local] Instance type_dest_le_antisymm : AntiSymm (=) type_dest_le.
Proof.
  intros [a1 a2] [b1 b2]. unfold type_dest_le. simpl. intros H1 H2.
  f_equal; lia.
Qed.

Lemma comp_dest_key (x y : PropertyIndex * Node) :
  comp_dest y x = false ↔ x.2 ≤ y.2.
Proof. unfold comp_dest. rewrite bool_decide_eq_false. lia. Qed.

Lemma comp_type_dest_key pg (x y : PropertyIndex * Node) :
  comp_type_dest pg y x = false ↔
  type_dest_le (type_dest_key pg x) (type_dest_key pg y).
Proof.
  unfold comp_type_dest, type_dest_le, type_dest_key. simpl.
  case_decide; rewrite bool_decide_eq_false; lia.
Qed.

Lemma sorted_by_dest_keys t :
  shuffle_wf t → sorted_by_dest t →
  ∀ n, n < NumNodes t →
    StronglySorted le
      (snd <$> slice (edge_begin t n) (edge_end t n) (edge_tuples t)).
Proof.
  intros [_ Hlen] Hs n Hn. rewrite fmap_slice.
  unfold edge_tuples. rewrite snd_zip by (unfold NumEdges in Hlen; lia).
  by apply Hs.
Qed.

Lemma sort_order_nodes (order : list Node) N :
  order ≡ₚ seq 0 N → Forall (λ n, n < N) order.
Proof.
  intros Hp. apply Forall_forall. intros n Hn. rewrite Hp in Hn.
  apply elem_of_seq in Hn. lia.
Qed.

(** The sample view [parallel_edges] and what a second sort may make of
    it. *)
Lemma parallel_edges_sorted :
  shuffle_wf (topo parallel_edges) ∧
  sorted_by_dest (topo parallel_edges) ∧
  sorted_by_type_then_dest parallel_edges_pg (topo parallel_typed).
Proof.
  split; [|split].
  - repeat split; try by vm_compute.
    + apply (bool_decide_unpack _). by vm_compute.
    + apply (bool_decide_unpack _). by vm_compute.
  - intros n Hn. assert (n = 0) as -> by (vm_compute in Hn; lia).
    apply (bool_decide_unpack _). by vm_compute.
  - intros n Hn. assert (n = 0) as -> by (vm_compute in Hn; lia).
    apply (bool_decide_unpack _). by vm_compute.
Qed.

Lemma parallel_edges_sort_step comp :
  (∀ x y, x.2 = 0 → y.2 = 0 → x.1 < 17 → y.1 < 17 → comp y x = false) →
  sort_nodes comp [0] (topo parallel_edges) (topo parallel_edges_resorted).
Proof.
  intros Hcomp. econstructor; [|constructor].
  exists (zip [8; 16; 15; 14; 13; 12; 11; 10; 9; 0; 7; 6; 5; 4; 3; 2; 1]
              (replicate 17 0)).
  split; [split|].
  - apply (bool_decide_unpack _). by vm_compute.
  - apply StronglySorted_fmap_inv with (f := id) (R := λ x y, comp y x = false).
    rewrite list_fmap_id.
    assert (Hall : Forall (λ x : nat * nat, x.2 = 0 ∧ x.1 < 17)
             (zip [8; 16; 15; 14; 13; 12; 11; 10; 9; 0; 7; 6; 5; 4; 3; 2; 1]
                  (replicate 17 0))).
    { apply (bool_decide_unpack _). by vm_compute. }
    revert Hall. generalize (zip [8; 16; 15; 14; 13; 12; 11; 10; 9; 0; 7; 6; 5; 4; 3; 2; 1]
                  (replicate 17 0)).
    induction l as [|x l IH]; intros Hall; [constructor|].
    apply Forall_cons in Hall as [[Hx1 Hx2] Hall].
    constructor; [by apply IH|].
    eapply Forall_impl; [exact Hall|]. intros y [Hy1 Hy2]. by apply Hcomp.
  - reflexivity.
Qed.

Lemma parallel_edges_resort :
  SortEdgesByDestID parallel_edges parallel_edges_resorted ∧
  SortEdgesByTypeThenDest parallel_edges_pg parallel_typed parallel_typed_resorted.
Proof.
  split; (exists [0]; split; [done|]; split; [|done]).
  - apply parallel_edges_sort_step. intros x y Hx Hy _ _.
    rewrite comp_dest_key. lia.
  - apply parallel_edges_sort_step. intros [x1 x2] [y1 y2] Hx Hy Hx1 Hy1.
    simpl in *. subst. rewrite comp_type_dest_key.
    unfold type_dest_le, type_dest_key, GetTypeOfEdgeFromPropertyIndex,
      parallel_edges_pg.
    cbn [fst snd edge_entity_type_ids_].
    right. split; [|done].
    by rewrite !lookup_total_replicate_2 by done.
Qed.

(** The sample views [distinct_dests] and [typed_parallel] are sorted,
    have pairwise distinct sort keys inside every node, and sorting them
    may leave them as they are. *)
Lemma distinct_keys_sorted :
  (shuffle_wf (topo distinct_dests) ∧ sorted_by_dest (topo distinct_dests) ∧
   SortEdgesByDestID distinct_dests distinct_dests ∧
   ∀ n, n < NumNodes (topo distinct_dests) →
     NoDup (slice (edge_begin (topo distinct_dests) n)
              (edge_end (topo distinct_dests) n) (dests_ (topo distinct_dests)))) ∧
  (shuffle_wf (topo typed_parallel) ∧
   sorted_by_type_then_dest typed_parallel_pg (topo typed_parallel) ∧
   SortEdgesByTypeThenDest typed_parallel_pg typed_parallel typed_parallel ∧
   ∀ n, n < NumNodes (topo typed_parallel) →
     NoDup (type_dest_key typed_parallel_pg
              <$> slice (edge_begin (topo typed_parallel) n)
                    (edge_end (topo typed_parallel) n)
                    (edge_tuples (topo typed_parallel)))).
Proof.
  assert (Hwf1 : shuffle_wf (topo distinct_dests)).
  { repeat split; try (by vm_compute); apply (bool_decide_unpack _); by vm_compute. }
  assert (Hwf2 : shuffle_wf (topo typed_parallel)).
  { repeat split; try (by vm_compute); apply (bool_decide_unpack _); by vm_compute. }
  assert (Hs1 : sorted_by_dest (topo distinct_dests)).
  { intros n Hn. destruct n as [|[|n]]; [..|vm_compute in Hn; lia];
      apply (bool_decide_unpack _); by vm_compute. }
  assert (Hs2 : sorted_by_type_then_dest typed_parallel_pg (topo typed_parallel)).
  { intros n Hn. destruct n as [|[|n]]; [..|vm_compute in Hn; lia];
      apply (bool_decide_unpack _); by vm_compute. }
  split; (split; [done|]; split; [done|]; split).
  - exists (seq 0 (NumNodes (topo distinct_dests))).
    split; [done|]. split; [|done].
    apply (sort_nodes_refl le snd comp_dest comp_dest_key); [done| |].
    + apply Forall_forall. intros n Hn. apply elem_of_seq in Hn. lia.
    + by apply sorted_by_dest_keys.
  - intros n Hn. destruct n as [|[|n]]; [..|vm_compute in Hn; lia];
      apply (bool_decide_unpack _); by vm_compute.
  - exists (seq 0 (NumNodes (topo typed_parallel))).
    split; [done|]. split; [|done].
    apply (sort_nodes_refl type_dest_le (type_dest_key typed_parallel_pg)
             (comp_type_dest typed_parallel_pg)
             (comp_type_dest_key typed_parallel_pg)); [done| |done].
    apply Forall_forall. intros n Hn. apply elem_of_seq in Hn. lia.
  - intros n Hn. destruct n as [|[|n]]; [..|vm_compute in Hn; lia];
      apply (bool_decide_unpack _); by vm_compute.
Qed.

(** C5 (as amended): Sorting again a well-formed view that is already
    sorted by the key of the sort (destination for [SortEdgesByDestID],
    edge type then destination for [SortEdgesByTypeThenDest]) leaves
    [adj_indices_], [dests_] and [node_prop_indices_] identical; every
    node keeps its (property index, destination) tuples up to their
    order, so [edge_prop_indices_] can only change among the edges of one
    node; and when no node has two edges with the same sort key (the same
    destination for [SortEdgesByDestID], the same edge type and
    destination for [SortEdgesByTypeThenDest]) the whole topology,
    [edge_prop_indices_] included, is identical. *)
Theorem sort_again_preserves (pg : PropertyGraph) (v v' : EdgeShuffleTopology) :
  shuffle_wf (topo v) →
  (sorted_by_dest (topo v) ∧ SortEdgesByDestID v v') ∨
  (sorted_by_type_then_dest pg (topo v) ∧ SortEdgesByTypeThenDest pg v v') →
  adj_indices_ (topo v') = adj_indices_ (topo v) ∧
  dests_ (topo v') = dests_ (topo v) ∧
  node_prop_indices_ (topo v') = node_prop_indices_ (topo v) ∧
  (∀ n, n < NumNodes (topo v) →
     slice (edge_begin (topo v) n) (edge_end (topo v) n) (edge_tuples (topo v'))
       ≡ₚ slice (edge_begin (topo v) n) (edge_end (topo v) n)
            (edge_tuples (topo v))) ∧
  (sorted_by_dest (topo v) → SortEdgesByDestID v v' →
   (∀ n, n < NumNodes (topo v) →
      NoDup (slice (edge_begin (topo v) n) (edge_end (topo v) n)
               (dests_ (topo v)))) →
   topo v' = topo v) ∧
  (sorted_by_type_then_dest pg (topo v) → SortEdgesByTypeThenDest pg v v' →
   (∀ n, n < NumNodes (topo v) →
      NoDup (type_dest_key pg
               <$> slice (edge_begin (topo v) n) (edge_end (topo v) n)
                     (edge_tuples (topo v)))) →
   topo v' = topo v).
Proof.
  intros Hwf Hcase.
  assert (Hdest : sorted_by_dest (topo v) → SortEdgesByDestID v v' →
            adj_indices_ (topo v') = adj_indices_ (topo v) ∧
            dests_ (topo v') = dests_ (topo v) ∧
            node_prop_indices_ (topo v') = node_prop_indices_ (topo v) ∧
            (∀ n, n < NumNodes (topo v) →
               slice (edge_begin (topo v) n) (edge_end (topo v) n)
                     (edge_tuples (topo v'))
                 ≡ₚ slice (edge_begin (topo v) n) (edge_end (topo v) n)
                      (edge_tuples (topo v))) ∧
            ((∀ n, n < NumNodes (topo v) →
                NoDup (slice (edge_begin (topo v) n) (edge_end (topo v) n)
                         (dests_ (topo v)))) →
             topo v' = topo v)).
  { intros Hs (order & Hord & Hsort & _).
    destruct (sort_nodes_sorted le snd id comp_dest comp_dest_key
                (λ _, eq_refl) order _ _ Hsort Hwf
                (sort_order_nodes _ _ Hord) (sorted_by_dest_keys _ Hwf Hs))
      as (Hadj & Hnpi & Hd & _ & Hperm & Hsame).
    repeat split; try done. intros Hnd. apply Hsame.
    intros m Hm. rewrite fmap_slice. unfold edge_tuples.
    rewrite snd_zip by (destruct Hwf as [_ Hl]; unfold NumEdges in Hl; lia).
    by apply Hnd. }
  assert (Htype : sorted_by_type_then_dest pg (topo v) →
            SortEdgesByTypeThenDest pg v v' →
            adj_indices_ (topo v') = adj_indices_ (topo v) ∧
            dests_ (topo v') = dests_ (topo v) ∧
            node_prop_indices_ (topo v') = node_prop_indices_ (topo v) ∧
            (∀ n, n < NumNodes (topo v) →
               slice (edge_begin (topo v) n) (edge_end (topo v) n)
                     (edge_tuples (topo v'))
                 ≡ₚ slice (edge_begin (topo v) n) (edge_end (topo v) n)
                      (edge_tuples (topo v))) ∧
            ((∀ n, n < NumNodes (topo v) →
                NoDup (type_dest_key pg
                         <$> slice (edge_begin (topo v) n) (edge_end (topo v) n)
                               (edge_tuples (topo v)))) →
             topo v' = topo v)).
  { intros Hs (order & Hord & Hsort & _).
    destruct (sort_nodes_sorted type_dest_le (type_dest_key pg) snd
                (comp_type_dest pg) (comp_type_dest_key pg)
                (λ _, eq_refl) order _ _ Hsort Hwf
                (sort_order_nodes _ _ Hord) Hs)
      as (Hadj & Hnpi & Hd & _ & Hperm & Hsame).
    by repeat split. }
  assert (Hcommon : adj_indices_ (topo v') = adj_indices_ (topo v) ∧
            dests_ (topo v') = dests_ (topo v) ∧
            node_prop_indices_ (topo v') = node_prop_indices_ (topo v) ∧
            (∀ n, n < NumNodes (topo v) →
               slice (edge_begin (topo v) n) (edge_end (topo v) n)
                     (edge_tuples (topo v'))
                 ≡ₚ slice (edge_begin (topo v) n) (edge_end (topo v) n)
                      (edge_tuples (topo v)))).
  { destruct Hcase as [[Hs Hsort]|[Hs Hsort]].
    - destruct (Hdest Hs Hsort) as (? & ? & ? & ? & _). by split_and!.
    - destruct (Htype Hs Hsort) as (? & ? & ? & ? & _). by split_and!. }
  destruct Hcommon as (Hadj & Hd & Hnpi & Hperm).
  split; [done|]. split; [done|]. split; [done|]. split; [done|]. split.
  - intros Hs Hsort. by apply (Hdest Hs Hsort).
  - intros Hs Hsort. by apply (Htype Hs Hsort).
Qed.

Lemma sort_again_preserves_witness :
  SortEdgesByTypeThenDest typed_parallel_pg typed_parallel typed_parallel ∧
  (∀ v', SortEdgesByTypeThenDest typed_parallel_pg typed_parallel v' →
         topo v' = topo typed_parallel) ∧
  SortEdgesByDestID distinct_dests distinct_dests ∧
  (∀ v', SortEdgesByDestID distinct_dests v' →
         topo v' = topo distinct_dests).
Proof.
  destruct distinct_keys_sorted
    as ((Hwf1 & Hs1 & Hsort1 & Hnd1) & (Hwf2 & Hs2 & Hsort2 & Hnd2)).
  split; [done|]. split; [|split; [done|]].
  - intros v' Hsort.
    destruct (sort_again_preserves typed_parallel_pg typed_parallel v' Hwf2
                (or_intror (conj Hs2 Hsort)))
      as (_ & _ & _ & _ & _ & Hid). by apply Hid.
  - intros v' Hsort.
    destruct (sort_again_preserves typed_parallel_pg distinct_dests v' Hwf1
                (or_introl (conj Hs1 Hsort)))
      as (_ & _ & _ & _ & Hid & _). by apply Hid.
Defined.

(** C5 (as stated) fails: [parallel_edges] is well formed and sorted by
    destination (and, with all edges of one type, by type then
    destination), and both sorts may leave [parallel_edges_resorted]
    behind, whose [edge_prop_indices_] differ. *)
Lemma sort_again_permutes_parallel_edges :
  shuffle_wf (topo parallel_edges) ∧
  sorted_by_dest (topo parallel_edges) ∧
  SortEdgesByDestID parallel_edges parallel_edges_resorted ∧
  sorted_by_type_then_dest parallel_edges_pg (topo parallel_typed) ∧
  SortEdgesByTypeThenDest parallel_edges_pg parallel_typed parallel_typed_resorted ∧
  edge_prop_indices_ (topo parallel_edges_resorted)
    ≠ edge_prop_indices_ (topo parallel_edges) ∧
  edge_prop_indices_ (topo parallel_typed_resorted)
    ≠ edge_prop_indices_ (topo parallel_typed).
Proof.
  destruct parallel_edges_sorted as (H1 & H2 & H3).
  destruct parallel_edges_resort as (H4 & H5).
  split_and!; try done; intros H; by vm_compute in H.
Qed.

(** ** The per-edge-type adjacency index *)

Lemma length_fill_row adj offset lo hi e :
  length (fill_row adj offset lo hi e) = length adj.
Proof.
  unfold fill_row. generalize (hi - lo) as k. intros k.
  revert lo adj. induction k as [|k IH]; intros lo adj; simpl; [done|].
  by rewrite IH, length_insert.
Qed.

Lemma lookup_fill_seq (adj : list nat) offset lo k e j :
  j < length adj →
  foldl (λ a index, <[offset + index := e]> a) adj (seq lo k) !! j =
    if decide (offset + lo ≤ j ∧ j < offset + lo + k) then Some e
    else adj !! j.
Proof.
  revert lo adj. induction k as [|k IH]; intros lo adj Hj; simpl.
  - case_decide; [lia|done].
  - rewrite IH by (by rewrite length_insert).
    destruct (decide (j = offset + lo)) as [->|Hne].
    + rewrite list_lookup_insert_eq by done. repeat case_decide; try done; lia.
    + rewrite list_lookup_insert_ne by done. repeat case_decide; try done; lia.
Qed.

Lemma lookup_fill_row adj offset lo hi e j :
  j < length adj →
  fill_row adj offset lo hi e !! j =
    if decide (offset + lo ≤ j ∧ j < offset + hi) then Some e else adj !! j.
Proof.
  unfold fill_row. intros Hj. rewrite lookup_fill_seq by done.
  repeat case_decide; try done; lia.
Qed.

Lemma fill_row_step adj offset lo hi e :
  lo < hi →
  fill_row adj offset lo hi e
    = fill_row (<[offset + lo := e]> adj) offset (S lo) hi e.
Proof.
  intros Hlt. unfold fill_row.
  replace (hi - lo) with (S (hi - S lo)) by lia. done.
Qed.

(** Positions and values of a strictly increasing list agree in order. *)
Lemma sorted_lt_lookup_le (l : list nat) i j a b :
  StronglySorted lt l → l !! i = Some a → l !! j = Some b →
  (a ≤ b ↔ i ≤ j).
Proof.
  intros Hs Ha Hb. split; intros H.
  - destruct (decide (i ≤ j)) as [|Hgt]; [done|].
    assert (b < a) by (eapply (StronglySorted_lookup_lt lt); [done|exact Hb|exact Ha|lia]).
    lia.
  - destruct (decide (i = j)) as [->|Hne]; [naive_solver lia|].
    assert (a < b) by (eapply (StronglySorted_lookup_lt lt); [done|exact Ha|exact Hb|lia]).
    lia.
Qed.

Lemma filter_all {A} (P : A → Prop) `{!∀ x, Decision (P x)} (l : list A) :
  Forall P l → filter P l = l.
Proof.
  induction 1 as [|x l Hx Hl IH]; [done|].
  rewrite filter_cons. case_decide; [by rewrite IH|done].
Qed.

Lemma filter_none {A} (P : A → Prop) `{!∀ x, Decision (P x)} (l : list A) :
  Forall (λ x, ¬ P x) l → filter P l = [].
Proof.
  induction 1 as [|x l Hx Hl IH]; [done|].
  rewrite filter_cons. case_decide; [done|exact IH].
Qed.

(** In a list sorted by [f], the elements with [f] at most [c] are a
    prefix: position [p] is among them exactly when its element is. *)
Lemma count_le_prefix (f : nat → nat) (l : list nat) c p x :
  StronglySorted le (f <$> l) → l !! p = Some x →
  (p < length (filter (λ y, f y ≤ c) l) ↔ f x ≤ c).
Proof.
  revert p. induction l as [|z l IH]; intros p Hs Hp; [done|].
  simpl in Hs. apply StronglySorted_inv in Hs as [Hs Hz].
  rewrite filter_cons. case_decide as Hzc.
  - destruct p as [|p]; simpl in *.
    + injection Hp as <-. split; [done|lia].
    + rewrite <- (IH p Hs Hp). lia.
  - rewrite filter_none.
    + simpl. split; [lia|]. intros Hx. exfalso. apply Hzc.
      destruct p as [|p]; simpl in Hp; [by injection Hp as <-|].
      rewrite Forall_fmap, Forall_forall in Hz.
      specialize (Hz x (list_elem_of_lookup_2 _ _ _ Hp)). simpl in Hz. lia.
    + rewrite Forall_fmap, Forall_forall in Hz. apply Forall_forall.
      intros y Hy. specialize (Hz y Hy). simpl in Hz. lia.
Qed.

(** The loop budget of the inner loop is never what stops it: [GetType]
    runs out of types first. *)
Lemma skip_to_type_budget (cm : CondensedTypeIDMap) ty e offset fuel fuel' index adj :
  num_unique_types cm ≤ index + fuel → num_unique_types cm ≤ index + fuel' →
  skip_to_type cm ty e offset fuel (index, adj)
    = skip_to_type cm ty e offset fuel' (index, adj).
Proof.
  revert fuel' index adj.
  induction fuel as [|fuel IH]; intros fuel' index adj Hf Hf'.
  - assert (Hnone : GetType cm index = None).
    { apply lookup_ge_None. unfold num_unique_types in Hf. lia. }
    destruct fuel'; simpl; by rewrite Hnone.
  - destruct fuel' as [|fuel'].
    + assert (Hnone : GetType cm index = None).
      { apply lookup_ge_None. unfold num_unique_types in Hf'. lia. }
      simpl. by rewrite Hnone.
    + simpl. destruct (GetType cm index) as [ty'|]; [|done].
      case_decide; [|done]. apply IH; lia.
Qed.

Section PerTypeIndex.
Context (pg : PropertyGraph) (cm : CondensedTypeIDMap) (t : GraphTopology).
Hypothesis cm_sorted : StronglySorted lt (index_to_type_map_ cm).

(** The inner loop stops at the index of the edge's type and has written
    the edge into every slot it skipped. *)
Lemma skip_to_type_spec ty e offset fuel index adj k :
  index_to_type_map_ cm !! k = Some ty → index ≤ k → k - index ≤ fuel →
  skip_to_type cm ty e offset fuel (index, adj)
    = Some (k, fill_row adj offset index k e).
Proof.
  intros Hk. revert index adj.
  induction fuel as [|fuel IH]; intros index adj Hle Hfuel.
  - assert (index = k) as -> by lia. simpl. unfold GetType.
    rewrite Hk. case_decide; [done|].
    unfold fill_row. by rewrite Nat.sub_diag.
  - simpl. unfold GetType.
    assert (Hik : index < length (index_to_type_map_ cm)).
    { apply lookup_lt_Some in Hk. lia. }
    destruct (lookup_lt_is_Some_2 _ _ Hik) as [ty' Hty']. rewrite Hty'.
    case_decide as Hne.
    + assert (index ≠ k) by (intros ->; congruence).
      rewrite IH by lia. f_equal. f_equal.
      symmetry. apply fill_row_step. lia.
    + subst ty'.
      assert (index = k) as ->.
      { pose proof (sorted_lt_lookup_le _ _ _ _ _ cm_sorted Hty' Hk).
        pose proof (sorted_lt_lookup_le _ _ _ _ _ cm_sorted Hk Hty'). lia. }
      unfold fill_row. by rewrite Nat.sub_diag.
Qed.

(** The walk over the edges [x .. e_end) of a node whose range starts at
    [b]: on entry [index] is at a type that separates the edges walked
    from those to come, and every slot below [index] holds its boundary;
    the same is true on exit for the whole range. *)
Lemma node_walk_spec (b e_end offset : nat) k x index adj ty0 :
  (∀ y y', b ≤ y → y ≤ y' → y' < e_end → edge_type pg t y ≤ edge_type pg t y') →
  (∀ y, b ≤ y → y < e_end →
     ∃ j, index_to_type_map_ cm !! j = Some (edge_type pg t y)) →
  b ≤ x → x + k = e_end →
  offset + num_unique_types cm ≤ length adj →
  index_to_type_map_ cm !! index = Some ty0 →
  (∀ y, b ≤ y → y < x → edge_type pg t y ≤ ty0) →
  (∀ y, x ≤ y → y < e_end → ty0 ≤ edge_type pg t y) →
  (∀ i ty, i < index → index_to_type_map_ cm !! i = Some ty →
     adj !! (offset + i)
       = Some (b + length (filter (λ y, edge_type pg t y ≤ ty) (seq b (x - b))))) →
  ∃ index' adj' ty',
    foldl (λ acc e, st ← acc;
             skip_to_type cm (edge_type pg t e) e offset (num_unique_types cm) st)
          (Some (index, adj)) (seq x k) = Some (index', adj') ∧
    length adj' = length adj ∧
    index_to_type_map_ cm !! index' = Some ty' ∧
    (∀ y, b ≤ y → y < e_end → edge_type pg t y ≤ ty') ∧
    (∀ i ty, i < index' → index_to_type_map_ cm !! i = Some ty →
       adj' !! (offset + i)
         = Some (b + length (filter (λ y, edge_type pg t y ≤ ty)
                               (seq b (e_end - b))))) ∧
    (∀ j, ¬ (offset ≤ j ∧ j < offset + num_unique_types cm) →
       adj' !! j = adj !! j).
Proof.
  intros Hmono Hcov. revert x index adj ty0.
  induction k as [|k IH]; intros x index adj ty0 Hbx Hxk Hlen Hidx Hdone Hrest Hslots.
  - simpl. exists index, adj, ty0. replace (e_end - b) with (x - b) by lia.
    repeat split; try done. intros y ? ?. apply Hdone; lia.
  - simpl.
    destruct (Hcov x) as [j Hj]; [lia..|].
    assert (Hij : index ≤ j).
    { apply (sorted_lt_lookup_le _ _ _ _ _ cm_sorted Hidx Hj). apply Hrest; lia. }
    assert (HjT : j < num_unique_types cm) by (by eapply lookup_lt_Some).
    rewrite (skip_to_type_spec _ _ _ _ _ _ j Hj Hij) by lia.
    destruct (IH (S x) j (fill_row adj offset index j x) (edge_type pg t x))
      as (index' & adj' & ty' & Hrun & Hlen' & Hidx' & Hall & Hslots' & Hframe).
    + lia.
    + lia.
    + by rewrite length_fill_row.
    + done.
    + intros y ? ?. apply Hmono; lia.
    + intros y ? ?. apply Hmono; lia.
    + intros i ty Hi Hty.
      rewrite lookup_fill_row by lia.
      replace (S x - b) with (S (x - b)) by lia.
      rewrite seq_S, filter_app. replace (b + (x - b)) with x by lia.
      assert (Hx : filter (λ y, edge_type pg t y ≤ ty) [x] = []).
      { apply filter_none. constructor; [|done].
        assert (ty < edge_type pg t x); [|lia].
        eapply (StronglySorted_lookup_lt lt); [exact cm_sorted|exact Hty|exact Hj|done]. }
      rewrite Hx, app_nil_r.
      case_decide as Hrange.
      * f_equal. rewrite filter_all; [rewrite length_seq; lia|].
        apply Forall_forall. intros y Hy. apply elem_of_seq in Hy.
        assert (ty0 ≤ ty).
        { apply (sorted_lt_lookup_le _ _ _ _ _ cm_sorted Hidx Hty). lia. }
        specialize (Hdone y). lia.
      * apply Hslots; [lia|done].
    + exists index', adj', ty'. rewrite length_fill_row in Hlen'.
      repeat split; try done.
      intros i Hi. rewrite Hframe by done.
      destruct (decide (i < length adj)) as [Hlt|Hge].
      * rewrite lookup_fill_row by done. case_decide; [lia|done].
      * rewrite !(proj2 (lookup_ge_None _ _)); [done|lia|].
        rewrite length_fill_row. lia.
Qed.

Hypothesis t_wf : well_formed t.
Hypothesis t_sorted : sorted_by_type pg t.
Hypothesis cm_covers :
  ∀ e, e < NumEdges t → edge_type pg t e ∈ index_to_type_map_ cm.
Hypothesis cm_nonempty : 0 < num_unique_types cm.

Lemma edge_types_monotone n y y' :
  n < NumNodes t → edge_begin t n ≤ y → y ≤ y' → y' < edge_end t n →
  edge_type pg t y ≤ edge_type pg t y'.
Proof.
  intros Hn Hy Hyy Hy'.
  destruct (decide (y = y')) as [->|Hne]; [done|].
  pose proof (t_sorted n Hn) as Hs. unfold OutEdges, OutDegree in Hs.
  eapply (StronglySorted_lookup_lt le _ (y - edge_begin t n) (y' - edge_begin t n));
    [exact Hs| | |lia].
  - rewrite list_lookup_fmap, lookup_seq_lt by lia. simpl. f_equal. f_equal. lia.
  - rewrite list_lookup_fmap, lookup_seq_lt by lia. simpl. f_equal. f_equal. lia.
Qed.

Lemma row_in_table n :
  n < NumNodes t →
  n * num_unique_types cm + num_unique_types cm
    ≤ NumNodes t * num_unique_types cm.
Proof.
  intros Hn. replace (n * num_unique_types cm + num_unique_types cm)
    with (S n * num_unique_types cm) by lia.
  apply Nat.mul_le_mono_r. lia.
Qed.

(** The row of one node: slot [i] holds the position just after the last
    edge of the node whose type is at most the [i]-th type; no other row
    is touched. *)
Lemma index_node_spec n adj :
  n < NumNodes t →
  length adj = NumNodes t * num_unique_types cm →
  ∃ adj', index_node pg cm t adj n = Some adj' ∧
    length adj' = length adj ∧
    (∀ i ty, index_to_type_map_ cm !! i = Some ty →
       adj' !! (n * num_unique_types cm + i)
         = Some (edge_begin t n +
                 length (filter (λ y, edge_type pg t y ≤ ty) (OutEdges t n)))) ∧
    (∀ j, ¬ (n * num_unique_types cm ≤ j ∧
             j < n * num_unique_types cm + num_unique_types cm) →
       adj' !! j = adj !! j).
Proof.
  intros Hn Hlen.
  destruct (edge_range_bounds t n t_wf Hn) as [Hbe HeE].
  pose proof (row_in_table n Hn) as Hrow.
  destruct (lookup_lt_is_Some_2 (index_to_type_map_ cm) 0 cm_nonempty) as [ty0 Hty0].
  destruct (node_walk_spec (edge_begin t n) (edge_end t n)
              (n * num_unique_types cm) (OutDegree t n) (edge_begin t n) 0 adj ty0)
    as (index' & adj' & ty' & Hrun & Hlen' & Hidx' & Hall & Hslots & Hframe).
  - intros y y' ? ? ?. by apply (edge_types_monotone n).
  - intros y ? ?. apply list_elem_of_lookup, cm_covers. lia.
  - done.
  - unfold OutDegree. lia.
  - lia.
  - done.
  - intros y ? ?. lia.
  - intros y ? ?. destruct (list_elem_of_lookup_1 _ _ (cm_covers y ltac:(lia))) as [j Hj].
    apply (sorted_lt_lookup_le _ _ _ _ _ cm_sorted Hty0 Hj). lia.
  - intros i ty ?. lia.
  - unfold index_node, OutEdges. rewrite Hrun. simpl.
    eexists. split; [done|].
    assert (Hi' : index' < num_unique_types cm) by (by eapply lookup_lt_Some).
    split; [by rewrite length_fill_row|]. split.
    + intros i ty Hty.
      assert (Hi : i < num_unique_types cm) by (by eapply lookup_lt_Some).
      rewrite lookup_fill_row by lia.
      case_decide as Hrange.
      * f_equal. unfold OutDegree.
        rewrite filter_all; [rewrite length_seq; lia|].
        apply Forall_forall. intros y Hy. apply elem_of_seq in Hy.
        assert (ty' ≤ ty).
        { apply (sorted_lt_lookup_le _ _ _ _ _ cm_sorted Hidx' Hty). lia. }
        specialize (Hall y). lia.
      * rewrite (Hslots i ty); [done|lia|done].
    + intros j Hj. rewrite <- Hframe by done.
      destruct (decide (j < length adj')) as [Hlt|Hge].
      * rewrite lookup_fill_row by done. case_decide; [lia|done].
      * rewrite !(proj2 (lookup_ge_None _ _)); [done|lia|].
        rewrite length_fill_row. lia.
Qed.

(** The [do_all]: after the nodes of [order] have run, their rows are in
    place and the other rows are as before. *)
Lemma index_nodes_spec order adj :
  Forall (λ n, n < NumNodes t) order →
  length adj = NumNodes t * num_unique_types cm →
  ∃ tbl, foldl (λ acc N, adj ← acc; index_node pg cm t adj N) (Some adj) order
           = Some tbl ∧
    length tbl = length adj ∧
    ∀ n i ty, n < NumNodes t → index_to_type_map_ cm !! i = Some ty →
      tbl !! (n * num_unique_types cm + i) =
        if decide (n ∈ order)
        then Some (edge_begin t n +
                   length (filter (λ y, edge_type pg t y ≤ ty) (OutEdges t n)))
        else adj !! (n * num_unique_types cm + i).
Proof.
  intros Hord. revert adj. induction Hord as [|m order Hm Hord IH]; intros adj Hlen.
  - exists adj. split; [done|]. split; [done|]. intros n i ty _ _.
    case_decide as Hin; [by apply elem_of_nil in Hin|done].
  - simpl. destruct (index_node_spec m adj Hm Hlen)
      as (adj1 & -> & Hlen1 & Hrow & Hframe).
    destruct (IH adj1) as (tbl & Hrun & Hlen2 & Htbl); [lia|].
    exists tbl. split; [done|]. split; [lia|].
    intros n i ty Hn Hty. rewrite (Htbl n i ty Hn Hty).
    assert (Hi : i < num_unique_types cm) by (by eapply lookup_lt_Some).
    destruct (decide (n = m)) as [->|Hne].
    + rewrite (decide_True (P := m ∈ m :: order)) by left.
      case_decide; [done|]. by apply Hrow.
    + case_decide as Hin.
      * rewrite decide_True; [done|by right].
      * rewrite decide_False by (rewrite elem_of_cons; naive_solver).
        apply Hframe.
        pose proof (row_in_table n Hn). pose proof (row_in_table m Hm).
        assert (n < m ∨ m < n) as [Hlt|Hlt] by lia.
        -- assert (S n * num_unique_types cm ≤ m * num_unique_types cm)
             by (apply Nat.mul_le_mono_r; lia). lia.
        -- assert (S m * num_unique_types cm ≤ n * num_unique_types cm)
             by (apply Nat.mul_le_mono_r; lia). lia.
Qed.

(** What the boundaries say about an edge of the node: it lies below the
    boundary of a type exactly when its own type is at most that type. *)
Lemma boundary_spec n ty e :
  n < NumNodes t → e ∈ OutEdges t n →
  (e < edge_begin t n +
       length (filter (λ y, edge_type pg t y ≤ ty) (OutEdges t n))
   ↔ edge_type pg t e ≤ ty).
Proof.
  intros Hn He. pose proof He as He'. unfold OutEdges in He'.
  apply elem_of_seq in He'.
  rewrite <- (count_le_prefix (edge_type pg t) (OutEdges t n) ty
                (e - edge_begin t n) e (t_sorted n Hn)).
  - lia.
  - unfold OutEdges. rewrite lookup_seq_lt by lia. f_equal. lia.
Qed.

Lemma boundary_le_end n ty :
  n < NumNodes t →
  edge_begin t n + length (filter (λ y, edge_type pg t y ≤ ty) (OutEdges t n))
    ≤ edge_end t n.
Proof.
  intros Hn. destruct (edge_range_bounds t n t_wf Hn) as [Hbe _].
  pose proof (length_filter (λ y, edge_type pg t y ≤ ty) (OutEdges t n)) as Hf.
  unfold OutEdges in Hf at 2. rewrite length_seq in Hf. unfold OutDegree in Hf.
  lia.
Qed.

(** A table holding the boundaries of node [n] gives, through
    [OutEdgesOfType], exactly the edges of each type. *)
Lemma ranges_of_boundaries tbl n i e :
  n < NumNodes t → i < num_unique_types cm →
  (∀ j ty, index_to_type_map_ cm !! j = Some ty →
     tbl !! (n * num_unique_types cm + j)
       = Some (edge_begin t n +
               length (filter (λ y, edge_type pg t y ≤ ty) (OutEdges t n)))) →
  ((OutEdgesOfType t (num_unique_types cm) tbl n i).1 ≤ e ∧
   e < (OutEdgesOfType t (num_unique_types cm) tbl n i).2)
  ↔ (e ∈ OutEdges t n ∧ GetType cm i = Some (edge_type pg t e)).
Proof.
  intros Hn Hi Htbl. unfold GetType.
  destruct (edge_range_bounds t n t_wf Hn) as [Hbe HeE].
  destruct (lookup_lt_is_Some_2 _ _ Hi) as [ty Hty].
  assert (Hhi : (OutEdgesOfType t (num_unique_types cm) tbl n i).2
            = edge_begin t n +
              length (filter (λ y, edge_type pg t y ≤ ty) (OutEdges t n))).
  { simpl. apply list_lookup_total_correct. by apply Htbl. }
  rewrite Hhi. pose proof (boundary_le_end n ty Hn) as Hend.
  assert (Hmem : ∀ x, x ∈ OutEdges t n ↔ edge_begin t n ≤ x ∧ x < edge_end t n).
  { intros x. unfold OutEdges, OutDegree. rewrite elem_of_seq. lia. }
  destruct i as [|i'].
  - (* the first type: the range starts at the base of the node *)
    simpl. split.
    + intros [Hlo Hlt]. assert (He : e ∈ OutEdges t n) by (apply Hmem; lia).
      split; [done|]. apply (boundary_spec n ty e Hn He) in Hlt.
      assert (HeN : e < NumEdges t) by (apply Hmem in He; lia).
      destruct (list_elem_of_lookup_1 _ _ (cm_covers e HeN)) as [j Hj].
      assert (j ≤ 0) by (by apply (sorted_lt_lookup_le _ _ _ _ _ cm_sorted Hj Hty)).
      assert (j = 0) as -> by lia. done.
    + intros [He Hty']. split; [apply Hmem in He; lia|].
      apply (boundary_spec n ty e Hn He). rewrite Hty in Hty'.
      injection Hty' as <-. done.
  - (* a later type: the range starts at the previous boundary *)
    assert (Hi' : i' < num_unique_types cm) by lia.
    destruct (lookup_lt_is_Some_2 _ _ Hi') as [ty1 Hty1].
    assert (Hlo : (OutEdgesOfType t (num_unique_types cm) tbl n (S i')).1
              = edge_begin t n +
                length (filter (λ y, edge_type pg t y ≤ ty1) (OutEdges t n))).
    { simpl. apply list_lookup_total_correct. by apply Htbl. }
    rewrite Hlo.
    assert (Hlt1 : ty1 < ty)
      by (eapply (StronglySorted_lookup_lt lt); [exact cm_sorted|exact Hty1|exact Hty|lia]).
    split.
    + intros [Hge Hlt]. assert (He : e ∈ OutEdges t n) by (apply Hmem; lia).
      split; [done|]. apply (boundary_spec n ty e Hn He) in Hlt.
      assert (Hnle : ¬ edge_type pg t e ≤ ty1).
      { intros Hc. apply (boundary_spec n ty1 e Hn He) in Hc. lia. }
      assert (HeN : e < NumEdges t) by (apply Hmem in He; lia).
      destruct (list_elem_of_lookup_1 _ _ (cm_covers e HeN)) as [j Hj].
      assert (j ≤ S i') by (by apply (sorted_lt_lookup_le _ _ _ _ _ cm_sorted Hj Hty)).
      assert (¬ j ≤ i').
      { intros Hc. apply Hnle.
        by apply (sorted_lt_lookup_le _ _ _ _ _ cm_sorted Hj Hty1). }
      assert (j = S i') as -> by lia. done.
    + intros [He Hty']. rewrite Hty in Hty'. injection Hty' as Heq.
      split.
      * destruct (decide (edge_begin t n +
           length (filter (λ y, edge_type pg t y ≤ ty1) (OutEdges t n)) ≤ e))
          as [|Hgt]; [done|].
        assert (Hc : edge_type pg t e ≤ ty1)
          by (apply (boundary_spec n ty1 e Hn He); lia).
        lia.
      * apply (boundary_spec n ty e Hn He). lia.
Qed.

End PerTypeIndex.



(** ** Transposition *)

Lemma length_partial_sum_from acc l :
  length (partial_sum_from acc l) = length l.
Proof. revert acc. induction l as [|x l IH]; intros acc; simpl; [done|by rewrite IH]. Qed.

Lemma length_partial_sum l : length (partial_sum l) = length l.
Proof. apply length_partial_sum_from. Qed.

Lemma lookup_partial_sum_from acc l i :
  i < length l →
  partial_sum_from acc l !! i = Some (acc + sum_list (take (S i) l)).
Proof.
  revert acc i. induction l as [|x l IH]; intros acc i Hi; simpl in *; [lia|].
  destruct i as [|i]; simpl.
  - f_equal. destruct l; simpl; lia.
  - rewrite IH by lia. f_equal. simpl. lia.
Qed.

(** Splitting a list by a key with values below [N] loses nothing. *)
Lemma filter_disjoint_app {A} (P Q : A → Prop)
    `{!∀ x, Decision (P x), !∀ x, Decision (Q x)} (l : list A) :
  (∀ x, P x → Q x → False) →
  filter P l ++ filter Q l ≡ₚ filter (λ x, P x ∨ Q x) l.
Proof.
  intros Hdis. induction l as [|x l IH]; [done|].
  rewrite !filter_cons.
  destruct (decide (P x)) as [HP|HP]; destruct (decide (Q x)) as [HQ|HQ].
  - destruct (Hdis x HP HQ).
  - rewrite decide_True by auto. simpl. by rewrite IH.
  - rewrite decide_True by auto. rewrite <- Permutation_middle. by rewrite IH.
  - rewrite decide_False by tauto. done.
Qed.

Lemma partition_by_key {A} (key : A → nat) (l : list A) N :
  concat ((λ d, filter (λ x, key x = d) l) <$> seq 0 N)
    ≡ₚ filter (λ x, key x < N) l.
Proof.
  induction N as [|N IH].
  - simpl. rewrite filter_none; [done|]. apply Forall_forall. intros; lia.
  - rewrite seq_S, fmap_app, concat_app. simpl. rewrite app_nil_r, IH.
    rewrite filter_disjoint_app by (intros; lia).
    erewrite list_filter_iff; [done|]. intros x. simpl. lia.
Qed.

Lemma partition_by_key_all {A} (key : A → nat) (l : list A) N :
  Forall (λ x, key x < N) l →
  concat ((λ d, filter (λ x, key x = d) l) <$> seq 0 N) ≡ₚ l.
Proof. intros H. rewrite partition_by_key. by rewrite filter_all. Qed.

Lemma length_concat_fmap {A} (f : nat → list A) (ds : list nat) :
  length (concat (f <$> ds)) = sum_list ((λ d, length (f d)) <$> ds).
Proof.
  induction ds as [|d ds IH]; [done|].
  rewrite !fmap_cons. simpl. by rewrite length_app, IH.
Qed.

Section InDegrees.
Context (t : GraphTopology).
Hypothesis t_wf : well_formed t.

Lemma in_offset_S d : in_offset t (S d) = in_offset t d + in_degree t d.
Proof.
  unfold in_offset. rewrite seq_S, fmap_app, sum_list_with_app. simpl. lia.
Qed.

Lemma in_offset_mono d d' : d ≤ d' → in_offset t d ≤ in_offset t d'.
Proof.
  induction 1 as [|d' Hle IH]; [done|]. rewrite in_offset_S. lia.
Qed.

(** All edges arrive somewhere: the in-degrees add up to [NumEdges]. *)
Lemma in_offset_all : in_offset t (NumNodes t) = NumEdges t.
Proof.
  unfold in_offset, in_degree.
  rewrite <- (length_concat_fmap
                (λ d, filter (λ e, OutEdgeDst t e = d) (seq 0 (NumEdges t)))).
  rewrite partition_by_key_all; [by rewrite length_seq|].
  destruct t_wf as (_ & _ & Hd). apply Forall_forall. intros e He.
  apply elem_of_seq in He. unfold OutEdgeDst, NumEdges in *.
  rewrite Forall_forall in Hd. apply Hd.
  apply list_elem_of_lookup_total_2. lia.
Qed.

(** The counting loop counts, whatever the order of the increments. *)
Lemma count_in_edges_spec (edges : list Edge) :
  edges ≡ₚ seq 0 (NumEdges t) →
  count_in_edges t edges = in_degree t <$> seq 0 (NumNodes t).
Proof.
  intros Hperm. unfold count_in_edges.
  assert (Hgen : ∀ es c,
    Forall (λ e, OutEdgeDst t e < length c) es →
    length (foldl (λ out_indices e,
              <[OutEdgeDst t e := S (out_indices !!! OutEdgeDst t e)]> out_indices)
              c es) = length c ∧
    ∀ d, d < length c →
      foldl (λ out_indices e,
              <[OutEdgeDst t e := S (out_indices !!! OutEdgeDst t e)]> out_indices)
            c es !!! d
      = c !!! d + length (filter (λ e, OutEdgeDst t e = d) es)).
  { induction es as [|e es IH]; intros c Hes; simpl.
    - split; [done|]. intros; lia.
    - apply Forall_cons in Hes as [He Hes].
      destruct (IH (<[OutEdgeDst t e := S (c !!! OutEdgeDst t e)]> c)) as [Hl Hv].
      { by rewrite length_insert. }
      rewrite length_insert in Hl. split; [done|].
      intros d Hd. rewrite Hv by (by rewrite length_insert).
      rewrite filter_cons. destruct (decide (OutEdgeDst t e = d)) as [->|Hne].
      + rewrite list_lookup_total_insert_eq by done. simpl. lia.
      + rewrite list_lookup_total_insert_ne by done. lia. }
  destruct (Hgen edges (replicate (NumNodes t) 0)) as [Hl Hv].
  { rewrite length_replicate. apply Forall_forall. intros e He.
    rewrite Hperm in He. apply elem_of_seq in He.
    destruct t_wf as (_ & _ & Hd). rewrite Forall_forall in Hd. apply Hd.
    unfold OutEdgeDst. apply list_elem_of_lookup_total_2. unfold NumEdges in He. lia. }
  rewrite length_replicate in Hl, Hv.
  apply list_eq_same_length with (NumNodes t);
    [by rewrite length_fmap, length_seq|done|].
  intros d x y Hd Hx Hy.
  apply list_lookup_total_correct in Hx. rewrite Hv in Hx by done.
  rewrite lookup_total_replicate_2 in Hx by done.
  rewrite list_lookup_fmap, lookup_seq_lt in Hy by done. simpl in Hy.
  injection Hy as <-. rewrite <- Hx. unfold in_degree. simpl.
  by rewrite Hperm.
Qed.

Lemma partial_sum_in_degrees d :
  d < NumNodes t →
  partial_sum (in_degree t <$> seq 0 (NumNodes t)) !! d
    = Some (in_offset t (S d)).
Proof.
  intros Hd. unfold partial_sum.
  rewrite lookup_partial_sum_from by (by rewrite length_fmap, length_seq).
  f_equal. simpl. unfold in_offset. f_equal.
  rewrite <- fmap_take. f_equal.
  rewrite take_seq. f_equal. lia.
Qed.

End InDegrees.

Lemma fmap_concat_fmap {A B C} (f : B → C) (g : A → list B) (ds : list A) :
  f <$> concat (g <$> ds) = concat ((λ d, f <$> g d) <$> ds).
Proof.
  induction ds as [|d ds IH]; [done|].
  rewrite !fmap_cons. simpl. by rewrite fmap_app, IH.
Qed.

Lemma length_filter_snd {A} (f : nat → nat) (d : nat) (l : list (A * nat)) :
  length (filter (λ p, f p.2 = d) l) = length (filter (λ e, f e = d) l.*2).
Proof.
  induction l as [|p l IH]; [done|].
  rewrite fmap_cons, !filter_cons. simpl.
  destruct (decide (f p.2 = d)); simpl; by rewrite IH.
Qed.

Section Scatter.
Context (t : GraphTopology).
Hypothesis t_wf : well_formed t.

(** The edge ranges of the nodes below [k], one after the other, are the
    edges below the range of [k]. *)
Lemma out_edges_concat k :
  k ≤ NumNodes t →
  concat (OutEdges t <$> seq 0 k) = seq 0 (edge_begin t k).
Proof.
  induction k as [|k IH]; intros Hk; [done|].
  rewrite seq_S, fmap_app, concat_app, IH by lia. simpl. rewrite app_nil_r.
  destruct (edge_range_bounds t k t_wf ltac:(lia)) as [Hbe _].
  unfold OutEdges, OutDegree.
  change (edge_begin t (S k)) with (edge_end t k).
  change (edge_begin t k) with (0 + edge_begin t k) at 2.
  rewrite <- seq_app. f_equal. unfold edge_end in *. lia.
Qed.

Lemma edge_begin_all : edge_begin t (NumNodes t) = NumEdges t.
Proof.
  destruct t_wf as (_ & Hlast & _). unfold edge_begin, NumNodes in *.
  destruct (adj_indices_ t) as [|a l] eqn:Hadj using rev_ind; [done|].
  rewrite last_snoc in Hlast. simpl in Hlast.
  rewrite length_app. simpl. replace (length l + 1) with (S (length l)) by lia.
  by rewrite list_lookup_total_middle.
Qed.

Lemma source_edge_pairs_edges : (source_edge_pairs t).*2 = seq 0 (NumEdges t).
Proof.
  unfold source_edge_pairs. rewrite fmap_concat_fmap.
  rewrite <- edge_begin_all, <- out_edges_concat by done.
  f_equal. apply list_fmap_ext. intros _ src _.
  rewrite <- list_fmap_compose. apply list_fmap_id.
Qed.

Lemma source_edge_pairs_in_degree d :
  length (filter (λ se : Node * Edge, OutEdgeDst t se.2 = d) (source_edge_pairs t))
    = in_degree t d.
Proof.
  rewrite (length_filter_snd (OutEdgeDst t) d).
  by rewrite source_edge_pairs_edges.
Qed.

Lemma source_edge_pairs_dest se :
  se ∈ source_edge_pairs t → OutEdgeDst t se.2 < NumNodes t.
Proof.
  intros Hin. assert (He : se.2 ∈ (source_edge_pairs t).*2)
    by (by apply list_elem_of_fmap_2).
  rewrite source_edge_pairs_edges in He. apply elem_of_seq in He.
  destruct t_wf as (_ & _ & Hd). rewrite Forall_forall in Hd. apply Hd.
  unfold OutEdgeDst. apply list_elem_of_lookup_total_2. unfold NumEdges in He. lia.
Qed.

(** The scatter loop: after the pairs [done] have run, the block of every
    destination [d] holds, from its start and in the order of the run,
    the sources and property indices of the pairs of [done] that arrive
    at [d]; the same holds after the remaining pairs have run. *)
Lemma scatter_spec (rest done : list (Node * Edge)) (s : scatter) :
  (∀ d, d < NumNodes t →
     length (filter (λ se, OutEdgeDst t se.2 = d) done) +
     length (filter (λ se, OutEdgeDst t se.2 = d) rest) = in_degree t d) →
  Forall (λ se, OutEdgeDst t se.2 < NumNodes t) rest →
  length (out_dests_offset s) = NumNodes t →
  length (out_dests s) = NumEdges t →
  length (new_edge_prop_indices s) = NumEdges t →
  (∀ d, d < NumNodes t →
     out_dests_offset s !!! d
       = in_offset t d + length (filter (λ se, OutEdgeDst t se.2 = d) done)) →
  (∀ d k se, d < NumNodes t →
     filter (λ se, OutEdgeDst t se.2 = d) done !! k = Some se →
     out_dests s !! (in_offset t d + k) = Some se.1 ∧
     new_edge_prop_indices s !! (in_offset t d + k)
       = Some (GetEdgePropertyIndexFromOutEdge t se.2)) →
  length (out_dests (foldl (scatter_edge t) s rest)) = NumEdges t ∧
  length (new_edge_prop_indices (foldl (scatter_edge t) s rest)) = NumEdges t ∧
  (∀ d k se, d < NumNodes t →
     filter (λ se, OutEdgeDst t se.2 = d) (done ++ rest) !! k = Some se →
     out_dests (foldl (scatter_edge t) s rest) !! (in_offset t d + k) = Some se.1 ∧
     new_edge_prop_indices (foldl (scatter_edge t) s rest) !! (in_offset t d + k)
       = Some (GetEdgePropertyIndexFromOutEdge t se.2)).
Proof.
  revert done s. induction rest as [|q rest IH];
    intros done s Htotal Hrest Hlo Hld Hle Hoff Hslots.
  - simpl. rewrite app_nil_r. done.
  - apply Forall_cons in Hrest as [Hq Hrest]. simpl.
    set (d0 := OutEdgeDst t q.2) in *.
    set (c0 := length (filter (λ se : Node * Edge, OutEdgeDst t se.2 = d0) done)).
    assert (Hw : out_dests_offset s !!! d0 = in_offset t d0 + c0) by (by apply Hoff).
    assert (Hc0 : c0 < in_degree t d0).
    { specialize (Htotal d0 Hq). rewrite filter_cons in Htotal.
      rewrite decide_True in Htotal by done. simpl in Htotal. fold c0 in Htotal. lia. }
    assert (HwE : in_offset t d0 + c0 < NumEdges t).
    { rewrite <- (in_offset_all t t_wf).
      pose proof (in_offset_mono t (S d0) (NumNodes t) ltac:(lia)) as Hm.
      rewrite in_offset_S in Hm. lia. }
    replace (done ++ q :: rest) with ((done ++ [q]) ++ rest)
      by (by rewrite <- (assoc_L (++))).
    apply IH; clear IH.
    + intros d Hd. specialize (Htotal d Hd).
      rewrite filter_app, length_app. rewrite !filter_cons in *.
      rewrite filter_nil. fold d0 in Htotal |- *.
      destruct (decide (d0 = d)); simpl in *; lia.
    + done.
    + unfold scatter_edge. simpl. by rewrite length_insert.
    + unfold scatter_edge. simpl. by rewrite length_insert.
    + unfold scatter_edge. simpl. by rewrite length_insert.
    + intros d Hd. unfold scatter_edge. simpl. fold d0.
      rewrite filter_app, length_app, filter_cons, filter_nil. fold d0.
      destruct (decide (d0 = d)) as [<-|Hne].
      * rewrite list_lookup_total_insert_eq by lia. simpl. fold c0. lia.
      * rewrite list_lookup_total_insert_ne by done. rewrite Hoff by done.
        simpl. lia.
    + intros d k se Hd Hk. unfold scatter_edge. simpl. fold d0. rewrite Hw.
      rewrite filter_app, filter_cons, filter_nil in Hk. fold d0 in Hk.
      destruct (decide (k < length (filter (λ se, OutEdgeDst t se.2 = d) done)))
        as [Hlt|Hge].
      * rewrite lookup_app_l in Hk by done.
        assert (Hne : in_offset t d0 + c0 ≠ in_offset t d + k).
        { destruct (decide (d = d0)) as [->|Hdd]; [fold c0 in Hlt; lia|].
          pose proof (Htotal d Hd) as Hcd.
          assert (d < d0 ∨ d0 < d) as [Hlt'|Hlt'] by lia.
          - pose proof (in_offset_mono t (S d) d0 ltac:(lia)) as Hm.
            rewrite in_offset_S in Hm. lia.
          - pose proof (in_offset_mono t (S d0) d ltac:(lia)) as Hm.
            rewrite in_offset_S in Hm. lia. }
        rewrite !list_lookup_insert_ne by done. by apply Hslots.
      * rewrite lookup_app_r in Hk by lia.
        destruct (decide (d0 = d)) as [<-|Hdd].
        -- fold c0 in Hk, Hge.
           destruct (k - c0) as [|?] eqn:Hkc; simpl in Hk; [|done].
           injection Hk as <-. assert (k = c0) as -> by lia.
           rewrite !list_lookup_insert_eq by lia. done.
        -- by rewrite lookup_nil in Hk.
Qed.

End Scatter.

Lemma StronglySorted_of_lookup {A} (R : relation A) (l : list A) :
  (∀ i j a b, i < j → l !! i = Some a → l !! j = Some b → R a b) →
  StronglySorted R l.
Proof.
  induction l as [|x l IH]; intros H; constructor.
  - apply IH. intros i j a b Hij Ha Hb. by apply (H (S i) (S j)); [lia|..].
  - apply Forall_forall. intros y Hy.
    apply list_elem_of_lookup in Hy as [j Hj]. by apply (H 0 (S j)); [lia|..].
Qed.

Lemma in_offset_find t N w :
  w < in_offset t N →
  ∃ d, d < N ∧ in_offset t d ≤ w ∧ w < in_offset t (S d).
Proof.
  induction N as [|N IH]; intros Hw.
  - unfold in_offset in Hw. simpl in Hw. lia.
  - destruct (decide (w < in_offset t N)) as [Hlt|Hge].
    + destruct (IH Hlt) as (d & Hd & H1 & H2). exists d. split; [lia|done].
    + exists N. split; [lia|]. split; [lia|done].
Qed.

Section Transpose.
Context (t : GraphTopology) (count_order : list Edge)
        (scatter_order : list (Node * Edge)).
Hypothesis t_wf : well_formed t.
Hypothesis t_nonempty : NumNodes t ≠ 0.
Hypothesis count_all : count_order ≡ₚ seq 0 (NumEdges t).
Hypothesis scatter_all : scatter_order ≡ₚ source_edge_pairs t.

(** What [MakeTransposeCopy] builds on a non-empty topology. *)
Lemma transpose_arrays :
  adj_indices_ (topo (MakeTransposeCopy t count_order scatter_order))
    = partial_sum (in_degree t <$> seq 0 (NumNodes t)) ∧
  length (dests_ (topo (MakeTransposeCopy t count_order scatter_order)))
    = NumEdges t ∧
  length (edge_prop_indices_ (topo (MakeTransposeCopy t count_order scatter_order)))
    = NumEdges t ∧
  (∀ d k se, d < NumNodes t →
     filter (λ se : Node * Edge, OutEdgeDst t se.2 = d) scatter_order !! k = Some se →
     dests_ (topo (MakeTransposeCopy t count_order scatter_order))
       !! (in_offset t d + k) = Some se.1 ∧
     edge_prop_indices_ (topo (MakeTransposeCopy t count_order scatter_order))
       !! (in_offset t d + k) = Some (GetEdgePropertyIndexFromOutEdge t se.2)).
Proof.
  unfold MakeTransposeCopy, empty. rewrite bool_decide_eq_false_2 by done.
  rewrite (count_in_edges_spec t t_wf count_order count_all). simpl.
  split; [done|].
  apply (scatter_spec t t_wf scatter_order []); simpl.
  - intros d Hd. rewrite scatter_all. by rewrite source_edge_pairs_in_degree.
  - apply Forall_forall. intros se Hse. rewrite scatter_all in Hse.
    by apply source_edge_pairs_dest.
  - rewrite length_take, length_partial_sum, length_fmap, length_seq. lia.
  - by rewrite length_replicate.
  - by rewrite length_replicate.
  - intros d Hd. destruct d as [|m]; simpl.
    + unfold in_offset. simpl. lia.
    + rewrite lookup_total_take_lt by lia.
      erewrite list_lookup_total_correct; [|apply (partial_sum_in_degrees t m); lia].
      lia.
  - intros d k se _ Hk. by rewrite filter_nil, lookup_nil in Hk.
Qed.

Lemma transpose_ranges :
  NumNodes (topo (MakeTransposeCopy t count_order scatter_order)) = NumNodes t ∧
  NumEdges (topo (MakeTransposeCopy t count_order scatter_order)) = NumEdges t ∧
  ∀ d, d < NumNodes t →
    edge_begin (topo (MakeTransposeCopy t count_order scatter_order)) d
      = in_offset t d ∧
    edge_end (topo (MakeTransposeCopy t count_order scatter_order)) d
      = in_offset t (S d).
Proof.
  destruct transpose_arrays as (Hadj & Hld & Hle & Hslots).
  unfold NumNodes, NumEdges, edge_begin, edge_end. rewrite Hadj.
  split; [by rewrite length_partial_sum, length_fmap, length_seq|].
  split; [done|]. intros d Hd. split.
  - destruct d as [|m]; [done|].
    apply list_lookup_total_correct, partial_sum_in_degrees. unfold NumNodes in *. lia.
  - by apply list_lookup_total_correct, partial_sum_in_degrees.
Qed.

(** Every slot of the transposed arrays belongs to the block of some
    destination and was written by one pair of the run. *)
Lemma transpose_slot w :
  w < NumEdges t →
  ∃ d k se, d < NumNodes t ∧ w = in_offset t d + k ∧
    filter (λ se : Node * Edge, OutEdgeDst t se.2 = d) scatter_order !! k = Some se.
Proof.
  intros Hw. rewrite <- (in_offset_all t t_wf) in Hw.
  destruct (in_offset_find t _ w Hw) as (d & Hd & H1 & H2).
  rewrite in_offset_S in H2.
  assert (Hk : w - in_offset t d
             < length (filter (λ se : Node * Edge, OutEdgeDst t se.2 = d) scatter_order)).
  { rewrite scatter_all, source_edge_pairs_in_degree by done. lia. }
  destruct (lookup_lt_is_Some_2 _ _ Hk) as [se Hse].
  exists d, (w - in_offset t d), se. split; [done|]. split; [lia|done].
Qed.

Lemma source_edge_pairs_source se :
  se ∈ source_edge_pairs t → se.1 < NumNodes t.
Proof.
  unfold source_edge_pairs. intros Hin.
  apply list_elem_of_In, in_concat in Hin as (l & Hl & Hin).
  rewrite <- !list_elem_of_In in *.
  apply list_elem_of_fmap in Hl as (src & -> & Hsrc).
  apply list_elem_of_fmap in Hin as (e & -> & _).
  apply elem_of_seq in Hsrc. simpl. lia.
Qed.

Lemma transpose_well_formed :
  well_formed (topo (MakeTransposeCopy t count_order scatter_order)).
Proof.
  destruct transpose_arrays as (Hadj & Hld & Hle & Hslots).
  destruct transpose_ranges as (HN & HE & Hrange).
  split; [|split].
  - rewrite Hadj. apply StronglySorted_of_lookup. intros i j a b Hij Ha Hb.
    assert (Hj : j < NumNodes t).
    { apply lookup_lt_Some in Hb.
      by rewrite length_partial_sum, length_fmap, length_seq in Hb. }
    rewrite partial_sum_in_degrees in Ha, Hb by lia.
    injection Ha as <-. injection Hb as <-.
    apply in_offset_mono. lia.
  - rewrite HE, Hadj, last_lookup, length_partial_sum, length_fmap, length_seq.
    rewrite partial_sum_in_degrees by lia. simpl.
    replace (S (pred (NumNodes t))) with (NumNodes t) by lia.
    by apply in_offset_all.
  - rewrite HN. apply Forall_forall. intros x Hx.
    apply list_elem_of_lookup in Hx as [w Hw].
    assert (HwE : w < NumEdges t) by (apply lookup_lt_Some in Hw; lia).
    destruct (transpose_slot w HwE) as (d & k & se & Hd & -> & Hse).
    destruct (Hslots d k se Hd Hse) as [Hx _].
    rewrite Hx in Hw. injection Hw as <-.
    apply source_edge_pairs_source. rewrite <- scatter_all.
    apply list_elem_of_lookup_2 in Hse. by apply list_elem_of_filter in Hse as [_ ?].
Qed.

(** The transposed view has the edges of the original, reversed. *)
Lemma transpose_triples :
  edge_triples (topo (MakeTransposeCopy t count_order scatter_order))
    ≡ₚ (λ x : Node * Node * PropertyIndex, (x.1.2, x.1.1, x.2)) <$> edge_triples t.
Proof.
  destruct transpose_arrays as (Hadj & Hld & Hle & Hslots).
  destruct transpose_ranges as (HN & HE & Hrange).
  unfold edge_triples at 1. unfold source_edge_pairs at 1.
  rewrite fmap_concat_fmap, HN.
  rewrite (list_fmap_ext _
    (λ d, (λ se : Node * Edge,
             (OutEdgeDst t se.2, se.1, GetEdgePropertyIndexFromOutEdge t se.2))
          <$> filter (λ se : Node * Edge, OutEdgeDst t se.2 = d) scatter_order)).
  - rewrite <- (fmap_concat_fmap _
       (λ d, filter (λ se : Node * Edge, OutEdgeDst t se.2 = d) scatter_order)).
    rewrite partition_by_key_all.
    + rewrite scatter_all. unfold edge_triples.
      rewrite <- list_fmap_compose. done.
    + apply Forall_forall. intros se Hse. rewrite scatter_all in Hse.
      by apply source_edge_pairs_dest.
  - intros _ d Hd%list_elem_of_lookup_2%elem_of_seq.
    destruct (Hrange d ltac:(lia)) as [Hb He].
    unfold OutEdges, OutDegree. rewrite Hb, He, in_offset_S.
    replace (in_offset t d + in_degree t d - in_offset t d) with (in_degree t d) by lia.
    assert (Hlen : length (filter (λ se : Node * Edge, OutEdgeDst t se.2 = d)
                             scatter_order) = in_degree t d).
    { rewrite scatter_all. by apply source_edge_pairs_in_degree. }
    apply list_eq_same_length with (in_degree t d).
    + by rewrite length_fmap.
    + by rewrite !length_fmap, length_seq.
    + intros k x y Hk Hx Hy.
      rewrite <- list_fmap_compose, list_lookup_fmap, lookup_seq_lt in Hx by done.
      simpl in Hx. injection Hx as <-.
      rewrite list_lookup_fmap in Hy.
      destruct (filter _ scatter_order !! k) as [se|] eqn:Hse; [|done].
      simpl in Hy. injection Hy as <-.
      destruct (Hslots d k se ltac:(lia) Hse) as [Hdst Hprop].
      pose proof (list_elem_of_lookup_2 _ _ _ Hse) as Hin.
      apply list_elem_of_filter in Hin as [Hkd _].
      unfold OutEdgeDst at 1. rewrite (list_lookup_total_correct _ _ _ Hdst).
      unfold GetEdgePropertyIndexFromOutEdge at 1.
      rewrite (list_lookup_total_correct _ _ _ Hprop).
      destruct (edge_prop_indices_ _) eqn:Hep; [by rewrite lookup_nil in Hprop|].
      by rewrite Hkd.
Qed.

End Transpose.

(** C4: For every well-formed base topology, and whatever the order in
    which the atomic increments of the two parallel loops take effect,
    transposing twice gives a topology with the same multiset of
    (source, destination, edge property index) triples as the base, and
    the [adj_indices] of the transposed view are the prefix sums of the
    in-degrees of the base. *)
Theorem transpose_twice_equivalent (t : GraphTopology)
    (count_order count_order' : list Edge)
    (scatter_order scatter_order' : list (Node * Edge)) :
  base_wf t →
  count_order ≡ₚ seq 0 (NumEdges t) →
  scatter_order ≡ₚ source_edge_pairs t →
  count_order'
    ≡ₚ seq 0 (NumEdges (topo (MakeTransposeCopy t count_order scatter_order))) →
  scatter_order'
    ≡ₚ source_edge_pairs (topo (MakeTransposeCopy t count_order scatter_order)) →
  edge_triples
    (topo (MakeTransposeCopy (topo (MakeTransposeCopy t count_order scatter_order))
             count_order' scatter_order'))
    ≡ₚ edge_triples t ∧
  adj_indices_ (topo (MakeTransposeCopy t count_order scatter_order))
    = partial_sum (in_degree t <$> seq 0 (NumNodes t)).
Proof.
  intros [Hwf _] Hco Hso Hco' Hso'.
  destruct (decide (NumNodes t = 0)) as [HN|HN].
  - assert (Hempty : MakeTransposeCopy t count_order scatter_order
             = mkEdgeShuffleTopology kYes kAny (mkGraphTopology [] [] [] [])).
    { unfold MakeTransposeCopy, empty. by rewrite bool_decide_eq_true_2. }
    rewrite Hempty. simpl. rewrite HN. split; [|done].
    unfold edge_triples at 2. unfold source_edge_pairs. by rewrite HN.
  - pose proof (transpose_well_formed t count_order scatter_order Hwf HN Hco Hso)
      as Hwf1.
    destruct (transpose_ranges t count_order scatter_order Hwf HN Hco Hso)
      as (HN1 & _).
    split; [|apply (transpose_arrays t count_order scatter_order Hwf HN Hco Hso)].
    rewrite (transpose_triples _ count_order' scatter_order' Hwf1
               ltac:(by rewrite HN1) Hco' Hso').
    rewrite (transpose_triples t count_order scatter_order Hwf HN Hco Hso).
    rewrite <- list_fmap_compose.
    rewrite (list_fmap_ext _ id); [by rewrite list_fmap_id|].
    by intros _ [[a b] c] _.
Qed.

Lemma transpose_twice_equivalent_witness :
  edge_triples
    (topo (MakeTransposeCopy
             (topo (MakeTransposeCopy s1_topology [4; 0; 2; 1; 3]
                      [(3, 3); (0, 0); (2, 2); (3, 4); (0, 1)]))
             [0; 1; 2; 3; 4] [(3, 4); (2, 3); (2, 2); (1, 1); (0, 0)]))
    ≡ₚ edge_triples s1_topology ∧
  adj_indices_ (topo (MakeTransposeCopy s1_topology [4; 0; 2; 1; 3]
                        [(3, 3); (0, 0); (2, 2); (3, 4); (0, 1)]))
    = partial_sum (in_degree s1_topology <$> seq 0 (NumNodes s1_topology)).
Proof.
  apply (transpose_twice_equivalent s1_topology [4; 0; 2; 1; 3] [0; 1; 2; 3; 4]
           [(3, 3); (0, 0); (2, 2); (3, 4); (0, 1)]
           [(3, 4); (2, 3); (2, 2); (1, 1); (0, 0)]).
  - split; [|by left].
    repeat split; try (by vm_compute); apply (bool_decide_unpack _); by vm_compute.
  - apply (bool_decide_unpack _). by vm_compute.
  - apply (bool_decide_unpack _). by vm_compute.
  - apply (bool_decide_unpack _). by vm_compute.
  - apply (bool_decide_unpack _). by vm_compute.
Defined.

(** * Further properties of the edge lookups *)

Lemma upper_bound_loop_sorted (t : GraphTopology) dst fuel first len :
  first + len ≤ NumEdges t → len ≤ fuel →
  (∀ i j, first ≤ i → i ≤ j → j < first + len →
          OutEdgeDst t i ≤ OutEdgeDst t j) →
  ∃ rs p, upper_bound_loop t dst fuel first len = (rs, Ok p) ∧
    first ≤ p ∧ p ≤ first + len ∧
    (∀ i, first ≤ i → i < p → OutEdgeDst t i ≤ dst) ∧
    (∀ i, p ≤ i → i < first + len → dst < OutEdgeDst t i) ∧
    Forall (λ r, first ≤ r ∧ r < first + len) rs.
Proof.
  revert first len. induction fuel as [|fuel IH]; intros first len Hin Hfuel Hsorted.
  - exists [], first. simpl. repeat split; try done; try lia; intros; lia.
  - cbn [upper_bound_loop]. case_decide as Hlen.
    { exists [], first. repeat split; try done; try lia; intros; lia. }
    assert (Hhalf : len / 2 < len) by (apply Nat.div_lt; lia).
    set (half := len / 2) in *.
    rewrite read_dst_in_bounds by lia.
    unfold mbind, Reads_bind. cbn [fst snd].
    case_decide as Hcmp.
    + destruct (IH first half)
        as (rs & p & Hrun & Hlo & Hhi & Hbelow & Habove & Hreads);
        [lia|lia|intros; apply Hsorted; lia|].
      rewrite Hrun. cbn [fst snd app]. exists ((first + half) :: rs), p.
      split; [done|]. split; [lia|]. split; [lia|]. split; [|split].
      * intros i Hi Hip. apply Hbelow; lia.
      * intros i Hi Hilen.
        destruct (decide (i < first + half)) as [Hlt|Hge].
        -- apply Habove; lia.
        -- pose proof (Hsorted (first + half) i). lia.
      * constructor; [lia|]. eapply Forall_impl; [exact Hreads|]. simpl. lia.
    + destruct (IH (first + half + 1) (len - half - 1))
        as (rs & p & Hrun & Hlo & Hhi & Hbelow & Habove & Hreads);
        [lia|lia|intros; apply Hsorted; lia|].
      rewrite Hrun. cbn [fst snd app]. exists ((first + half) :: rs), p.
      split; [done|]. split; [lia|]. split; [lia|]. split; [|split].
      * intros i Hi Hip.
        destruct (decide (i ≤ first + half)) as [Hle|Hgt].
        -- pose proof (Hsorted i (first + half)). lia.
        -- apply Hbelow; lia.
      * intros i Hi Hilen. apply Habove; lia.
      * constructor; [lia|]. eapply Forall_impl; [exact Hreads|]. simpl. lia.
Qed.

(** The destinations of a sorted edge range, position by position. *)
Lemma sorted_range_monotone (t : GraphTopology) n i j :
  StronglySorted le (slice (edge_begin t n) (edge_end t n) (dests_ t)) →
  edge_end t n ≤ NumEdges t →
  edge_begin t n ≤ i → i ≤ j → j < edge_end t n →
  OutEdgeDst t i ≤ OutEdgeDst t j.
Proof.
  intros Hsorted HeE Hi Hij Hj.
  destruct (decide (i = j)) as [->|Hne]; [done|].
  eapply (StronglySorted_lookup_lt le _ (i - edge_begin t n) (j - edge_begin t n));
    [exact Hsorted| | |lia].
  - unfold slice. rewrite lookup_take_lt, lookup_drop by lia.
    replace (edge_begin t n + (i - edge_begin t n)) with i by lia.
    apply list_lookup_lookup_total_lt. unfold NumEdges in *. lia.
  - unfold slice. rewrite lookup_take_lt, lookup_drop by lia.
    replace (edge_begin t n + (j - edge_begin t n)) with j by lia.
    apply list_lookup_lookup_total_lt. unfold NumEdges in *. lia.
Qed.

Lemma elem_of_OutEdges (t : GraphTopology) n e :
  e ∈ OutEdges t n ↔ edge_begin t n ≤ e ∧ e < edge_begin t n + OutDegree t n.
Proof. unfold OutEdges. apply elem_of_seq. Qed.

(** X1: On a node with at most 64 out-edges, and whatever the order of
    its edges, [FindEdge] reads destinations of that node only and returns
    the FIRST edge of the node with destination [dst], or the end of the
    node's range when no edge of the node has that destination. *)
Theorem FindEdge_linear_first_match (v : EdgeShuffleTopology) (src dst : Node) :
  well_formed (topo v) → src < NumNodes (topo v) →
  OutDegree (topo v) src ≤ kBinarySearchThreshold →
  ∃ p, outcome (FindEdge v src dst) = Ok p ∧
    Forall (λ r, r ∈ OutEdges (topo v) src) (reads_of (FindEdge v src dst)) ∧
    (∀ e, e ∈ OutEdges (topo v) src → e < p → OutEdgeDst (topo v) e ≠ dst) ∧
    ((p ∈ OutEdges (topo v) src ∧ OutEdgeDst (topo v) p = dst) ∨
     p = edge_end (topo v) src).
Proof.
  intros Hwf Hsrc Hdeg.
  destruct (edge_range_bounds _ _ Hwf Hsrc) as [Hbe HeE].
  unfold FindEdge. unfold OutDegree in Hdeg. rewrite decide_True by done.
  destruct (find_if_dst_spec (topo v) dst (edge_begin (topo v) src)
              (edge_end (topo v) src - edge_begin (topo v) src))
    as (rs & p & Hrun & Hlo & Hhi & Hno & Hyes & Hreads); [lia|].
  rewrite Hrun. exists p. unfold outcome, reads_of. cbn [fst snd].
  split; [done|]. split; [|split].
  - eapply Forall_impl; [exact Hreads|]. simpl. intros r Hr.
    apply elem_of_OutEdges. unfold OutDegree. lia.
  - intros e He Hep. apply elem_of_OutEdges in He. apply Hno; lia.
  - destruct (decide (p < edge_end (topo v) src)) as [Hlt|Hge]; [left|right; lia].
    split; [|apply Hyes; lia]. apply elem_of_OutEdges. unfold OutDegree. lia.
Qed.

Lemma FindEdge_linear_first_match_witness :
  ∃ p, outcome (FindEdge s1_view 3 2) = Ok p ∧
    Forall (λ r, r ∈ OutEdges (topo s1_view) 3) (reads_of (FindEdge s1_view 3 2)) ∧
    (∀ e, e ∈ OutEdges (topo s1_view) 3 → e < p → OutEdgeDst (topo s1_view) e ≠ 2) ∧
    ((p ∈ OutEdges (topo s1_view) 3 ∧ OutEdgeDst (topo s1_view) p = 2) ∨
     p = edge_end (topo s1_view) 3).
Proof.
  apply (FindEdge_linear_first_match s1_view 3 2).
  - repeat split; try (by vm_compute); apply (bool_decide_unpack _); by vm_compute.
  - vm_compute. lia.
  - vm_compute. lia.
Defined.

(** X2: On a node with more than 64 out-edges whose destinations are in
    non-decreasing order, [FindEdge] is right (first edge with destination
    [dst], or the end of the range) and reads inside the destination array
    only, provided the node's range is not the last of the array or some
    edge of the node has a destination of at least [dst]. *)
Theorem FindEdge_binary_search_sorted (v : EdgeShuffleTopology) (src dst : Node) :
  well_formed (topo v) → src < NumNodes (topo v) →
  StronglySorted le
    (slice (edge_begin (topo v) src) (edge_end (topo v) src) (dests_ (topo v))) →
  kBinarySearchThreshold < OutDegree (topo v) src →
  (edge_end (topo v) src < NumEdges (topo v) ∨
   ∃ e, e ∈ OutEdges (topo v) src ∧ dst ≤ OutEdgeDst (topo v) e) →
  ∃ p, outcome (FindEdge v src dst) = Ok p ∧
    Forall (λ r, r < NumEdges (topo v)) (reads_of (FindEdge v src dst)) ∧
    (∀ e, e ∈ OutEdges (topo v) src → e < p → OutEdgeDst (topo v) e ≠ dst) ∧
    ((p ∈ OutEdges (topo v) src ∧ OutEdgeDst (topo v) p = dst) ∨
     p = edge_end (topo v) src).
Proof.
  intros Hwf Hsrc Hsorted Hdeg Hcase.
  destruct (edge_range_bounds _ _ Hwf Hsrc) as [Hbe HeE].
  unfold FindEdge. unfold OutDegree in Hdeg.
  rewrite decide_False by lia.
  destruct (lower_bound_loop_sorted (topo v) dst
              (edge_end (topo v) src - edge_begin (topo v) src)
              (edge_begin (topo v) src)
              (edge_end (topo v) src - edge_begin (topo v) src))
    as (rs & q & Hrun & Hlo & Hhi & Hbelow & Habove & Hreads); [lia|lia| |].
  { intros i j Hi Hij Hj. apply (sorted_range_monotone _ src); auto; lia. }
  unfold lower_bound. rewrite Hrun.
  unfold mbind, Reads_bind, reads_of, outcome. cbn [fst snd].
  assert (Hq : q < NumEdges (topo v)).
  { destruct (decide (q < edge_end (topo v) src)) as [|Hge]; [lia|].
    destruct Hcase as [Hlast|(e & He & Hde)]; [lia|].
    apply elem_of_OutEdges in He. unfold OutDegree in He.
    specialize (Hbelow e ltac:(lia) ltac:(lia)). lia. }
  rewrite read_dst_in_bounds by done. cbn [fst snd app mret Reads_ret].
  assert (Hrs : Forall (λ r, r < NumEdges (topo v)) (rs ++ [q] ++ [])).
  { apply Forall_app. split.
    - eapply Forall_impl; [exact Hreads|]. simpl. lia.
    - by repeat constructor. }
  case_decide as Hd.
  - exists q. split; [done|]. split; [done|]. split.
    + intros e He Heq. apply elem_of_OutEdges in He. unfold OutDegree in He.
      specialize (Hbelow e ltac:(lia) Heq). lia.
    + destruct (decide (q < edge_end (topo v) src)) as [Hlt|Hge]; [left|right; lia].
      split; [|done]. apply elem_of_OutEdges. unfold OutDegree. lia.
  - exists (edge_end (topo v) src). split; [done|]. split; [done|].
    split; [|by right].
    intros e He _. apply elem_of_OutEdges in He. unfold OutDegree in He.
    destruct (decide (e < q)) as [Hlt|Hge].
    + specialize (Hbelow e ltac:(lia) Hlt). lia.
    + specialize (Habove q ltac:(lia) ltac:(lia)).
      pose proof (sorted_range_monotone _ src q e Hsorted HeE ltac:(lia)
                    ltac:(lia) ltac:(lia)). lia.
Qed.

Lemma FindEdge_binary_search_sorted_witness :
  ∃ p, outcome (FindEdge sorted_hub_at_end 1 0) = Ok p ∧
    Forall (λ r, r < NumEdges (topo sorted_hub_at_end))
           (reads_of (FindEdge sorted_hub_at_end 1 0)) ∧
    (∀ e, e ∈ OutEdges (topo sorted_hub_at_end) 1 → e < p →
          OutEdgeDst (topo sorted_hub_at_end) e ≠ 0) ∧
    ((p ∈ OutEdges (topo sorted_hub_at_end) 1 ∧
      OutEdgeDst (topo sorted_hub_at_end) p = 0) ∨
     p = edge_end (topo sorted_hub_at_end) 1).
Proof.
  apply (FindEdge_binary_search_sorted sorted_hub_at_end 1 0).
  - repeat split; try (by vm_compute); apply (bool_decide_unpack _); by vm_compute.
  - vm_compute. lia.
  - apply (bool_decide_unpack _). by vm_compute.
  - vm_compute. lia.
  - right. exists 0. split; [|lia].
    apply elem_of_OutEdges. vm_compute. lia.
Defined.

(** On a range in non-decreasing destination order [equal_range_loop]
    returns the bounds of the run of edges with destination [dst] and
    reads inside the range only. *)
Lemma equal_range_loop_sorted (t : GraphTopology) dst fuel first len :
  first + len ≤ NumEdges t → len ≤ fuel →
  (∀ i j, first ≤ i → i ≤ j → j < first + len →
          OutEdgeDst t i ≤ OutEdgeDst t j) →
  ∃ rs lo hi, equal_range_loop t dst fuel first len = (rs, Ok (lo, hi)) ∧
    first ≤ lo ∧ lo ≤ hi ∧ hi ≤ first + len ∧
    (∀ i, first ≤ i → i < lo → OutEdgeDst t i < dst) ∧
    (∀ i, lo ≤ i → i < hi → OutEdgeDst t i = dst) ∧
    (∀ i, hi ≤ i → i < first + len → dst < OutEdgeDst t i) ∧
    Forall (λ r, first ≤ r ∧ r < first + len) rs.
Proof.
  revert first len. induction fuel as [|fuel IH]; intros first len Hin Hfuel Hsorted.
  - exists [], first, first. simpl. split_and!; try done; try lia; intros; lia.
  - cbn [equal_range_loop]. case_decide as Hlen.
    { exists [], first, first. split_and!; try done; try lia; intros; lia. }
    assert (Hhalf : len / 2 < len) by (apply Nat.div_lt; lia).
    set (half := len / 2) in *.
    rewrite read_dst_in_bounds by lia.
    unfold mbind, Reads_bind. cbn [fst snd].
    case_decide as Hcmp.
    { destruct (IH (first + half + 1) (len - half - 1))
        as (rs & lo & hi & Hrun & Hlo & Hlohi & Hhi & Hbelow & Heq & Habove & Hreads);
        [lia|lia|intros; apply Hsorted; lia|].
      rewrite Hrun. cbn [fst snd app].
      exists ((first + half) :: rs), lo, hi.
      split; [done|]. split; [lia|]. split; [lia|]. split; [lia|].
      split; [|split; [|split]].
      - intros i Hi Hip.
        destruct (decide (i ≤ first + half)) as [Hle|Hgt].
        + pose proof (Hsorted i (first + half)). lia.
        + apply Hbelow; lia.
      - done.
      - intros i Hi Hilen. apply Habove; lia.
      - constructor; [lia|]. eapply Forall_impl; [exact Hreads|]. simpl. lia. }
    case_decide as Hcmp2.
    { destruct (IH first half)
        as (rs & lo & hi & Hrun & Hlo & Hlohi & Hhi & Hbelow & Heq & Habove & Hreads);
        [lia|lia|intros; apply Hsorted; lia|].
      rewrite Hrun. cbn [fst snd app].
      exists ((first + half) :: (first + half) :: rs), lo, hi.
      split; [done|]. split; [lia|]. split; [lia|]. split; [lia|].
      split; [|split; [|split]].
      - done.
      - done.
      - intros i Hi Hilen.
        destruct (decide (i < first + half)) as [Hlt|Hge].
        + apply Habove; lia.
        + pose proof (Hsorted (first + half) i). lia.
      - constructor; [lia|]. constructor; [lia|].
        eapply Forall_impl; [exact Hreads|]. simpl. lia. }
    assert (Hmid : OutEdgeDst t (first + half) = dst) by lia.
    destruct (lower_bound_loop_sorted t dst (first + half - first) first
                (first + half - first))
      as (rs1 & lo & Hrun1 & Hlo1 & Hhi1 & Hbelow1 & Habove1 & Hreads1);
      [lia|lia|intros; apply Hsorted; lia|].
    destruct (upper_bound_loop_sorted t dst
                (first + len - (first + half + 1)) (first + half + 1)
                (first + len - (first + half + 1)))
      as (rs2 & hi & Hrun2 & Hlo2 & Hhi2 & Hbelow2 & Habove2 & Hreads2);
      [lia|lia|intros; apply Hsorted; lia|].
    unfold lower_bound, upper_bound. rewrite Hrun1. cbn [fst snd].
    rewrite Hrun2. unfold mret, Reads_ret. cbn [fst snd app].
    eexists _, lo, hi. split; [reflexivity|].
    split; [lia|]. split; [lia|]. split; [lia|]. split; [|split; [|split]].
    + intros i Hi Hip. apply Hbelow1; lia.
    + intros i Hi Hih.
      destruct (decide (i < first + half)) as [Hlt|Hge].
      * specialize (Habove1 i ltac:(lia) ltac:(lia)).
        pose proof (Hsorted i (first + half)). lia.
      * destruct (decide (i = first + half)) as [->|Hne]; [done|].
        specialize (Hbelow2 i ltac:(lia) ltac:(lia)).
        pose proof (Hsorted (first + half) i). lia.
    + intros i Hi Hilen. apply Habove2; lia.
    + constructor; [lia|]. constructor; [lia|]. rewrite app_nil_r.
      apply Forall_app. split.
      * eapply Forall_impl; [exact Hreads1|]. simpl. lia.
      * eapply Forall_impl; [exact Hreads2|]. simpl. lia.
Qed.

(** The closing loop passes on a range of edges with destination [dst]
    and reads every edge of it once. *)
Lemma assert_range_dsts_passes (t : GraphTopology) dst e n :
  e + n ≤ NumEdges t →
  (∀ i, e ≤ i → i < e + n → OutEdgeDst t i = dst) →
  assert_range_dsts t dst e n = (seq e n, Ok ()).
Proof.
  revert e. induction n as [|n IH]; intros e Hin Hall; [done|].
  cbn [assert_range_dsts]. rewrite read_dst_in_bounds by lia.
  unfold mbind at 1, Reads_bind at 1. cbn [fst snd].
  rewrite bool_decide_eq_true_2 by (apply Hall; lia).
  unfold DEBUG_ASSERT, mbind, Reads_bind, mret, Reads_ret. cbn [fst snd app].
  rewrite IH; [done|lia|intros; apply Hall; lia].
Qed.

(** X3: On a view that does not carry the sorted-by-destination tag, and
    for a node whose destinations are nevertheless in non-decreasing
    order, [FindAllEdges] passes its assertions, reads destinations of
    that node only, and returns the range of exactly the edges of the node
    with destination [dst]; the range is empty when there is none. *)
Theorem FindAllEdges_equal_range (v : EdgeShuffleTopology) (src dst : Node) :
  well_formed (topo v) → src < NumNodes (topo v) →
  has_edges_sorted_by v kSortedByDestID = false →
  StronglySorted le
    (slice (edge_begin (topo v) src) (edge_end (topo v) src) (dests_ (topo v))) →
  ∃ lo hi, outcome (FindAllEdges v src dst) = Ok (lo, hi) ∧
    Forall (λ r, r ∈ OutEdges (topo v) src) (reads_of (FindAllEdges v src dst)) ∧
    edge_begin (topo v) src ≤ lo ∧ lo ≤ hi ∧ hi ≤ edge_end (topo v) src ∧
    (∀ e, e ∈ OutEdges (topo v) src →
          (lo ≤ e ∧ e < hi ↔ OutEdgeDst (topo v) e = dst)).
Proof.
  intros Hwf Hsrc Htag Hsorted.
  destruct (edge_range_bounds _ _ Hwf Hsrc) as [Hbe HeE].
  unfold FindAllEdges. case_decide as Hempty.
  { exists (edge_begin (topo v) src), (edge_end (topo v) src).
    unfold outcome, reads_of. cbn. split; [done|]. split; [done|].
    split; [lia|]. split; [lia|]. split; [lia|].
    intros e He. apply elem_of_OutEdges in He. unfold OutDegree in He. lia. }
  rewrite Htag. cbn [negb VASSERT].
  assert (Hmono : ∀ i j, edge_begin (topo v) src ≤ i → i ≤ j →
            j < edge_begin (topo v) src
                + (edge_end (topo v) src - edge_begin (topo v) src) →
            OutEdgeDst (topo v) i ≤ OutEdgeDst (topo v) j).
  { intros i j Hi Hij Hj. apply (sorted_range_monotone _ src); auto; lia. }
  destruct (equal_range_loop_sorted (topo v) dst
              (edge_end (topo v) src - edge_begin (topo v) src)
              (edge_begin (topo v) src)
              (edge_end (topo v) src - edge_begin (topo v) src))
    as (rs & lo & hi & Hrun & Hlo & Hlohi & Hhi & Hbelow & Heq & Habove & Hreads);
    [lia|lia|exact Hmono|].
  unfold equal_range. rewrite Hrun.
  unfold mbind, Reads_bind, mret, Reads_ret, reads_of, outcome.
  cbn [fst snd app].
  assert (Hin : ∀ rs, Forall (λ r, edge_begin (topo v) src ≤ r ∧
                 r < edge_begin (topo v) src
                     + (edge_end (topo v) src - edge_begin (topo v) src)) rs →
            Forall (λ r, r ∈ OutEdges (topo v) src) rs).
  { intros rs' Hrs. eapply Forall_impl; [exact Hrs|]. simpl. intros r Hr.
    apply elem_of_OutEdges. unfold OutDegree. lia. }
  case_decide as Hend.
  { exists (edge_end (topo v) src), (edge_end (topo v) src).
    cbn [fst snd]. rewrite !app_nil_r.
    split; [done|]. split; [by apply Hin|].
    split; [lia|]. split; [lia|]. split; [lia|].
    intros e He. apply elem_of_OutEdges in He. unfold OutDegree in He.
    split; [lia|]. intros Hd. subst lo.
    specialize (Hbelow e ltac:(lia) ltac:(lia)). lia. }
  rewrite read_dst_in_bounds by lia. cbn [fst snd app].
  case_decide as Hd.
  - exists (edge_end (topo v) src), (edge_end (topo v) src).
    cbn [fst snd]. rewrite ?app_nil_r.
    split; [done|]. split.
    { apply Forall_app. split; apply Hin; [done|]. repeat constructor; lia. }
    split; [lia|]. split; [lia|]. split; [lia|].
    intros e He. apply elem_of_OutEdges in He. unfold OutDegree in He.
    split; [lia|]. intros Hde.
    destruct (decide (e < lo)) as [Hlt|Hge].
    + specialize (Hbelow e ltac:(lia) Hlt). lia.
    + destruct (decide (e < hi)) as [Hlt|Hge2].
      * destruct (decide (lo < hi)) as [Hne|]; [|lia].
        specialize (Heq lo ltac:(lia) Hne). lia.
      * specialize (Habove e ltac:(lia) ltac:(lia)). lia.
  - rewrite assert_range_dsts_passes; [|lia|intros; apply Heq; lia].
    exists lo, hi. cbn [fst snd app]. rewrite ?app_nil_r.
    split; [done|]. split.
    { apply Forall_app. split; [by apply Hin|].
      apply Hin. constructor; [lia|].
      apply Forall_forall. intros r Hr. apply elem_of_seq in Hr. lia. }
    split; [lia|]. split; [lia|]. split; [lia|].
    intros e He. apply elem_of_OutEdges in He. unfold OutDegree in He.
    split.
    + intros [Hle Hlt]. apply Heq; lia.
    + intros Hde.
      destruct (decide (e < lo)) as [Hlt|Hge].
      * specialize (Hbelow e ltac:(lia) Hlt). lia.
      * destruct (decide (e < hi)) as [|Hge2]; [lia|].
        specialize (Habove e ltac:(lia) ltac:(lia)). lia.
Qed.

Lemma FindAllEdges_equal_range_witness :
  ∃ lo hi, outcome (FindAllEdges s1_view 0 2) = Ok (lo, hi) ∧
    Forall (λ r, r ∈ OutEdges (topo s1_view) 0) (reads_of (FindAllEdges s1_view 0 2)) ∧
    edge_begin (topo s1_view) 0 ≤ lo ∧ lo ≤ hi ∧ hi ≤ edge_end (topo s1_view) 0 ∧
    (∀ e, e ∈ OutEdges (topo s1_view) 0 →
          (lo ≤ e ∧ e < hi ↔ OutEdgeDst (topo s1_view) e = 2)).
Proof.
  apply (FindAllEdges_equal_range s1_view 0 2).
  - repeat split; try (by vm_compute); apply (bool_decide_unpack _); by vm_compute.
  - vm_compute. lia.
  - reflexivity.
  - apply (bool_decide_unpack _). by vm_compute.
Defined.

(** * Further properties of the edge sorts *)

Section SortAny.
Context (comp : PropertyIndex * Node → PropertyIndex * Node → bool).

(** Sorting the edge range of one node, whatever its order was. *)
Lemma sort_node_edges_any (t : GraphTopology) n t' :
  shuffle_wf t → n < NumNodes t → sort_node_edges comp t n t' →
  adj_indices_ t' = adj_indices_ t ∧
  node_prop_indices_ t' = node_prop_indices_ t ∧
  shuffle_wf t' ∧
  (∀ b' e', e' ≤ edge_begin t n ∨ edge_end t n ≤ b' →
     slice b' e' (edge_tuples t') = slice b' e' (edge_tuples t)) ∧
  std_sort comp (slice (edge_begin t n) (edge_end t n) (edge_tuples t))
                (slice (edge_begin t n) (edge_end t n) (edge_tuples t')).
Proof.
  intros Hwf Hn (sorted & Hsort & ->).
  pose proof (edge_tuples_length t Hwf) as Hlen.
  destruct (edge_range_bounds t n (proj1 Hwf) Hn) as [Hbe HeE].
  set (b := edge_begin t n) in *. set (e := edge_end t n) in *.
  set (z := edge_tuples t) in *.
  assert (Hls : length sorted = e - b).
  { destruct Hsort as [Hp _]. rewrite Hp. apply length_slice; lia. }
  assert (Hz' : edge_tuples (mkGraphTopology (adj_indices_ t)
             (splice b e sorted z).*2 (splice b e sorted z).*1
             (node_prop_indices_ t)) = splice b e sorted z).
  { unfold edge_tuples. simpl. apply zip_fst_snd. }
  assert (Hdz : z.*2 = dests_ t).
  { unfold z, edge_tuples. apply snd_zip. destruct Hwf as [_ Hl].
    unfold NumEdges in Hl. lia. }
  assert (Hsub : ∀ x, x ∈ splice b e sorted z → x ∈ z).
  { intros x. unfold splice. rewrite !elem_of_app.
    intros [Hx|[Hx|Hx]].
    - by eapply subseteq_take.
    - destruct Hsort as [Hp _]. rewrite Hp in Hx. unfold slice in Hx.
      eapply subseteq_drop, subseteq_take, Hx.
    - by eapply subseteq_drop. }
  rewrite Hz'. simpl. split; [done|]. split; [done|]. split; [|split].
  - destruct Hwf as [(H1 & H2 & H3) H4].
    unfold shuffle_wf, well_formed, NumEdges, NumNodes in *. simpl.
    rewrite !length_fmap, length_splice by lia. fold z.
    rewrite Hlen. split_and!; try done.
    apply Forall_fmap, Forall_forall. intros x Hx. simpl.
    apply Hsub in Hx. rewrite Forall_forall in H3. apply H3.
    rewrite <- Hdz. by apply list_elem_of_fmap_2.
  - intros b' e' [Hb|Ha].
    + apply slice_splice_before; lia.
    + apply slice_splice_after; lia.
  - rewrite slice_splice_same by lia. exact Hsort.
Qed.

(** Sorting the edge ranges of a list of nodes, one after the other: the
    ranges of the listed nodes end up sorted, every range keeps its
    tuples, and the ranges of the other nodes are not touched. *)
Lemma sort_nodes_any order (t t' : GraphTopology) :
  sort_nodes comp order t t' →
  shuffle_wf t → Forall (λ n, n < NumNodes t) order →
  adj_indices_ t' = adj_indices_ t ∧
  node_prop_indices_ t' = node_prop_indices_ t ∧
  shuffle_wf t' ∧
  (∀ m, m < NumNodes t →
     slice (edge_begin t m) (edge_end t m) (edge_tuples t')
       ≡ₚ slice (edge_begin t m) (edge_end t m) (edge_tuples t)) ∧
  (∀ m, m < NumNodes t → m ∉ order →
     slice (edge_begin t m) (edge_end t m) (edge_tuples t')
       = slice (edge_begin t m) (edge_end t m) (edge_tuples t)) ∧
  (∀ m, m ∈ order →
     StronglySorted (λ x y, comp y x = false)
       (slice (edge_begin t m) (edge_end t m) (edge_tuples t'))).
Proof.
  induction 1 as [t|n order t t1 t2 Hstep Hrest IH]; intros Hwf Hord.
  - split_and!; try done. intros m Hm. by apply elem_of_nil in Hm.
  - apply Forall_cons in Hord as [Hn Hord].
    destruct (sort_node_edges_any t n t1 Hwf Hn Hstep)
      as (Hadj & Hnpi & Hwf1 & Hout & Hin).
    assert (HN : NumNodes t1 = NumNodes t) by (unfold NumNodes; by rewrite Hadj).
    assert (Hb : ∀ m, edge_begin t1 m = edge_begin t m)
      by (intros m; unfold edge_begin; by rewrite Hadj).
    assert (He : ∀ m, edge_end t1 m = edge_end t m)
      by (intros m; unfold edge_end; by rewrite Hadj).
    destruct IH as (Hadj2 & Hnpi2 & Hwf2 & Hperm2 & Hsame2 & Hsorted2);
      [done|by rewrite HN|].
    assert (Hframe : ∀ m, m < NumNodes t → m ≠ n →
              slice (edge_begin t m) (edge_end t m) (edge_tuples t1)
              = slice (edge_begin t m) (edge_end t m) (edge_tuples t)).
    { intros m Hm Hne. apply Hout. destruct (decide (m < n)).
      - left. apply edge_ranges_ordered; [apply Hwf|done..].
      - right. apply edge_ranges_ordered; [apply Hwf|lia|done]. }
    split; [congruence|]. split; [congruence|]. split; [done|].
    split; [|split].
    + intros m Hm. specialize (Hperm2 m). rewrite HN, Hb, He in Hperm2.
      rewrite (Hperm2 Hm).
      destruct (decide (m = n)) as [->|Hne]; [apply Hin|by rewrite Hframe].
    + intros m Hm Hnot. apply not_elem_of_cons in Hnot as [Hne Hnot].
      specialize (Hsame2 m). rewrite HN, Hb, He in Hsame2.
      rewrite Hsame2 by done. by apply Hframe.
    + intros m Hm. destruct (decide (m ∈ order)) as [Hin'|Hnot].
      * specialize (Hsorted2 m Hin'). by rewrite Hb, He in Hsorted2.
      * apply elem_of_cons in Hm as [->|Hm]; [|done].
        specialize (Hsame2 n). rewrite HN, Hb, He in Hsame2.
        rewrite Hsame2 by done. apply Hin.
Qed.

End SortAny.

Lemma Permutation_concat_fmap {A B} (f g : A → list B) (l : list A) :
  (∀ x, x ∈ l → f x ≡ₚ g x) → concat (f <$> l) ≡ₚ concat (g <$> l).
Proof.
  induction l as [|x l IH]; intros Hfg; [done|]. simpl.
  rewrite (Hfg x) by (apply elem_of_cons; by left).
  rewrite IH; [done|]. intros y Hy. apply Hfg. apply elem_of_cons. by right.
Qed.

(** The edge triples of a view, node by node, from the tuple array the
    sorts work on. *)
Lemma edge_triples_slices (t : GraphTopology) :
  shuffle_wf t →
  edge_triples t =
  concat ((λ n, (λ x : PropertyIndex * Node, (n, x.2, x.1))
                  <$> slice (edge_begin t n) (edge_end t n) (edge_tuples t))
            <$> seq 0 (NumNodes t)).
Proof.
  intros Hwf. unfold edge_triples, source_edge_pairs.
  rewrite fmap_concat_fmap. f_equal. apply list_fmap_ext.
  intros k n Hn. apply lookup_seq in Hn as [-> Hn]. simpl in *.
  rename k into n.
  destruct (edge_range_bounds t n (proj1 Hwf) Hn) as [Hbe HeE].
  pose proof (edge_tuples_length t Hwf) as Hlen.
  destruct Hwf as [_ Hepi].
  rewrite <- list_fmap_compose.
  apply list_eq_same_length with (edge_end t n - edge_begin t n).
  - rewrite length_fmap, length_slice; lia.
  - unfold OutEdges, OutDegree. by rewrite length_fmap, length_seq.
  - intros i x y Hi Hx Hy.
    rewrite list_lookup_fmap in Hx. rewrite list_lookup_fmap in Hy.
    unfold OutEdges, OutDegree in Hx.
    rewrite lookup_seq_lt in Hx by done. simpl in Hx. injection Hx as <-.
    unfold slice in Hy. rewrite lookup_take_lt, lookup_drop in Hy by done.
    unfold edge_tuples in Hy.
    destruct (zip (edge_prop_indices_ t) (dests_ t) !! (edge_begin t n + i))
      as [[p d]|] eqn:Hz; [|done].
    simpl in Hy. injection Hy as <-.
    apply lookup_zip_with_Some in Hz as (p' & d' & [= <- <-] & Hp & Hd).
    unfold OutEdgeDst, GetEdgePropertyIndexFromOutEdge. simpl.
    rewrite (list_lookup_total_correct _ _ _ Hd).
    destruct (edge_prop_indices_ t) eqn:Hnil; [done|].
    by rewrite (list_lookup_total_correct _ _ _ Hp).
Qed.

(** A sort over all nodes keeps the edges of the graph. *)
Lemma sort_nodes_triples comp order (t t' : GraphTopology) :
  sort_nodes comp order t t' → shuffle_wf t →
  Forall (λ n, n < NumNodes t) order →
  edge_triples t' ≡ₚ edge_triples t.
Proof.
  intros Hsort Hwf Hord.
  destruct (sort_nodes_any comp order t t' Hsort Hwf Hord)
    as (Hadj & _ & Hwf' & Hperm & _).
  rewrite !edge_triples_slices by done.
  assert (HN : NumNodes t' = NumNodes t) by (unfold NumNodes; by rewrite Hadj).
  rewrite HN. apply Permutation_concat_fmap.
  intros n Hn. apply elem_of_seq in Hn.
  unfold edge_begin, edge_end. rewrite Hadj.
  apply fmap_Permutation. apply Hperm. lia.
Qed.

(** X4: [SortEdgesByDestID] on a well-formed view, whatever the order of
    its edges: every node's edges end up in non-decreasing destination
    order and the view is tagged accordingly; the offsets are unchanged,
    every node keeps its (property index, destination) tuples up to
    order, so the view has the same edges with the same property indices,
    and it is well-formed again. *)
Theorem SortEdgesByDestID_sorts (v v' : EdgeShuffleTopology) :
  shuffle_wf (topo v) → SortEdgesByDestID v v' →
  sorted_by_dest (topo v') ∧
  has_edges_sorted_by v' kSortedByDestID = true ∧
  shuffle_wf (topo v') ∧
  adj_indices_ (topo v') = adj_indices_ (topo v) ∧
  (∀ n, n < NumNodes (topo v) →
     slice (edge_begin (topo v) n) (edge_end (topo v) n) (edge_tuples (topo v'))
       ≡ₚ slice (edge_begin (topo v) n) (edge_end (topo v) n)
            (edge_tuples (topo v))) ∧
  edge_triples (topo v') ≡ₚ edge_triples (topo v).
Proof.
  intros Hwf (order & Hord & Hsort & _ & Htag).
  pose proof (sort_order_nodes _ _ Hord) as Hlt.
  destruct (sort_nodes_any _ order _ _ Hsort Hwf Hlt)
    as (Hadj & _ & Hwf' & Hperm & _ & Hsorted).
  assert (HN : NumNodes (topo v') = NumNodes (topo v))
    by (unfold NumNodes; by rewrite Hadj).
  split_and!; try done.
  - intros n Hn. rewrite HN in Hn.
    assert (Hin : n ∈ order) by (rewrite Hord; apply elem_of_seq; lia).
    specialize (Hsorted n Hin).
    replace (edge_begin (topo v') n) with (edge_begin (topo v) n)
      by (unfold edge_begin; by rewrite Hadj).
    replace (edge_end (topo v') n) with (edge_end (topo v) n)
      by (unfold edge_end; by rewrite Hadj).
    replace (dests_ (topo v')) with ((edge_tuples (topo v')).*2)
      by (unfold edge_tuples; apply snd_zip; destruct Hwf' as [_ Hl];
          unfold NumEdges in Hl; lia).
    rewrite <- fmap_slice.
    apply (StronglySorted_fmap snd (λ x y, comp_dest y x = false));
      [|exact Hsorted].
    intros x y Hxy. by apply comp_dest_key.
  - unfold has_edges_sorted_by. rewrite Htag. done.
  - by eapply sort_nodes_triples.
Qed.

(** The sample view [s1_unsorted] and what the two sorts make of it. *)
Lemma s1_unsorted_sorts :
  shuffle_wf (topo s1_unsorted) ∧
  SortEdgesByDestID s1_unsorted s1_sorted_by_dest ∧
  SortEdgesByTypeThenDest s1_pg s1_unsorted s1_sorted_by_type.
Proof.
  assert (Hsteps : ∀ comp,
    (∀ s, s ∈ [[(1, 1); (0, 2)]; []; [(2, 3)]; [(4, 0); (3, 2)]] →
       StronglySorted (λ x y : nat * nat, comp y x = false) s) →
    sort_nodes comp [0; 1; 2; 3] (topo s1_unsorted) (topo s1_sorted_by_dest)).
  { intros comp Hs.
    eapply sort_nodes_cons.
    { exists [(1, 1); (0, 2)]. split; [split|reflexivity].
      - apply (bool_decide_unpack _). by vm_compute.
      - apply Hs. set_solver. }
    eapply sort_nodes_cons.
    { exists []. split; [split|reflexivity].
      - apply (bool_decide_unpack _). by vm_compute.
      - apply Hs. set_solver. }
    eapply sort_nodes_cons.
    { exists [(2, 3)]. split; [split|reflexivity].
      - apply (bool_decide_unpack _). by vm_compute.
      - apply Hs. set_solver. }
    eapply sort_nodes_cons.
    { exists [(4, 0); (3, 2)]. split; [split|reflexivity].
      - apply (bool_decide_unpack _). by vm_compute.
      - apply Hs. set_solver. }
    apply sort_nodes_nil. }
  split; [|split].
  - repeat split; try (by vm_compute); apply (bool_decide_unpack _); by vm_compute.
  - exists [0; 1; 2; 3]. split; [done|]. split; [|done].
    apply Hsteps. intros s Hs.
    repeat (apply elem_of_cons in Hs as [->|Hs];
            [repeat constructor; by vm_compute|]).
    by apply elem_of_nil in Hs.
  - exists [0; 1; 2; 3]. split; [done|]. split; [|done].
    apply Hsteps. intros s Hs.
    repeat (apply elem_of_cons in Hs as [->|Hs];
            [repeat constructor; by vm_compute|]).
    by apply elem_of_nil in Hs.
Qed.

Lemma SortEdgesByDestID_sorts_witness :
  sorted_by_dest (topo s1_sorted_by_dest) ∧
  has_edges_sorted_by s1_sorted_by_dest kSortedByDestID = true ∧
  shuffle_wf (topo s1_sorted_by_dest) ∧
  adj_indices_ (topo s1_sorted_by_dest) = adj_indices_ (topo s1_unsorted) ∧
  (∀ n, n < NumNodes (topo s1_unsorted) →
     slice (edge_begin (topo s1_unsorted) n) (edge_end (topo s1_unsorted) n)
           (edge_tuples (topo s1_sorted_by_dest))
       ≡ₚ slice (edge_begin (topo s1_unsorted) n) (edge_end (topo s1_unsorted) n)
            (edge_tuples (topo s1_unsorted))) ∧
  edge_triples (topo s1_sorted_by_dest) ≡ₚ edge_triples (topo s1_unsorted).
Proof.
  apply (SortEdgesByDestID_sorts s1_unsorted s1_sorted_by_dest).
  - apply s1_unsorted_sorts.
  - apply s1_unsorted_sorts.
Defined.

(** X5: [SortEdgesByTypeThenDest] on a well-formed view, whatever the
    order of its edges: every node's edges end up in non-decreasing
    (edge type, destination) order, the type being that of the edge's
    property index, and the view is tagged as sorted by edge type; the
    offsets are unchanged, every node keeps its (property index,
    destination) tuples up to order, so the view has the same edges with
    the same property indices, and it is well-formed again. *)
Theorem SortEdgesByTypeThenDest_sorts (pg : PropertyGraph)
    (v v' : EdgeShuffleTopology) :
  shuffle_wf (topo v) → SortEdgesByTypeThenDest pg v v' →
  sorted_by_type_then_dest pg (topo v') ∧
  has_edges_sorted_by v' kSortedByEdgeType = true ∧
  shuffle_wf (topo v') ∧
  adj_indices_ (topo v') = adj_indices_ (topo v) ∧
  (∀ n, n < NumNodes (topo v) →
     slice (edge_begin (topo v) n) (edge_end (topo v) n) (edge_tuples (topo v'))
       ≡ₚ slice (edge_begin (topo v) n) (edge_end (topo v) n)
            (edge_tuples (topo v))) ∧
  edge_triples (topo v') ≡ₚ edge_triples (topo v).
Proof.
  intros Hwf (order & Hord & Hsort & _ & Htag).
  pose proof (sort_order_nodes _ _ Hord) as Hlt.
  destruct (sort_nodes_any _ order _ _ Hsort Hwf Hlt)
    as (Hadj & _ & Hwf' & Hperm & _ & Hsorted).
  assert (HN : NumNodes (topo v') = NumNodes (topo v))
    by (unfold NumNodes; by rewrite Hadj).
  split_and!; try done.
  - intros n Hn. rewrite HN in Hn.
    assert (Hin : n ∈ order) by (rewrite Hord; apply elem_of_seq; lia).
    specialize (Hsorted n Hin).
    replace (edge_begin (topo v') n) with (edge_begin (topo v) n)
      by (unfold edge_begin; by rewrite Hadj).
    replace (edge_end (topo v') n) with (edge_end (topo v) n)
      by (unfold edge_end; by rewrite Hadj).
    apply (StronglySorted_fmap (type_dest_key pg)
             (λ x y, comp_type_dest pg y x = false)); [|exact Hsorted].
    intros x y Hxy. by apply comp_type_dest_key.
  - unfold has_edges_sorted_by. rewrite Htag. done.
  - by eapply sort_nodes_triples.
Qed.

Lemma SortEdgesByTypeThenDest_sorts_witness :
  sorted_by_type_then_dest s1_pg (topo s1_sorted_by_type) ∧
  has_edges_sorted_by s1_sorted_by_type kSortedByEdgeType = true ∧
  shuffle_wf (topo s1_sorted_by_type) ∧
  adj_indices_ (topo s1_sorted_by_type) = adj_indices_ (topo s1_unsorted) ∧
  (∀ n, n < NumNodes (topo s1_unsorted) →
     slice (edge_begin (topo s1_unsorted) n) (edge_end (topo s1_unsorted) n)
           (edge_tuples (topo s1_sorted_by_type))
       ≡ₚ slice (edge_begin (topo s1_unsorted) n) (edge_end (topo s1_unsorted) n)
            (edge_tuples (topo s1_unsorted))) ∧
  edge_triples (topo s1_sorted_by_type) ≡ₚ edge_triples (topo s1_unsorted).
Proof.
  apply (SortEdgesByTypeThenDest_sorts s1_pg s1_unsorted s1_sorted_by_type).
  - apply s1_unsorted_sorts.
  - apply s1_unsorted_sorts.
Defined.

(** * Further properties of the transposition *)

(** X6: One transposition of a well-formed topology (empty or not),
    whatever the order in which the atomic increments of its parallel
    loops take effect: the view is well-formed with one property index per
    edge and tagged transposed and unsorted, it has the nodes and the
    number of edges of the base, the out-degree of every node is its
    in-degree in the base, and its edges are the edges of the base
    reversed, each with the property index it resolves to in the base. *)
Theorem MakeTransposeCopy_reverses_edges (t : GraphTopology)
    (count_order : list Edge) (scatter_order : list (Node * Edge)) :
  well_formed t →
  count_order ≡ₚ seq 0 (NumEdges t) →
  scatter_order ≡ₚ source_edge_pairs t →
  let T := MakeTransposeCopy t count_order scatter_order in
  tpose_state_ T = kYes ∧ edge_sort_state_ T = kAny ∧
  shuffle_wf (topo T) ∧
  NumNodes (topo T) = NumNodes t ∧ NumEdges (topo T) = NumEdges t ∧
  (∀ d, d < NumNodes t → OutDegree (topo T) d = in_degree t d) ∧
  edge_triples (topo T)
    ≡ₚ (λ x : Node * Node * PropertyIndex, (x.1.2, x.1.1, x.2)) <$> edge_triples t.
Proof.
  intros Hwf Hco Hso T. subst T.
  destruct (decide (NumNodes t = 0)) as [HN|HN].
  - assert (Hempty : MakeTransposeCopy t count_order scatter_order
             = mkEdgeShuffleTopology kYes kAny (mkGraphTopology [] [] [] [])).
    { unfold MakeTransposeCopy, empty. by rewrite bool_decide_eq_true_2. }
    assert (HE : NumEdges t = 0).
    { destruct Hwf as (_ & Hlast & _). unfold NumNodes in HN.
      apply nil_length_inv in HN. rewrite HN in Hlast. by rewrite <- Hlast. }
    rewrite Hempty. simpl. split_and!; try done.
    + repeat split; try done; constructor.
    + intros d Hd. lia.
    + unfold edge_triples, source_edge_pairs. by rewrite HN.
  - destruct (transpose_arrays t count_order scatter_order Hwf HN Hco Hso)
      as (Hadj & Hld & Hle & _).
    destruct (transpose_ranges t count_order scatter_order Hwf HN Hco Hso)
      as (HN1 & HE1 & Hrange).
    split; [unfold MakeTransposeCopy; by destruct (empty t)|].
    split; [unfold MakeTransposeCopy; by destruct (empty t)|].
    split; [split; [by apply transpose_well_formed|by rewrite HE1]|].
    split_and!.
    + done.
    + done.
    + intros d Hd. destruct (Hrange d Hd) as [Hb He].
      unfold OutDegree. rewrite Hb, He, in_offset_S. lia.
    + by apply transpose_triples.
Qed.

Lemma MakeTransposeCopy_reverses_edges_witness :
  let T := MakeTransposeCopy s1_topology [4; 0; 2; 1; 3]
             [(3, 3); (0, 0); (2, 2); (3, 4); (0, 1)] in
  tpose_state_ T = kYes ∧ edge_sort_state_ T = kAny ∧
  shuffle_wf (topo T) ∧
  NumNodes (topo T) = NumNodes s1_topology ∧
  NumEdges (topo T) = NumEdges s1_topology ∧
  (∀ d, d < NumNodes s1_topology → OutDegree (topo T) d = in_degree s1_topology d) ∧
  edge_triples (topo T)
    ≡ₚ (λ x : Node * Node * PropertyIndex, (x.1.2, x.1.1, x.2))
         <$> edge_triples s1_topology.
Proof.
  apply (MakeTransposeCopy_reverses_edges s1_topology [4; 0; 2; 1; 3]
           [(3, 3); (0, 0); (2, 2); (3, 4); (0, 1)]).
  - repeat split; try (by vm_compute); apply (bool_decide_unpack _); by vm_compute.
  - apply (bool_decide_unpack _). by vm_compute.
  - apply (bool_decide_unpack _). by vm_compute.
Defined.

(** * The original copy and the random topology *)

(** What [Copy] returns, by cases on the edge property index array. *)
Lemma Copy_cases (that : GraphTopology) :
  Copy that =
  match edge_prop_indices_ that with
  | [] => Some (mkGraphTopology (adj_indices_ that) (dests_ that) [] [])
  | _ =>
    if decide (NumEdges that ≤ length (edge_prop_indices_ that)) then
      if decide (NumNodes that ≤ length (edge_prop_indices_ that)) then
        Some (mkGraphTopology (adj_indices_ that) (dests_ that)
                (take (NumEdges that) (edge_prop_indices_ that))
                (take (NumNodes that) (edge_prop_indices_ that)))
      else None
    else None
  end.
Proof.
  unfold Copy, GraphTopology_from_arrays. rewrite !copy_range_whole.
  destruct (edge_prop_indices_ that) as [|x l] eqn:Hep; [done|].
  unfold NumEdges, NumNodes. cbn [data copy_range mbind option_bind].
  repeat case_decide; done.
Qed.

Lemma edge_triples_ext (t t' : GraphTopology) :
  well_formed t →
  adj_indices_ t' = adj_indices_ t → dests_ t' = dests_ t →
  (∀ e, e < NumEdges t →
     GetEdgePropertyIndexFromOutEdge t' e = GetEdgePropertyIndexFromOutEdge t e) →
  edge_triples t' = edge_triples t.
Proof.
  intros Hwf Hadj Hd Hprop. unfold edge_triples.
  assert (Hpairs : source_edge_pairs t' = source_edge_pairs t).
  { unfold source_edge_pairs, NumNodes, OutEdges, OutDegree, edge_begin, edge_end.
    by rewrite Hadj. }
  rewrite Hpairs. apply list_fmap_ext. intros i se Hse.
  unfold OutEdgeDst. rewrite Hd. f_equal. apply Hprop.
  assert (Hin : se.2 ∈ (source_edge_pairs t).*2).
  { apply list_elem_of_fmap_2. by eapply list_elem_of_lookup_2. }
  rewrite (source_edge_pairs_edges t Hwf) in Hin.
  apply elem_of_seq in Hin. lia.
Qed.

(** What [MakeOriginalCopy] returns on a well-formed base topology. *)
Lemma MakeOriginalCopy_cases (pg : PropertyGraph) :
  base_wf (topology pg) →
  MakeOriginalCopy pg =
  if decide (edge_prop_indices_ (topology pg) ≠ [] ∧
             NumEdges (topology pg) < NumNodes (topology pg))
  then None
  else Some (mkEdgeShuffleTopology kNo kAny
               (mkGraphTopology (adj_indices_ (topology pg)) (dests_ (topology pg))
                  (match edge_prop_indices_ (topology pg) with
                   | [] => seq 0 (NumEdges (topology pg))
                   | _ => edge_prop_indices_ (topology pg)
                   end)
                  (take (NumNodes (topology pg))
                        (edge_prop_indices_ (topology pg))))).
Proof.
  intros [Hwf Hepi]. set (t := topology pg) in *.
  unfold MakeOriginalCopy. fold t. rewrite Copy_cases.
  destruct (edge_prop_indices_ t) as [|x l] eqn:Hep.
  - rewrite decide_False by (by intros [? _]). by rewrite take_nil.
  - destruct Hepi as [|Hlen]; [done|].
    rewrite (decide_True (P := NumEdges t ≤ length (x :: l))) by lia.
    destruct (decide (NumNodes t ≤ length (x :: l))) as [HN|HN].
    + rewrite decide_False by (intros [_ ?]; lia).
      cbn [mbind option_bind edge_prop_indices_ adj_indices_ dests_
           node_prop_indices_].
      by rewrite (take_ge (x :: l) (NumEdges t)) by lia.
    + by rewrite decide_True by (split; [done|lia]).
Qed.

(** The view it returns has the edges of the base. *)
Lemma original_copy_facts (t : GraphTopology) (npi : list PropertyIndex) :
  base_wf t →
  let t' := mkGraphTopology (adj_indices_ t) (dests_ t)
              (match edge_prop_indices_ t with
               | [] => seq 0 (NumEdges t)
               | _ => edge_prop_indices_ t
               end) npi in
  shuffle_wf t' ∧
  (∀ e, e < NumEdges t →
     GetEdgePropertyIndexFromOutEdge t' e = GetEdgePropertyIndexFromOutEdge t e) ∧
  edge_triples t' = edge_triples t.
Proof.
  intros [Hwf Hepi] t'.
  assert (Hprop : ∀ e, e < NumEdges t →
     GetEdgePropertyIndexFromOutEdge t' e = GetEdgePropertyIndexFromOutEdge t e).
  { intros e He. unfold GetEdgePropertyIndexFromOutEdge, t'. simpl.
    destruct (edge_prop_indices_ t) as [|x l] eqn:Hep; [|done].
    destruct (seq 0 (NumEdges t)) as [|y s] eqn:Hs; [done|].
    rewrite <- Hs. by rewrite lookup_total_seq_lt. }
  split; [|split; [done|by apply edge_triples_ext]].
  split; [exact Hwf|]. unfold t', NumEdges. simpl.
  destruct (edge_prop_indices_ t) as [|x l] eqn:Hep; [by rewrite length_seq|].
  by destruct Hepi.
Qed.

(** X7: [MakeOriginalCopy] on a well-formed base topology.  It reads past
    the edge property index array exactly when the base stores edge
    property indices and has more nodes than edges.  Otherwise the view
    is tagged not transposed and unsorted, has the offsets and
    destinations of the base and one property index per edge, every edge
    resolves to the property index it has in the base (the identity when
    the base stores none), so the edges are those of the base; its node
    property indices are the first [NumNodes] edge property indices of
    the base. *)
Theorem MakeOriginalCopy_same_graph (pg : PropertyGraph) :
  base_wf (topology pg) →
  (MakeOriginalCopy pg = None ↔
   edge_prop_indices_ (topology pg) ≠ [] ∧
   NumEdges (topology pg) < NumNodes (topology pg)) ∧
  ∀ v, MakeOriginalCopy pg = Some v →
    tpose_state_ v = kNo ∧ edge_sort_state_ v = kAny ∧
    adj_indices_ (topo v) = adj_indices_ (topology pg) ∧
    dests_ (topo v) = dests_ (topology pg) ∧
    shuffle_wf (topo v) ∧
    (∀ e, e < NumEdges (topology pg) →
       GetEdgePropertyIndexFromOutEdge (topo v) e
         = GetEdgePropertyIndexFromOutEdge (topology pg) e) ∧
    edge_triples (topo v) = edge_triples (topology pg) ∧
    node_prop_indices_ (topo v)
      = take (NumNodes (topology pg)) (edge_prop_indices_ (topology pg)).
Proof.
  intros Hwf. rewrite (MakeOriginalCopy_cases pg Hwf).
  case_decide as Hcase.
  - split; [done|]. by intros v.
  - split; [split; [done|by intros ?]|].
    intros v [= <-]. cbn [tpose_state_ edge_sort_state_ topo].
    destruct (original_copy_facts (topology pg)
                (take (NumNodes (topology pg)) (edge_prop_indices_ (topology pg)))
                Hwf) as (Hswf & Hprop & Htri).
    by split_and!.
Qed.

Lemma MakeOriginalCopy_same_graph_witness :
  (MakeOriginalCopy s1_pg = None ↔
   edge_prop_indices_ (topology s1_pg) ≠ [] ∧
   NumEdges (topology s1_pg) < NumNodes (topology s1_pg)) ∧
  ∀ v, MakeOriginalCopy s1_pg = Some v →
    tpose_state_ v = kNo ∧ edge_sort_state_ v = kAny ∧
    adj_indices_ (topo v) = adj_indices_ (topology s1_pg) ∧
    dests_ (topo v) = dests_ (topology s1_pg) ∧
    shuffle_wf (topo v) ∧
    (∀ e, e < NumEdges (topology s1_pg) →
       GetEdgePropertyIndexFromOutEdge (topo v) e
         = GetEdgePropertyIndexFromOutEdge (topology s1_pg) e) ∧
    edge_triples (topo v) = edge_triples (topology s1_pg) ∧
    node_prop_indices_ (topo v)
      = take (NumNodes (topology s1_pg)) (edge_prop_indices_ (topology s1_pg)).
Proof.
  apply (MakeOriginalCopy_same_graph s1_pg).
  split; [|by left].
  repeat split; try (by vm_compute); apply (bool_decide_unpack _); by vm_compute.
Defined.

Lemma lookup_partial_sum_replicate n k i :
  i < n → partial_sum (replicate n k) !! i = Some (S i * k).
Proof.
  intros Hi. unfold partial_sum.
  rewrite lookup_partial_sum_from by (by rewrite length_replicate).
  rewrite take_replicate, sum_list_replicate. f_equal.
  replace (S i `min` n) with (S i) by lia. lia.
Qed.

Lemma wrap_bits_small w x : (Z.of_nat x < 2 ^ w)%Z → wrap_bits w x = x.
Proof.
  intros Hx. unfold wrap_bits.
  rewrite Z.mod_small by (split; [lia|exact Hx]). apply Nat2Z.id.
Qed.

Lemma wrap_bits_le w x : (0 ≤ w)%Z → wrap_bits w x ≤ x.
Proof.
  intros Hw. unfold wrap_bits.
  assert (0 < 2 ^ w)%Z by (apply Z.pow_pos_nonneg; lia).
  pose proof (Z.mod_le (Z.of_nat x) (2 ^ w) ltac:(lia) ltac:(lia)).
  pose proof (Z.mod_pos_bound (Z.of_nat x) (2 ^ w) ltac:(lia)). lia.
Qed.

(** The assertion on the last offset never fires. *)
Lemma uniform_last_offset n k :
  0 < n →
  let adj_indices := wrap_bits 64 <$> partial_sum (replicate n k) in
  bool_decide (0 < length adj_indices) &&
  bool_decide (adj_indices !!! (length adj_indices - 1) = wrap_bits 64 (n * k))
  = true.
Proof.
  intros Hn adj_indices. subst adj_indices.
  rewrite length_fmap, length_partial_sum, length_replicate.
  rewrite bool_decide_eq_true_2 by done. simpl.
  apply bool_decide_eq_true_2.
  apply list_lookup_total_correct.
  rewrite list_lookup_fmap, lookup_partial_sum_replicate by lia.
  replace (S (n - 1)) with n by lia. done.
Qed.

(** X8: [CreateUniformRandomTopology] for [0 < edges_per_node <=
    num_nodes], a number of edges that fits 64 bits and a generator that
    keeps to its bounds: it returns a well-formed topology without
    property indices, with [num_nodes] nodes and [num_nodes *
    edges_per_node] edges, in which every node has exactly
    [edges_per_node] out-edges. *)
Theorem CreateUniformRandomTopology_uniform (num_nodes edges_per_node : nat)
    (gen : Node → Node → nat → Node) :
  0 < edges_per_node → edges_per_node ≤ num_nodes →
  (Z.of_nat num_nodes * Z.of_nat edges_per_node < 2 ^ 64)%Z →
  (∀ lo hi i, lo ≤ hi → lo ≤ gen lo hi i ∧ gen lo hi i ≤ hi) →
  ∃ t, CreateUniformRandomTopology num_nodes edges_per_node gen = Some t ∧
    well_formed t ∧
    NumNodes t = num_nodes ∧ NumEdges t = num_nodes * edges_per_node ∧
    (∀ n, n < num_nodes → OutDegree t n = edges_per_node) ∧
    edge_prop_indices_ t = [] ∧ node_prop_indices_ t = [].
Proof.
  intros Hk Hkn Hfit Hgen. unfold CreateUniformRandomTopology.
  rewrite (bool_decide_eq_true_2 (0 < edges_per_node)) by done.
  cbn [ASSERT mbind option_bind].
  rewrite decide_False by lia.
  rewrite (bool_decide_eq_true_2 (edges_per_node ≤ num_nodes)) by done.
  cbn [ASSERT mbind option_bind].
  rewrite uniform_last_offset by lia. cbn [ASSERT mbind option_bind].
  eexists. split; [reflexivity|].
  assert (HE : wrap_bits 64 (num_nodes * edges_per_node)
               = num_nodes * edges_per_node)
    by (apply wrap_bits_small; lia).
  assert (Hadj : ∀ i, i < num_nodes →
            (wrap_bits 64 <$> partial_sum (replicate num_nodes edges_per_node))
              !! i = Some (S i * edges_per_node)).
  { intros i Hi. rewrite list_lookup_fmap, lookup_partial_sum_replicate by done.
    simpl. f_equal. apply wrap_bits_small. nia. }
  assert (Hlen : length (wrap_bits 64
                   <$> partial_sum (replicate num_nodes edges_per_node))
                 = num_nodes)
    by (by rewrite length_fmap, length_partial_sum, length_replicate).
  unfold well_formed, NumNodes, NumEdges, OutDegree, edge_end, edge_begin.
  cbn [adj_indices_ dests_ edge_prop_indices_ node_prop_indices_].
  rewrite Hlen, HE, length_fmap, length_seq.
  split_and!; try done.
  - apply StronglySorted_of_lookup. intros i j a b Hij Ha Hb.
    assert (Hj : j < num_nodes) by (apply lookup_lt_Some in Hb; lia).
    rewrite Hadj in Ha, Hb by lia. injection Ha as <-. injection Hb as <-. nia.
  - rewrite last_lookup, Hlen, Hadj by lia.
    replace (S (pred num_nodes)) with num_nodes by lia. done.
  - apply Forall_fmap, Forall_forall. intros i _. simpl.
    pose proof (wrap_bits_le 32 (num_nodes - 1) ltac:(lia)).
    destruct (Hgen 0 (wrap_bits 32 (num_nodes - 1)) i ltac:(lia)). lia.
  - intros n Hn.
    rewrite (list_lookup_total_correct _ _ _ (Hadj n Hn)).
    destruct n as [|m]; [lia|].
    assert (Hm : m < num_nodes) by lia.
    rewrite (list_lookup_total_correct _ _ _ (Hadj m Hm)). lia.
Qed.

Lemma CreateUniformRandomTopology_uniform_witness :
  ∃ t, CreateUniformRandomTopology 3 2 counting_gen = Some t ∧
    well_formed t ∧
    NumNodes t = 3 ∧ NumEdges t = 3 * 2 ∧
    (∀ n, n < 3 → OutDegree t n = 2) ∧
    edge_prop_indices_ t = [] ∧ node_prop_indices_ t = [].
Proof.
  apply (CreateUniformRandomTopology_uniform 3 2 counting_gen).
  - lia.
  - lia.
  - reflexivity.
  - intros lo hi i Hlo. unfold counting_gen. case_decide; lia.
Defined.

(** X9: [CreateUniformRandomTopology] aborts exactly when
    [edges_per_node] is zero, or exceeds a non-zero [num_nodes]; in
    particular its assertion on the last offset never fires.  For no
    nodes and a positive [edges_per_node] it returns the empty
    topology. *)
Theorem CreateUniformRandomTopology_aborts (num_nodes edges_per_node : nat)
    (gen : Node → Node → nat → Node) :
  (CreateUniformRandomTopology num_nodes edges_per_node gen = None ↔
   edges_per_node = 0 ∨ (0 < num_nodes ∧ num_nodes < edges_per_node)) ∧
  (0 < edges_per_node →
   CreateUniformRandomTopology 0 edges_per_node gen
     = Some (mkGraphTopology [] [] [] [])).
Proof.
  unfold CreateUniformRandomTopology. split.
  - destruct (decide (0 < edges_per_node)) as [Hk|Hk].
    + rewrite (bool_decide_eq_true_2 (0 < edges_per_node)) by done.
      cbn [ASSERT mbind option_bind].
      case_decide as Hn; [split; [done|lia]|].
      destruct (decide (edges_per_node ≤ num_nodes)) as [Hkn|Hkn].
      * rewrite (bool_decide_eq_true_2 (edges_per_node ≤ num_nodes)) by done.
        cbn [ASSERT mbind option_bind].
        rewrite uniform_last_offset by lia. cbn [ASSERT mbind option_bind].
        split; [done|lia].
      * rewrite (bool_decide_eq_false_2 (edges_per_node ≤ num_nodes)) by done.
        cbn [ASSERT mbind option_bind].
        split; [lia|done].
    + rewrite (bool_decide_eq_false_2 (0 < edges_per_node)) by done.
      cbn [ASSERT mbind option_bind].
      split; [lia|done].
  - intros Hk. by rewrite (bool_decide_eq_true_2 (0 < edges_per_node)) by done.
Qed.

(** * Further properties of the property cache *)

Section CacheOrder.
Context {Value : Type}.
Implicit Types (c : Cache.Cache Value) (k : Cache.KeyBase) (v : Value).

Lemma tidy_size c :
  Cache.tidy c → Cache.size c = length (Cache.lru_list_ c).
Proof.
  intros (_ & Hk & Hdom & _). unfold Cache.size.
  rewrite <- (size_dom (D := gset Cache.KeyBase)).
  assert (dom (Cache.key_to_value_ c)
          = (list_to_set (Cache.lru_list_ c).*2 : gset Cache.KeyBase)) as ->.
  { apply set_eq. intros k. rewrite elem_of_dom, elem_of_list_to_set. apply Hdom. }
  rewrite size_list_to_set by done. by rewrite length_fmap.
Qed.

Lemma tidy_linked c : Cache.tidy c → Cache.linked c.
Proof. intros (_ & _ & Hdom & _) k Hk. by apply Hdom. Qed.

(** One round of eviction on a tidy cache: the tail node goes, and with
    it the map entry of its key and the bytes of its value. *)
Lemma evict_tail_tidy c :
  Cache.tidy c → Cache.sized c → Cache.lru_list_ c ≠ [] →
  ∃ c' id ek v it,
    Cache.evict_tail c = Cache.Done c' ∧
    Cache.lru_list_ c = Cache.lru_list_ c' ++ [(id, ek)] ∧
    Cache.key_to_value_ c !! ek = Some (v, it) ∧
    Cache.key_to_value_ c' = delete ek (Cache.key_to_value_ c) ∧
    Cache.next_node_ c' = Cache.next_node_ c ∧
    Cache.total_bytes_ c'
      = match Cache.value_to_bytes_ c with
        | Some f => Cache.wrap64 (Cache.total_bytes_ c - f v)
        | None => Cache.total_bytes_ c
        end ∧
    Cache.evicted_ c'
      = (if Cache.evict_cb_ c then Cache.evicted_ c ++ [ek]
         else Cache.evicted_ c) ∧
    Cache.same_config c c' ∧ Cache.tidy c'.
Proof.
  destruct c as [m l nn tb pol L B cb ev f].
  unfold Cache.tidy, Cache.sized, Cache.same_config, Cache.evict_tail; simpl.
  intros (Hids & Hkeys & Hdom & Hlt) Hs Hne.
  destruct l as [|[id ek] l0 _] using rev_ind; [done|].
  rewrite last_snoc.
  replace (take (pred (length (l0 ++ [(id, ek)]))) (l0 ++ [(id, ek)])) with l0.
  2:{ rewrite length_app; simpl.
      replace (pred (length l0 + 1)) with (length l0) by lia.
      by rewrite take_app_length. }
  rewrite fmap_app in Hids. rewrite fmap_app in Hkeys.
  simpl in Hids, Hkeys.
  apply NoDup_app in Hids as (Hids & _ & _).
  apply NoDup_app in Hkeys as (Hkeys & Hfresh & _).
  apply Forall_app in Hlt as [Hlt _].
  assert (Hek : is_Some (m !! ek)).
  { apply Hdom. rewrite fmap_app. apply elem_of_app. right. simpl.
    by apply list_elem_of_singleton. }
  destruct Hek as [[v it] Hek]. rewrite Hek.
  assert (Htidy : ∀ k, is_Some (delete ek m !! k) ↔ k ∈ l0.*2).
  { intros k. rewrite lookup_delete_is_Some, Hdom, fmap_app, elem_of_app. simpl.
    rewrite list_elem_of_singleton. split.
    - intros [Hkne [Hin| ->]]; done.
    - intros Hin. split; [|by left]. intros ->.
      apply (Hfresh _ Hin). by apply list_elem_of_singleton. }
  destruct f as [f|].
  - eexists _, id, ek, v, it. split; [done|]. simpl. by split_and!.
  - destruct pol.
    + eexists _, id, ek, v, it. split; [done|]. simpl. by split_and!.
    + destruct (Hs eq_refl) as [? ?]; done.
Qed.

(** The eviction loop on a tidy cache: it returns, the list it leaves is
    a front part of the list, and the keys of the nodes that went are
    exactly the keys that left the map; the callback saw them in the order
    in which they went. *)
Lemma evict_loop_tidy fuel c :
  Cache.tidy c → Cache.sized c →
  length (Cache.lru_list_ c) < fuel →
  ∃ c' gone,
    Cache.evict_loop fuel c = Cache.Done c' ∧
    Cache.tidy c' ∧ Cache.same_config c c' ∧
    Cache.over_capacity c' = false ∧
    Cache.lru_list_ c = Cache.lru_list_ c' ++ gone ∧
    Cache.next_node_ c' = Cache.next_node_ c ∧
    (∀ k, Cache.key_to_value_ c' !! k
          = if decide (k ∈ gone.*2) then None
            else Cache.key_to_value_ c !! k) ∧
    Cache.evicted_ c'
      = (if Cache.evict_cb_ c then Cache.evicted_ c ++ reverse gone.*2
         else Cache.evicted_ c) ∧
    (Cache.bytes_exact c → Cache.bytes_exact c') ∧
    ((Cache.policy_ c = Cache.kLRU → 1 ≤ Cache.lru_capacity_ c) →
     Cache.lru_list_ c ≠ [] → Cache.lru_list_ c' ≠ []) ∧
    (Cache.policy_ c = Cache.kLRU → gone ≠ [] →
     length (Cache.lru_list_ c') = Cache.lru_capacity_ c).
Proof.
  revert c. induction fuel as [|fuel IH]; intros c Ht Hs Hlen; [lia|].
  simpl. destruct (Cache.over_capacity c) eqn:Hov.
  2:{ exists c, []. rewrite app_nil_r. simpl.
      split_and!; try done.
      destruct (Cache.evict_cb_ c); [by rewrite app_nil_r|done]. }
  assert (Hsize : Cache.size c = length (Cache.lru_list_ c)) by by apply tidy_size.
  assert (Hne : Cache.lru_list_ c ≠ []).
  { intros Hnil. rewrite Hnil in Hsize. simpl in Hsize.
    unfold Cache.over_capacity in Hov. rewrite Hsize in Hov.
    destruct (Cache.policy_ c); repeat case_bool_decide; simpl in Hov;
      try done; lia. }
  destruct (evict_tail_tidy c Ht Hs Hne)
    as (c1 & id & ek & v & it & -> & Hl1 & Hek & Hm1 & Hnn1 & Hb1 & Hev1
        & Hcfg1 & Ht1).
  assert (Hlen1 : S (length (Cache.lru_list_ c1)) = length (Cache.lru_list_ c)).
  { rewrite Hl1, length_app. simpl. lia. }
  destruct (IH c1 Ht1 (sized_same_config _ _ Hcfg1 Hs) ltac:(lia))
    as (c2 & gone & Hrun & Ht2 & Hcfg2 & Hov2 & Hl2 & Hnn2 & Hm2 & Hev2
        & Hb2 & Hne2 & Hfull2).
  exists c2, (gone ++ [(id, ek)]). split; [done|]. split; [done|].
  split; [by eapply same_config_trans|]. split; [done|].
  split; [by rewrite Hl1, Hl2, (assoc_L (++))|].
  split; [congruence|]. split; [|split; [|split; [|split]]].
  - intros k. rewrite Hm2, Hm1, fmap_app. simpl.
    destruct (decide (k ∈ gone.*2)) as [Hin|Hnin].
    + rewrite decide_True; [done|]. apply elem_of_app. by left.
    + destruct (decide (k = ek)) as [->|Hkne].
      * rewrite lookup_delete_eq. rewrite decide_True; [done|].
        apply elem_of_app. right. by apply list_elem_of_singleton.
      * rewrite lookup_delete_ne by done. rewrite decide_False; [done|].
        rewrite elem_of_app, list_elem_of_singleton. tauto.
  - rewrite Hev2, Hev1. destruct Hcfg1 as (_ & _ & _ & -> & _).
    destruct (Cache.evict_cb_ c); [|done].
    rewrite fmap_app. change ([(id, ek)].*2) with [ek].
    by rewrite reverse_app, reverse_singleton, (assoc_L (++)).
  - intros Hexact. apply Hb2. intros f Hf.
    destruct Hcfg1 as (_ & _ & _ & _ & Hf1). rewrite Hf1 in Hf.
    rewrite Hb1, Hf, (Hexact f Hf), Hm1. unfold Cache.wrap64, Cache.stored_bytes.
    rewrite <- (insert_delete_id (Cache.key_to_value_ c) ek (v, it) Hek) at 1.
    rewrite map_fold_insert_L.
    + simpl. rewrite Zminus_mod_idemp_l. f_equal. lia.
    + intros. lia.
    + apply lookup_delete_eq.
  - intros HL Hne0. apply Hne2.
    + destruct Hcfg1 as (-> & -> & _). exact HL.
    + intros Hnil. rewrite Hnil in Hlen1. simpl in Hlen1.
      unfold Cache.over_capacity in Hov. rewrite Hsize, <- Hlen1 in Hov.
      destruct (Cache.policy_ c) eqn:Hpol; repeat case_bool_decide;
        simpl in Hov; try done; try lia.
      specialize (HL eq_refl). lia.
  - intros Hpol _. destruct Hcfg1 as (Hp1 & HL1 & _).
    destruct gone as [|g gone].
    + rewrite app_nil_r in Hl2. rewrite <- Hl2.
      pose proof (tidy_size c2 Ht2) as Hsz2. rewrite <- Hl2 in Hsz2.
      destruct Hcfg2 as (Hp2 & HLc2 & _).
      unfold Cache.over_capacity in Hov, Hov2.
      rewrite Hp2, Hp1, Hpol in Hov2. rewrite Hpol in Hov.
      apply bool_decide_eq_true_1 in Hov. apply bool_decide_eq_false_1 in Hov2.
      rewrite HLc2, HL1 in Hov2. lia.
    + rewrite <- HL1. apply Hfull2; [congruence|done].
Qed.

(** [Insert] of a key that is not stored, on a tidy cache: the state after
    the push is tidy, and the eviction loop runs on it. *)
Lemma Insert_fresh_run c k v :
  Cache.tidy c → Cache.sized c → Cache.key_to_value_ c !! k = None →
  ∃ c' gone,
    Cache.Insert c k v = Cache.Done c' ∧
    Cache.tidy c' ∧ Cache.same_config c c' ∧
    Cache.over_capacity c' = false ∧
    (Cache.next_node_ c, k) :: Cache.lru_list_ c = Cache.lru_list_ c' ++ gone ∧
    (∀ k', Cache.key_to_value_ c' !! k'
           = if decide (k' ∈ gone.*2) then None
             else <[k := (v, Cache.next_node_ c)]> (Cache.key_to_value_ c) !! k') ∧
    Cache.evicted_ c'
      = (if Cache.evict_cb_ c then Cache.evicted_ c ++ reverse gone.*2
         else Cache.evicted_ c) ∧
    (Cache.bytes_exact c → Cache.bytes_exact c') ∧
    ((Cache.policy_ c = Cache.kLRU → 1 ≤ Cache.lru_capacity_ c) →
     (k ∉ gone.*2) ∧
     ∃ rest, Cache.lru_list_ c' = (Cache.next_node_ c, k) :: rest ∧
             Cache.lru_list_ c = rest ++ gone) ∧
    (Cache.policy_ c = Cache.kLRU → gone ≠ [] →
     length (Cache.lru_list_ c') = Cache.lru_capacity_ c) ∧
    Cache.next_node_ c' = S (Cache.next_node_ c).
Proof.
  intros Ht Hs Hk. unfold Cache.Insert.
  rewrite evict_if_necessary_sized by exact Hs.
  destruct Ht as (Hids & Hkeys & Hdom & Hlt).
  assert (Hknew : k ∉ (Cache.lru_list_ c).*2).
  { intros Hin. apply Hdom in Hin as [x Hx]. congruence. }
  match goal with |- ∃ c' gone, Cache.evict_loop _ ?c0 = _ ∧ _ =>
    destruct (evict_loop_tidy (S (length (Cache.lru_list_ c0))) c0)
      as (c' & gone & Hrun & Ht' & Hcfg & Hov & Hl & Hnn & Hm & Hev & Hb & Hne
          & Hfull)
  end.
  - unfold Cache.tidy. simpl. split_and!.
    + apply NoDup_cons. split; [|done]. intros Hin.
      apply list_elem_of_fmap in Hin as ([id k0] & Hid & Hin). simpl in Hid.
      rewrite Forall_forall in Hlt. specialize (Hlt _ Hin). simpl in Hlt. lia.
    + apply NoDup_cons. by split.
    + intros k'. rewrite lookup_insert_is_Some, elem_of_cons, Hdom.
      destruct (decide (k = k')) as [->|Hkk]; [split; by left|].
      split; [intros [?|[_ ?]]; [done|by right]|].
      intros [?|?]; [by subst|by right].
    + constructor; [simpl; lia|]. eapply Forall_impl; [exact Hlt|].
      simpl. intros. lia.
  - exact Hs.
  - lia.
  - simpl in *. exists c', gone. split_and!; try done.
    + intros Hexact. apply Hb. intros f Hf. simpl in *.
      rewrite Hf, (Hexact f Hf). unfold Cache.stored_bytes, Cache.wrap64.
      rewrite map_fold_insert_L; [|intros; lia|done].
      simpl. by rewrite Zplus_mod_idemp_l.
    + intros HL. specialize (Hne HL ltac:(done)).
      destruct (Cache.lru_list_ c') as [|n0 rest] eqn:Hl'; [done|].
      simpl in Hl. injection Hl as <- Hl. split; [|by exists rest].
      intros Hin. apply Hknew. rewrite Hl, fmap_app. apply elem_of_app. by right.
Qed.

(** X10: [Insert] of a key that is not stored, into a tidy cache whose map
    entries hold the iterators of their nodes (an LRU cache has a capacity
    of at least one, as the constructor asserts): the call returns a cache
    of the same kind in which the key is stored at the most recently used
    end, a [Get] of the key right after returns the inserted value and
    changes nothing, every other key that is still stored has the entry
    it had, and the list behind the new node is a front part of the old
    list. *)
Theorem Insert_fresh_then_Get c k v :
  Cache.tidy c → Cache.anchored c → Cache.sized c →
  (Cache.policy_ c = Cache.kLRU → 1 ≤ Cache.lru_capacity_ c) →
  Cache.key_to_value_ c !! k = None →
  ∃ c', Cache.Insert c k v = Cache.Done c' ∧
    Cache.tidy c' ∧ Cache.anchored c' ∧
    Cache.Contains c' k = true ∧
    Cache.Get c' k = Cache.Done (c', Some v) ∧
    (∀ k', k' ≠ k → Cache.Contains c' k' = true →
           Cache.key_to_value_ c' !! k' = Cache.key_to_value_ c !! k') ∧
    ∃ rest, Cache.lru_list_ c' = (Cache.next_node_ c, k) :: rest ∧
            rest `prefix_of` Cache.lru_list_ c.
Proof.
  intros Ht Ha Hs HL Hk.
  destruct (Insert_fresh_run c k v Ht Hs Hk)
    as (c' & gone & Hrun & Ht' & _ & _ & _ & Hm & _ & _ & Hhead & _ & _).
  destruct (Hhead HL) as (Hkg & rest & Hl' & Hl).
  assert (Hmk : Cache.key_to_value_ c' !! k = Some (v, Cache.next_node_ c)).
  { rewrite Hm, decide_False by done. apply lookup_insert_eq. }
  exists c'. split; [done|]. split; [done|]. split_and!.
  - intros k' v' it' Hk'. rewrite Hm in Hk'.
    destruct (decide (k' ∈ gone.*2)) as [|Hng]; [done|].
    destruct (decide (k = k')) as [<-|Hne].
    + rewrite lookup_insert_eq in Hk'. injection Hk' as <- <-.
      rewrite Hl'. by left.
    + rewrite lookup_insert_ne in Hk' by done.
      apply Ha in Hk'. rewrite Hl in Hk'. rewrite Hl'. right.
      apply elem_of_app in Hk' as [?|Hin]; [done|].
      exfalso. apply Hng. by apply (list_elem_of_fmap_2 snd) in Hin.
  - unfold Cache.Contains. apply bool_decide_eq_true_2. by rewrite Hmk.
  - unfold Cache.Get. rewrite Hmk, Hl'. by rewrite decide_False by auto.
  - intros k' Hne Hc. unfold Cache.Contains in Hc.
    apply bool_decide_eq_true_1 in Hc. rewrite Hm in Hc |- *.
    destruct (decide (k' ∈ gone.*2)); [by destruct Hc|].
    by rewrite lookup_insert_ne.
  - exists rest. split; [done|]. by exists gone.
Qed.

(** X11: [Insert] of a key that is not stored, into a tidy LRU cache that
    is within its capacity [L >= 1].  Below capacity nothing is evicted.
    At capacity exactly the key at the least recently used end of the
    list leaves the cache, and the callback is called with that key,
    once. *)
Theorem Insert_fresh_evicts_lru_tail c k v :
  Cache.tidy c → Cache.policy_ c = Cache.kLRU →
  1 ≤ Cache.lru_capacity_ c → Cache.size c ≤ Cache.lru_capacity_ c →
  Cache.key_to_value_ c !! k = None →
  ∃ c', Cache.Insert c k v = Cache.Done c' ∧
    if decide (Cache.size c < Cache.lru_capacity_ c) then
      Cache.lru_list_ c' = (Cache.next_node_ c, k) :: Cache.lru_list_ c ∧
      Cache.key_to_value_ c'
        = <[k := (v, Cache.next_node_ c)]> (Cache.key_to_value_ c) ∧
      Cache.evicted_ c' = Cache.evicted_ c
    else
      ∃ l0 id ek,
        Cache.lru_list_ c = l0 ++ [(id, ek)] ∧
        Cache.lru_list_ c' = (Cache.next_node_ c, k) :: l0 ∧
        Cache.key_to_value_ c'
          = delete ek (<[k := (v, Cache.next_node_ c)]> (Cache.key_to_value_ c)) ∧
        Cache.Contains c' ek = false ∧
        Cache.evicted_ c'
          = (if Cache.evict_cb_ c then Cache.evicted_ c ++ [ek]
             else Cache.evicted_ c).
Proof.
  intros Ht Hpol HL Hcap Hk.
  destruct (Insert_fresh_run c k v Ht ltac:(by intros ?; congruence) Hk)
    as (c' & gone & Hrun & Ht' & Hcfg & Hov & _ & Hm & Hev & _ & Hhead & Hfull
        & _).
  destruct (Hhead ltac:(done)) as (Hkg & rest & Hl' & Hl).
  exists c'. split; [done|].
  pose proof (tidy_size c Ht) as Hsz. pose proof (tidy_size c' Ht') as Hsz'.
  rewrite Hl' in Hsz', Hfull. rewrite Hl, length_app in Hsz. simpl in Hsz', Hfull.
  destruct Hcfg as (Hp' & HL' & _).
  unfold Cache.over_capacity in Hov. rewrite Hp', Hpol, HL' in Hov.
  apply bool_decide_eq_false_1 in Hov.
  case_decide as Hbelow.
  - assert (gone = []) as ->.
    { destruct gone as [|g gone]; [done|].
      specialize (Hfull Hpol ltac:(done)). simpl in Hsz. lia. }
    rewrite app_nil_r in Hl. subst rest. split; [done|].
    split; [|by destruct (Cache.evict_cb_ c); rewrite ?app_nil_r in Hev].
    apply map_eq. intros k'. rewrite Hm. by rewrite decide_False by apply not_elem_of_nil.
  - destruct gone as [|[id ek] gone].
    { simpl in Hsz. lia. }
    specialize (Hfull Hpol ltac:(done)).
    assert (gone = []) as ->.
    { destruct gone; [done|]. simpl in Hsz. lia. }
    exists rest, id, ek. split; [done|]. split; [done|].
    assert (Hmap : Cache.key_to_value_ c'
              = delete ek (<[k := (v, Cache.next_node_ c)]> (Cache.key_to_value_ c))).
    { apply map_eq. intros k'. rewrite Hm. simpl.
      destruct (decide (k' = ek)) as [->|Hne].
      - rewrite decide_True by (by left). by rewrite lookup_delete_eq.
      - rewrite decide_False; [by rewrite lookup_delete_ne|].
        intros Hin. apply elem_of_cons in Hin as [?|Hin]; [done|].
        by apply elem_of_nil in Hin. }
    split; [done|]. split; [|done].
    unfold Cache.Contains. apply bool_decide_eq_false_2.
    rewrite Hmap, lookup_delete_eq. by intros [? ?].
Qed.

(** X12: [Insert] of a key that is not stored keeps the byte counter
    exact: on a tidy cache whose counter is the sum of the bytes of the
    stored values (in [size_t] arithmetic), the call returns a tidy cache
    whose counter is again the sum of the bytes of the values it stores,
    whatever was evicted. *)
Theorem Insert_fresh_bytes_exact c k v :
  Cache.tidy c → Cache.sized c → Cache.bytes_exact c →
  Cache.key_to_value_ c !! k = None →
  ∃ c', Cache.Insert c k v = Cache.Done c' ∧
    Cache.tidy c' ∧ Cache.sized c' ∧ Cache.bytes_exact c' ∧
    ∀ f, Cache.value_to_bytes_ c = Some f →
      Cache.bytes c' = Cache.wrap64 (Cache.stored_bytes f (Cache.key_to_value_ c')).
Proof.
  intros Ht Hs Hb Hk.
  destruct (Insert_fresh_run c k v Ht Hs Hk)
    as (c' & gone & Hrun & Ht' & Hcfg & _ & _ & _ & _ & Hb' & _ & _ & _).
  exists c'. split; [done|]. split; [done|].
  split; [by eapply sized_same_config|]. split; [by apply Hb'|].
  intros f Hf. apply (Hb' Hb). destruct Hcfg as (_ & _ & _ & _ & ->). done.
Qed.

(** The keys of a list of nodes with pairwise distinct keys, without the
    node at position [i]. *)
Lemma delete_node_keys (l : list (nat * Cache.KeyBase)) i it k :
  NoDup l.*2 → l !! i = Some (it, k) →
  (delete i l).*2 = filter (λ k', k' ≠ k) l.*2.
Proof.
  revert i. induction l as [|[id k0] l IH]; intros i Hnd Hi; [done|].
  rewrite fmap_cons in Hnd. apply NoDup_cons in Hnd as [Hk0 Hnd].
  rewrite fmap_cons, filter_cons. simpl in *.
  destruct i as [|i]; simpl in *.
  - injection Hi as -> ->. rewrite decide_False by auto.
    symmetry. apply filter_all. apply Forall_forall. intros k' Hk' ->. done.
  - rewrite decide_True.
    + f_equal. by apply IH.
    + intros ->. apply Hk0. apply list_elem_of_lookup_2 in Hi.
      by apply (list_elem_of_fmap_2 snd) in Hi.
Qed.

(** Where [splice_front] finds a node whose identity is unique. *)
Lemma splice_front_node (l : list (nat * Cache.KeyBase)) i it k :
  NoDup l.*1 → l !! i = Some (it, k) →
  Cache.splice_front l it = Some ((it, k) :: delete i l).
Proof.
  intros Hnd Hi. unfold Cache.splice_front.
  assert (Hfind : list_find (λ n : nat * Cache.KeyBase, n.1 = it) l
                  = Some (i, (it, k))).
  { apply list_find_Some. split; [done|]. split; [done|].
    intros j [id' k'] Hj Hji Heq. simpl in Heq. subst id'.
    assert (Hi1 : l.*1 !! i = Some it) by (by rewrite list_lookup_fmap, Hi).
    assert (Hj1 : l.*1 !! j = Some it) by (by rewrite list_lookup_fmap, Hj).
    pose proof (NoDup_lookup _ _ _ _ Hnd Hi1 Hj1). lia. }
  by rewrite Hfind.
Qed.

Lemma splice_front_stale (l : list (nat * Cache.KeyBase)) it :
  it ∉ l.*1 → Cache.splice_front l it = None.
Proof.
  intros Hnot. unfold Cache.splice_front.
  destruct (list_find _ l) as [[i n]|] eqn:Hfind; [|done].
  apply list_find_Some in Hfind as (Hi & Hn & _). exfalso. apply Hnot.
  rewrite <- Hn. apply list_elem_of_fmap_2. by eapply list_elem_of_lookup_2.
Qed.

(** [Get] of a stored key whose map entry names the node of the key, on a
    cache with one node per key: either the node is the front node and
    nothing changes, or it moves to the front and the entry receives the
    iterator of the node that was at the front. *)
Lemma Get_stored c k v it h hk l :
  Cache.tidy c → Cache.lru_list_ c = (h, hk) :: l →
  Cache.key_to_value_ c !! k = Some (v, it) → (it, k) ∈ Cache.lru_list_ c →
  (it = h ∧ k = hk ∧ Cache.Get c k = Cache.Done (c, Some v)) ∨
  (it ≠ h ∧ k ≠ hk ∧ ∃ i, l !! i = Some (it, k) ∧
   Cache.Get c k
   = Cache.Done
       (Cache.mkCache (<[k := (v, h)]> (Cache.key_to_value_ c))
          ((it, k) :: (h, hk) :: delete i l)
          (Cache.next_node_ c) (Cache.total_bytes_ c)
          (Cache.policy_ c) (Cache.lru_capacity_ c) (Cache.byte_capacity_ c)
          (Cache.evict_cb_ c) (Cache.evicted_ c) (Cache.value_to_bytes_ c),
        Some v)).
Proof.
  intros (Hids & Hkeys & _ & _) Hl Hk Hin. unfold Cache.Get.
  rewrite Hk, Hl. rewrite Hl in Hin, Hids, Hkeys.
  rewrite fmap_cons in Hids. rewrite fmap_cons in Hkeys. simpl in Hids, Hkeys.
  apply NoDup_cons in Hids as [Hh Hids]. apply NoDup_cons in Hkeys as [Hhk Hkeys].
  apply elem_of_cons in Hin as [[= -> ->]|Hin].
  - left. by rewrite decide_False by auto.
  - right.
    assert (Hne : it ≠ h).
    { intros ->. apply Hh. by apply (list_elem_of_fmap_2 fst) in Hin. }
    assert (Hkne : k ≠ hk).
    { intros ->. apply Hhk. by apply (list_elem_of_fmap_2 snd) in Hin. }
    split; [done|]. split; [done|].
    apply list_elem_of_lookup in Hin as [i Hi]. exists i. split; [done|].
    rewrite decide_True by done.
    rewrite (splice_front_node ((h, hk) :: l) (S i) it k); [done| |done].
    rewrite fmap_cons. apply NoDup_cons. by split.
Qed.

(** X13: [Get] on a tidy cache whose map entries hold the iterators of
    their nodes: the call returns the stored value (nothing for a key
    that is not stored); the stored values, the number of keys, the byte
    counter, the callback log and the configuration are unchanged and the
    cache is tidy again; the key asked for is at the most recently used
    end afterwards, and the other keys keep their relative order. *)
Theorem Get_moves_to_front c k :
  Cache.tidy c → Cache.anchored c →
  ∃ c', Cache.Get c k = Cache.Done (c', fst <$> Cache.key_to_value_ c !! k) ∧
    Cache.tidy c' ∧ Cache.same_config c c' ∧
    Cache.size c' = Cache.size c ∧ Cache.bytes c' = Cache.bytes c ∧
    Cache.evicted_ c' = Cache.evicted_ c ∧
    (∀ k', fst <$> Cache.key_to_value_ c' !! k'
           = fst <$> Cache.key_to_value_ c !! k') ∧
    (Cache.lru_list_ c').*2
      = if Cache.Contains c k
        then k :: filter (λ k', k' ≠ k) (Cache.lru_list_ c).*2
        else (Cache.lru_list_ c).*2.
Proof.
  intros Ht Ha. unfold Cache.Contains.
  destruct (Cache.key_to_value_ c !! k) as [[v it]|] eqn:Hk.
  2:{ exists c. unfold Cache.Get. rewrite Hk.
      rewrite bool_decide_eq_false_2 by (by intros [? ?]). by split_and!. }
  rewrite bool_decide_eq_true_2 by eauto.
  pose proof (Ha _ _ _ Hk) as Hin.
  destruct (Cache.lru_list_ c) as [|[h hk] l] eqn:Hl; [by apply elem_of_nil in Hin|].
  rewrite <- Hl in Hin.
  destruct (Get_stored c k v it h hk l Ht Hl Hk Hin)
    as [(-> & -> & Hget)|(Hne & Hkne & i & Hi & Hget)].
  - exists c. rewrite Hget, Hl. simpl. split_and!; try done.
    rewrite filter_cons, decide_False by auto. f_equal. symmetry.
    apply filter_all, Forall_forall. intros k' Hk' ->.
    destruct Ht as (_ & Hkeys & _). rewrite Hl, fmap_cons in Hkeys.
    by apply NoDup_cons in Hkeys as [? _].
  - eexists. split; [exact Hget|].
    destruct Ht as (Hids & Hkeys & Hdom & Hlt). rewrite Hl in Hids, Hkeys, Hdom, Hlt.
    assert (Hperm : (it, k) :: (h, hk) :: delete i l ≡ₚ (h, hk) :: l).
    { rewrite (delete_Permutation l i (it, k) Hi) at 2. apply Permutation_swap. }
    pose proof (fmap_Permutation fst _ _ Hperm) as Hp1.
    pose proof (fmap_Permutation snd _ _ Hperm) as Hp2.
    unfold Cache.tidy, Cache.same_config, Cache.size, Cache.bytes.
    cbn [Cache.key_to_value_ Cache.lru_list_ Cache.next_node_ Cache.total_bytes_
         Cache.policy_ Cache.lru_capacity_ Cache.byte_capacity_ Cache.evict_cb_
         Cache.evicted_ Cache.value_to_bytes_].
    split_and!; try done.
    + by rewrite Hp1.
    + by rewrite Hp2.
    + intros k'. rewrite Hp2, <- Hdom, lookup_insert_is_Some.
      destruct (decide (k = k')) as [<-|?]; [|tauto].
      split; [eauto|by left].
    + by rewrite Hperm.
    + apply map_size_insert_Some. eauto.
    + intros k'. destruct (decide (k = k')) as [<-|?].
      * by rewrite lookup_insert_eq, Hk.
      * by rewrite lookup_insert_ne.
    + rewrite !fmap_cons, filter_cons, decide_True by auto. do 2 f_equal.
      rewrite fmap_cons in Hkeys. apply NoDup_cons in Hkeys as [_ Hkeys].
      by apply (delete_node_keys l i it k).
Qed.

(** X14: Two [Get]s of the same stored key in a row, the key not being at
    the front of the list.  The first moves the key to the front but
    stores in its map entry the iterator of the node that was at the
    front; the second therefore moves that node back to the front: after
    it the key that was most recently used before the two calls is again
    at the most recently used end, and the key asked for is second. *)
Theorem Get_twice_restores_front c k v it h hk l :
  Cache.tidy c → Cache.anchored c →
  Cache.lru_list_ c = (h, hk) :: l →
  Cache.key_to_value_ c !! k = Some (v, it) → k ≠ hk →
  ∃ c1 c2,
    Cache.Get c k = Cache.Done (c1, Some v) ∧
    (Cache.lru_list_ c1).*2 = k :: hk :: filter (λ k', k' ≠ k) l.*2 ∧
    Cache.key_to_value_ c1 !! k = Some (v, h) ∧
    Cache.Get c1 k = Cache.Done (c2, Some v) ∧
    (Cache.lru_list_ c2).*2 = hk :: k :: filter (λ k', k' ≠ k) l.*2.
Proof.
  intros Ht Ha Hl Hk Hkne.
  pose proof (Ha _ _ _ Hk) as Hin.
  destruct (Get_stored c k v it h hk l Ht Hl Hk Hin)
    as [(_ & ? & _)|(Hne & _ & i & Hi & Hget)]; [done|].
  destruct Ht as (Hids & Hkeys & _ & _). rewrite Hl in Hids, Hkeys.
  rewrite fmap_cons in Hids. rewrite fmap_cons in Hkeys.
  apply NoDup_cons in Hkeys as [_ Hkeys].
  eexists _, _. split; [exact Hget|].
  cbn [Cache.key_to_value_ Cache.lru_list_].
  rewrite !fmap_cons, (delete_node_keys l i it k Hkeys Hi).
  split; [done|]. split; [apply lookup_insert_eq|].
  unfold Cache.Get.
  cbn [Cache.key_to_value_ Cache.lru_list_]. rewrite lookup_insert_eq.
  rewrite decide_True by auto.
  rewrite (splice_front_node ((it, k) :: (h, hk) :: delete i l) 1 h hk); [|..|done].
  - split; [done|]. cbn [Cache.lru_list_ delete list_delete].
    by rewrite !fmap_cons, (delete_node_keys l i it k Hkeys Hi).
  - assert (Hperm : (it, k) :: (h, hk) :: delete i l ≡ₚ (h, hk) :: l).
    { rewrite (delete_Permutation l i (it, k) Hi) at 2. apply Permutation_swap. }
    rewrite Hperm. by rewrite fmap_cons.
Qed.

(** [Insert] of a key that is not stored into a tidy LRU cache of
    capacity [L >= 1]: the new node comes first, and what the cache keeps
    are the [L] first nodes. *)
Lemma Insert_fresh_lru c k v :
  Cache.tidy c → Cache.policy_ c = Cache.kLRU → 1 ≤ Cache.lru_capacity_ c →
  Cache.key_to_value_ c !! k = None →
  ∃ c', Cache.Insert c k v = Cache.Done c' ∧
    Cache.tidy c' ∧ Cache.same_config c c' ∧
    Cache.next_node_ c' = S (Cache.next_node_ c) ∧
    Cache.lru_list_ c'
      = take (Cache.lru_capacity_ c) ((Cache.next_node_ c, k) :: Cache.lru_list_ c) ∧
    (∀ k', Cache.key_to_value_ c' !! k'
           = if decide (k' ∈ (Cache.lru_list_ c').*2)
             then <[k := (v, Cache.next_node_ c)]> (Cache.key_to_value_ c) !! k'
             else None) ∧
    Cache.evicted_ c'
      = (if Cache.evict_cb_ c
         then Cache.evicted_ c
              ++ reverse (drop (Cache.lru_capacity_ c)
                            ((Cache.next_node_ c, k) :: Cache.lru_list_ c)).*2
         else Cache.evicted_ c).
Proof.
  intros Ht Hpol HL Hk.
  destruct (Insert_fresh_run c k v Ht ltac:(by intros ?; congruence) Hk)
    as (c' & gone & Hrun & Ht' & Hcfg & Hov & Hpush & Hm & Hev & _ & Hhead
        & Hfull & Hnn).
  destruct (Hhead ltac:(done)) as (Hkg & rest & Hl' & Hl).
  exists c'. split; [done|]. split; [done|]. split; [done|]. split; [done|].
  pose proof (tidy_size c' Ht') as Hsz'.
  destruct Hcfg as (Hp' & HL' & _).
  unfold Cache.over_capacity in Hov. rewrite Hp', Hpol, HL' in Hov.
  apply bool_decide_eq_false_1 in Hov. rewrite Hsz' in Hov.
  assert (Hsplit : take (Cache.lru_capacity_ c)
                     ((Cache.next_node_ c, k) :: Cache.lru_list_ c)
                   = Cache.lru_list_ c' ∧
                   drop (Cache.lru_capacity_ c)
                     ((Cache.next_node_ c, k) :: Cache.lru_list_ c) = gone).
  { rewrite Hpush. destruct gone as [|g gone].
    - rewrite app_nil_r. split; [apply take_ge; lia|apply drop_ge; lia].
    - rewrite <- (Hfull Hpol ltac:(done)).
      split; [by rewrite take_app_length|by rewrite drop_app_length]. }
  destruct Hsplit as [Htake Hdrop]. rewrite Htake, Hdrop.
  split; [done|]. split; [|done].
  intros k'. rewrite Hm.
  destruct Ht as (_ & Hkeys & Hdom & _).
  assert (Hnd : NoDup ((Cache.lru_list_ c').*2 ++ gone.*2)).
  { rewrite <- fmap_app, <- Hpush, fmap_cons. apply NoDup_cons. split; [|done].
    intros Hin. apply Hdom in Hin as [? ?]. simpl in *. congruence. }
  apply NoDup_app in Hnd as (_ & Hdisj & _).
  destruct (decide (k' ∈ gone.*2)) as [Hg|Hg];
    destruct (decide (k' ∈ (Cache.lru_list_ c').*2)) as [Hin|Hin]; try done.
  - by destruct (Hdisj _ Hin).
  - destruct (<[k:=(v, Cache.next_node_ c)]> (Cache.key_to_value_ c) !! k')
      eqn:Hlk; [|done].
    exfalso. assert (His : k' ∈ k :: (Cache.lru_list_ c).*2).
    { apply elem_of_cons. destruct (decide (k' = k)) as [|Hne]; [by left|right].
      rewrite lookup_insert_ne in Hlk by done. apply Hdom. eauto. }
    change (k :: (Cache.lru_list_ c).*2)
      with (((Cache.next_node_ c, k) :: Cache.lru_list_ c).*2) in His.
    rewrite Hpush, fmap_app, elem_of_app in His. tauto.
Qed.

Lemma take_app_take {A} L (X B : list A) :
  take L (X ++ take L B) = take L (X ++ B).
Proof.
  rewrite !take_app, take_take. do 2 f_equal. lia.
Qed.

Lemma drop_app_take {A} L (X B : list A) :
  drop L (X ++ B) = drop L (X ++ take L B) ++ drop L B.
Proof.
  rewrite !drop_app, <- (assoc_L (++)). f_equal.
  destruct (decide (L ≤ length B)) as [Hle|Hgt].
  - rewrite <- (take_drop L B) at 1. rewrite drop_app, length_take.
    f_equal. replace (L - length X - L `min` length B) with 0 by lia. done.
  - rewrite (take_ge B L), (drop_ge B L) by lia. by rewrite app_nil_r.
Qed.

(** A sequence of [Insert]s of pairwise distinct keys that are not
    stored, on a tidy LRU cache within its capacity: the new nodes come
    first, newest first, and the cache keeps the first [L] nodes. *)
Lemma fresh_inserts_lru (xs : list (Cache.KeyBase * Value)) c :
  Cache.tidy c → Cache.policy_ c = Cache.kLRU → 1 ≤ Cache.lru_capacity_ c →
  Cache.size c ≤ Cache.lru_capacity_ c →
  NoDup xs.*1 → Forall (λ x, Cache.key_to_value_ c !! x.1 = None) xs →
  ∃ c' news,
    default (Cache.Done c) (last (Cache.insert_all c xs)) = Cache.Done c' ∧
    length (Cache.insert_all c xs) = length xs ∧
    Cache.tidy c' ∧ Cache.same_config c c' ∧
    news.*2 = reverse xs.*1 ∧
    Forall (λ n : nat * Cache.KeyBase, Cache.next_node_ c ≤ n.1) news ∧
    Cache.lru_list_ c' = take (Cache.lru_capacity_ c) (news ++ Cache.lru_list_ c) ∧
    (∀ k', k' ∉ xs.*1 → k' ∈ (Cache.lru_list_ c').*2 →
           Cache.key_to_value_ c' !! k' = Cache.key_to_value_ c !! k') ∧
    (∀ x v, (x, v) ∈ xs → x ∈ (Cache.lru_list_ c').*2 →
            fst <$> Cache.key_to_value_ c' !! x = Some v) ∧
    Cache.evicted_ c'
      = (if Cache.evict_cb_ c
         then Cache.evicted_ c
              ++ reverse (drop (Cache.lru_capacity_ c)
                            (news ++ Cache.lru_list_ c)).*2
         else Cache.evicted_ c).
Proof.
  revert c. induction xs as [|[x v] xs IH]; intros c Ht Hpol HL Hcap Hnd Hfresh.
  - exists c, []. simpl. rewrite tidy_size in Hcap by done.
    rewrite take_ge, drop_ge by lia. split_and!; try done.
    + intros x v Hx. by apply elem_of_nil in Hx.
    + destruct (Cache.evict_cb_ c); [|done].
      by rewrite fmap_nil, reverse_nil, app_nil_r.
  - rewrite fmap_cons in Hnd. apply NoDup_cons in Hnd as [Hx Hnd].
    apply Forall_cons in Hfresh as [Hkx Hfresh]. simpl in Hkx, Hx.
    destruct (Insert_fresh_lru c x v Ht Hpol HL Hkx)
      as (c1 & Hrun & Ht1 & Hcfg1 & Hnn1 & Hl1 & Hm1 & Hev1).
    pose proof Hcfg1 as (Hp1 & HL1 & _ & Hcb1 & _).
    assert (Hcap1 : Cache.size c1 ≤ Cache.lru_capacity_ c1).
    { rewrite tidy_size, Hl1, HL1, length_take by done. lia. }
    destruct (IH c1 Ht1 ltac:(congruence) ltac:(lia) Hcap1 Hnd)
      as (c' & news & Hlast & Hlen & Ht' & Hcfg' & Hnews & Hids & Hl' & Hold
          & Hnew & Hev').
    { apply Forall_forall. intros [y w] Hin.
      rewrite Forall_forall in Hfresh. specialize (Hfresh _ Hin).
      simpl in *. rewrite Hm1.
      case_decide; [|done]. rewrite lookup_insert_ne; [done|].
      intros <-. apply Hx. by apply (list_elem_of_fmap_2 fst) in Hin. }
    exists c', (news ++ [(Cache.next_node_ c, x)]).
    cbn [Cache.insert_all]. rewrite Hrun, last_cons.
    assert (Hdef : default (Cache.Done c)
              match last (Cache.insert_all c1 xs) with
              | Some y => Some y
              | None => Some (Cache.Done c1)
              end = default (Cache.Done c1) (last (Cache.insert_all c1 xs))).
    { by destruct (last (Cache.insert_all c1 xs)). }
    rewrite Hdef, Hlast. rewrite HL1, Hl1, take_app_take in Hl'.
    rewrite <- (assoc_L (++)). cbn [app].
    assert (Hsub : ∀ k', k' ∉ xs.*1 → k' ∈ (Cache.lru_list_ c').*2 →
              k' ∈ (Cache.lru_list_ c1).*2).
    { intros k' Hk' Hin. rewrite Hl', <- take_app_take, <- Hl1 in Hin.
      apply list_elem_of_fmap in Hin as (n & -> & Hin).
      apply subseteq_take, elem_of_app in Hin as [Hin|Hin].
      - exfalso. apply Hk'. apply (list_elem_of_fmap_2 snd) in Hin.
        by rewrite Hnews, elem_of_reverse in Hin.
      - by apply list_elem_of_fmap_2. }
    split; [done|]. split; [simpl; by rewrite Hlen|]. split; [done|].
    split; [by eapply same_config_trans|].
    split; [by rewrite fmap_app, Hnews, (fmap_cons fst), reverse_cons|].
    split.
    { apply Forall_app. split.
      - eapply Forall_impl; [exact Hids|]. simpl. intros. lia.
      - by repeat constructor. }
    split; [done|]. split; [|split].
    + intros k' Hk' Hin. apply not_elem_of_cons in Hk' as [Hne Hk'].
      rewrite (Hold k' Hk' Hin), Hm1.
      rewrite decide_True by (by apply Hsub).
      by rewrite lookup_insert_ne.
    + intros y w Hy Hin. apply elem_of_cons in Hy as [[= -> ->]|Hy].
      * rewrite (Hold x Hx Hin), Hm1, decide_True by (by apply Hsub).
        by rewrite lookup_insert_eq.
      * by apply Hnew.
    + rewrite Hev', Hcb1, Hev1. destruct (Cache.evict_cb_ c); [|done].
      rewrite HL1, Hl1.
      rewrite (drop_app_take _ news ((Cache.next_node_ c, x) :: Cache.lru_list_ c)).
      by rewrite fmap_app, reverse_app, (assoc_L (++)).
Qed.

(** X15: The LRU order under [Insert]s of new keys.  On a tidy LRU cache
    within its capacity [L >= 1], a sequence of [Insert]s of pairwise
    distinct keys that are not stored returns every time, and afterwards
    the keys of the cache are the first [L] of: the new keys, newest
    first, followed by the old keys in their old order.  The keys that
    stay keep their values, the new keys have the inserted values, and the
    callback saw the keys that went, least recently used first. *)
Theorem fresh_inserts_keep_most_recent c (xs : list (Cache.KeyBase * Value)) :
  Cache.tidy c → Cache.policy_ c = Cache.kLRU → 1 ≤ Cache.lru_capacity_ c →
  Cache.size c ≤ Cache.lru_capacity_ c →
  NoDup xs.*1 → Forall (λ x, Cache.key_to_value_ c !! x.1 = None) xs →
  ∃ c', default (Cache.Done c) (last (Cache.insert_all c xs)) = Cache.Done c' ∧
    length (Cache.insert_all c xs) = length xs ∧
    Cache.tidy c' ∧
    (Cache.lru_list_ c').*2
      = take (Cache.lru_capacity_ c) (reverse xs.*1 ++ (Cache.lru_list_ c).*2) ∧
    (∀ k', Cache.Contains c' k' = true ↔
           k' ∈ take (Cache.lru_capacity_ c)
                  (reverse xs.*1 ++ (Cache.lru_list_ c).*2)) ∧
    (∀ k', k' ∉ xs.*1 → Cache.Contains c' k' = true →
           fst <$> Cache.key_to_value_ c' !! k'
             = fst <$> Cache.key_to_value_ c !! k') ∧
    (∀ x v, (x, v) ∈ xs → Cache.Contains c' x = true →
            fst <$> Cache.key_to_value_ c' !! x = Some v) ∧
    (Cache.evict_cb_ c = true →
     Cache.evicted_ c'
       = Cache.evicted_ c
         ++ reverse (drop (Cache.lru_capacity_ c)
                       (reverse xs.*1 ++ (Cache.lru_list_ c).*2))).
Proof.
  intros Ht Hpol HL Hcap Hnd Hfresh.
  destruct (fresh_inserts_lru xs c Ht Hpol HL Hcap Hnd Hfresh)
    as (c' & news & Hlast & Hlen & Ht' & _ & Hnews & _ & Hl' & Hold & Hnew & Hev).
  assert (Hkeys : (Cache.lru_list_ c').*2
            = take (Cache.lru_capacity_ c) (reverse xs.*1 ++ (Cache.lru_list_ c).*2)).
  { by rewrite Hl', fmap_take, fmap_app, Hnews. }
  assert (Hcont : ∀ k', Cache.Contains c' k' = true ↔ k' ∈ (Cache.lru_list_ c').*2).
  { intros k'. unfold Cache.Contains. rewrite bool_decide_eq_true.
    destruct Ht' as (_ & _ & Hdom & _). apply Hdom. }
  exists c'. split; [done|]. split; [done|].
  split; [done|]. split; [done|]. split_and!.
  - intros k'. by rewrite Hcont, Hkeys.
  - intros k' Hk' Hc. rewrite Hold; [done..|]. by apply Hcont.
  - intros x v Hx Hc. apply Hnew; [done|]. by apply Hcont.
  - intros Hcb. rewrite Hev, Hcb. f_equal.
    by rewrite fmap_drop, fmap_app, Hnews.
Qed.

(** The cache [Get] leaves after it moved a node to the front is tidy. *)
Lemma moved_to_front_tidy c k v it h hk l i :
  Cache.tidy c → Cache.lru_list_ c = (h, hk) :: l → l !! i = Some (it, k) →
  Cache.tidy
    (Cache.mkCache (<[k := (v, h)]> (Cache.key_to_value_ c))
       ((it, k) :: (h, hk) :: delete i l)
       (Cache.next_node_ c) (Cache.total_bytes_ c)
       (Cache.policy_ c) (Cache.lru_capacity_ c) (Cache.byte_capacity_ c)
       (Cache.evict_cb_ c) (Cache.evicted_ c) (Cache.value_to_bytes_ c)).
Proof.
  intros (Hids & Hkeys & Hdom & Hlt) Hl Hi. rewrite Hl in Hids, Hkeys, Hdom, Hlt.
  assert (Hperm : (it, k) :: (h, hk) :: delete i l ≡ₚ (h, hk) :: l).
  { rewrite (delete_Permutation l i (it, k) Hi) at 2. apply Permutation_swap. }
  pose proof (fmap_Permutation fst _ _ Hperm) as Hp1.
  pose proof (fmap_Permutation snd _ _ Hperm) as Hp2.
  unfold Cache.tidy.
  cbn [Cache.key_to_value_ Cache.lru_list_ Cache.next_node_].
  split_and!.
  - by rewrite Hp1.
  - by rewrite Hp2.
  - intros k'. rewrite Hp2, <- Hdom, lookup_insert_is_Some.
    destruct (decide (k = k')) as [<-|?]; [|tauto].
    split; [|by left]. intros _. apply Hdom. rewrite <- Hp2.
    rewrite fmap_cons. by left.
  - by rewrite Hperm.
Qed.

(** X16: A [Get] that moves a key to the front leaves in its map entry
    the iterator of the node that was at the front; once that node has
    been evicted the entry names a node that is gone.  On a tidy LRU cache
    of capacity [L >= 2], within its capacity, whose map entries hold the
    iterators of their nodes: after a [Get] of a stored key that is not at
    the front, [L - 1] [Insert]s of pairwise distinct keys that are not
    stored all return and leave the key stored, and the next [Get] of the
    key splices an iterator to an erased list node (undefined behaviour in
    the source, a stop in the model). *)
Theorem Get_after_eviction_uses_erased_node c k v it h hk l
    (xs : list (Cache.KeyBase * Value)) :
  Cache.tidy c → Cache.anchored c →
  Cache.policy_ c = Cache.kLRU → 2 ≤ Cache.lru_capacity_ c →
  Cache.size c ≤ Cache.lru_capacity_ c →
  Cache.lru_list_ c = (h, hk) :: l →
  Cache.key_to_value_ c !! k = Some (v, it) → k ≠ hk →
  NoDup xs.*1 → Forall (λ x, Cache.key_to_value_ c !! x.1 = None) xs →
  length xs = Cache.lru_capacity_ c - 1 →
  ∃ c1 c2,
    Cache.Get c k = Cache.Done (c1, Some v) ∧
    default (Cache.Done c1) (last (Cache.insert_all c1 xs)) = Cache.Done c2 ∧
    length (Cache.insert_all c1 xs) = length xs ∧
    Cache.Contains c2 k = true ∧
    Cache.Get c2 k = Cache.Abort.
Proof.
  intros Ht Ha Hpol HL Hcap Hl Hk Hkne Hnd Hfresh Hlen.
  pose proof (Ha _ _ _ Hk) as Hin.
  destruct (Get_stored c k v it h hk l Ht Hl Hk Hin)
    as [(_ & ? & _)|(Hne & _ & i & Hi & Hget)]; [done|].
  pose proof (moved_to_front_tidy c k v it h hk l i Ht Hl Hi) as Ht1.
  match type of Ht1 with Cache.tidy ?c1 =>
    destruct (fresh_inserts_lru xs c1 Ht1 Hpol ltac:(simpl; lia))
      as (c2 & news & Hlast & Hlen2 & Ht2 & _ & Hnews & Hids & Hl2 & Hold & _ & _)
  end.
  - unfold Cache.size in *. simpl. rewrite map_size_insert_Some by eauto. done.
  - done.
  - apply Forall_forall. intros x Hx. rewrite Forall_forall in Hfresh.
    specialize (Hfresh x Hx). cbn [Cache.key_to_value_].
    rewrite lookup_insert_ne; [done|]. intros Heq. rewrite <- Heq in Hfresh.
    congruence.
  - cbn [Cache.lru_capacity_ Cache.lru_list_ Cache.key_to_value_
         Cache.next_node_] in *.
    assert (Hnl : length news = Cache.lru_capacity_ c - 1).
    { rewrite <- Hlen, <- (length_fmap snd news), Hnews, length_reverse.
      by rewrite length_fmap. }
    assert (Hl2' : Cache.lru_list_ c2 = news ++ [(it, k)]).
    { rewrite Hl2, take_app, (take_ge news) by lia.
      replace (Cache.lru_capacity_ c - length news) with 1 by lia. done. }
    assert (Hkx : k ∉ xs.*1).
    { intros Hx. apply list_elem_of_fmap in Hx as ([x w] & -> & Hx).
      rewrite Forall_forall in Hfresh. specialize (Hfresh _ Hx). simpl in *.
      congruence. }
    assert (Hk2 : Cache.key_to_value_ c2 !! k = Some (v, h)).
    { rewrite Hold; [apply lookup_insert_eq|done|].
      rewrite Hl2', fmap_app. apply elem_of_app. right. by left. }
    eexists _, c2. split; [exact Hget|].
    split; [exact Hlast|]. split; [done|]. split.
    { unfold Cache.Contains. apply bool_decide_eq_true_2. by rewrite Hk2. }
    assert (Hh : h < Cache.next_node_ c).
    { destruct Ht as (_ & _ & _ & Hlt). rewrite Hl in Hlt.
      by apply Forall_cons in Hlt as [? _]. }
    unfold Cache.Get. rewrite Hk2, Hl2'.
    destruct news as [|[hn hx] news]; [simpl in Hnl; lia|].
    apply Forall_cons in Hids as [Hhn Hids]. simpl in Hhn.
    cbn [app]. rewrite decide_True by lia.
    change ((hn, hx) :: news ++ [(it, k)])
      with (((hn, hx) :: news) ++ [(it, k)]).
    rewrite splice_front_stale; [done|].
    rewrite fmap_app, elem_of_app. intros [Hbad|Hbad].
    + apply list_elem_of_fmap in Hbad as (n & -> & Hn).
      apply elem_of_cons in Hn as [->|Hn]; [simpl in *; lia|].
      rewrite Forall_forall in Hids. specialize (Hids _ Hn). simpl in Hids. lia.
    + simpl in Hbad. apply list_elem_of_singleton in Hbad. done.
Qed.

(** The eviction loop does nothing on an LRU cache within its
    capacity. *)
Lemma evict_if_necessary_within c :
  Cache.policy_ c = Cache.kLRU → Cache.size c ≤ Cache.lru_capacity_ c →
  Cache.evict_if_necessary c = Cache.Done c.
Proof.
  intros Hpol Hcap.
  rewrite evict_if_necessary_sized by (unfold Cache.sized; congruence).
  cbn [Cache.evict_loop].
  unfold Cache.over_capacity. rewrite Hpol.
  by rewrite bool_decide_eq_false_2 by lia.
Qed.

(** X17: [Insert] of a key that is already stored, on an LRU cache within
    its capacity: the value is replaced and the number of keys stays, but
    the list receives a second node for the key while the old node stays
    where it was, and the byte counter grows by the bytes of the new value
    without giving back those of the replaced one: on a cache with an
    exact counter it exceeds the bytes of the stored values by the bytes
    of the replaced value. *)
Theorem Insert_stored_key_keeps_old_node c k v v0 it0 :
  Cache.policy_ c = Cache.kLRU → Cache.size c ≤ Cache.lru_capacity_ c →
  Cache.key_to_value_ c !! k = Some (v0, it0) →
  ∃ c', Cache.Insert c k v = Cache.Done c' ∧
    Cache.key_to_value_ c' = <[k := (v, Cache.next_node_ c)]> (Cache.key_to_value_ c) ∧
    Cache.lru_list_ c' = (Cache.next_node_ c, k) :: Cache.lru_list_ c ∧
    Cache.size c' = Cache.size c ∧
    Cache.evicted_ c' = Cache.evicted_ c ∧
    (Cache.bytes_exact c → ∀ f, Cache.value_to_bytes_ c = Some f →
     Cache.bytes c'
       = Cache.wrap64 (Cache.stored_bytes f (Cache.key_to_value_ c') + f v0)).
Proof.
  intros Hpol Hcap Hk. unfold Cache.Insert.
  assert (Hsize : base.size (<[k := (v, Cache.next_node_ c)]> (Cache.key_to_value_ c))
                  = Cache.size c).
  { apply map_size_insert_Some. eauto. }
  rewrite evict_if_necessary_within; [|done|by unfold Cache.size; simpl; rewrite Hsize].
  eexists. split; [done|]. simpl. split_and!; try done.
  intros Hexact f Hf. unfold Cache.bytes. simpl.
  rewrite Hf, (Hexact f Hf). unfold Cache.wrap64, Cache.stored_bytes.
  rewrite <- (insert_delete_id (Cache.key_to_value_ c) k (v0, it0) Hk) at 1.
  rewrite <- (insert_delete_eq (Cache.key_to_value_ c) k (v, Cache.next_node_ c)).
  rewrite !map_fold_insert_L; try (intros; lia); try apply lookup_delete_eq.
  simpl. rewrite Zplus_mod_idemp_l. f_equal. lia.
Qed.

Lemma evict_loop_stop fuel c :
  Cache.over_capacity c = false → Cache.evict_loop fuel c = Cache.Done c.
Proof. intros Hov. destruct fuel; simpl; by rewrite Hov. Qed.

Lemma evict_loop_step fuel c c1 :
  Cache.over_capacity c = true → Cache.evict_tail c = Cache.Done c1 →
  Cache.evict_loop (S fuel) c = Cache.evict_loop fuel c1.
Proof. intros Hov Hev. simpl. by rewrite Hov, Hev. Qed.

(** [Insert] of a key that is not stored into an LRU cache at its
    capacity, whatever the state of its list: the node at the tail goes,
    and with it the map entry of the key that node names. *)
Lemma Insert_evicts_tail_node c x vx l id ek w :
  Cache.policy_ c = Cache.kLRU → Cache.size c = Cache.lru_capacity_ c →
  Cache.lru_list_ c = l ++ [(id, ek)] →
  Cache.key_to_value_ c !! x = None → Cache.key_to_value_ c !! ek = Some w →
  ∃ c2, Cache.Insert c x vx = Cache.Done c2 ∧
    Cache.key_to_value_ c2
      = delete ek (<[x := (vx, Cache.next_node_ c)]> (Cache.key_to_value_ c)) ∧
    Cache.lru_list_ c2 = (Cache.next_node_ c, x) :: l ∧
    Cache.evicted_ c2
      = (if Cache.evict_cb_ c then Cache.evicted_ c ++ [ek] else Cache.evicted_ c).
Proof.
  intros Hpol Hfull Hl Hx Hek.
  assert (Hne : x ≠ ek) by congruence.
  unfold Cache.Insert.
  rewrite evict_if_necessary_sized by (unfold Cache.sized; simpl; congruence).
  match goal with |- ∃ c2, Cache.evict_loop _ ?c0 = _ ∧ _ => set (c1 := c0) end.
  assert (Hsize1 : Cache.size c1 = S (Cache.lru_capacity_ c)).
  { unfold Cache.size, c1. simpl. rewrite map_size_insert_None by done.
    by rewrite <- Hfull. }
  assert (Hov1 : Cache.over_capacity c1 = true).
  { unfold Cache.over_capacity. rewrite Hsize1. unfold c1. simpl.
    rewrite Hpol. apply bool_decide_eq_true_2. lia. }
  assert (Hek1 : Cache.key_to_value_ c1 !! ek = Some w).
  { unfold c1. simpl. by rewrite lookup_insert_ne. }
  assert (Hl1 : Cache.lru_list_ c1 = ((Cache.next_node_ c, x) :: l) ++ [(id, ek)]).
  { unfold c1. simpl. by rewrite Hl. }
  assert (Htail : ∃ c2, Cache.evict_tail c1 = Cache.Done c2 ∧
            Cache.key_to_value_ c2 = delete ek (Cache.key_to_value_ c1) ∧
            Cache.lru_list_ c2 = (Cache.next_node_ c, x) :: l ∧
            Cache.policy_ c2 = Cache.kLRU ∧
            Cache.lru_capacity_ c2 = Cache.lru_capacity_ c ∧
            Cache.evicted_ c2
              = (if Cache.evict_cb_ c then Cache.evicted_ c ++ [ek]
                 else Cache.evicted_ c)).
  { unfold Cache.evict_tail. rewrite Hl1, last_snoc, Hek1.
    replace (take (pred (length (((Cache.next_node_ c, x) :: l) ++ [(id, ek)])))
                  (((Cache.next_node_ c, x) :: l) ++ [(id, ek)]))
      with ((Cache.next_node_ c, x) :: l).
    2:{ rewrite length_app. simpl length.
        replace (pred (S (length l) + 1)) with (length ((Cache.next_node_ c, x) :: l))
          by (simpl; lia).
        by rewrite take_app_length. }
    destruct w as [v0 it0].
    destruct (Cache.value_to_bytes_ c1) as [f|] eqn:Hf.
    - eexists. split; [done|]. by split_and!.
    - replace (Cache.policy_ c1) with (@Cache.kLRU) by (by unfold c1).
      eexists. split; [done|]. by split_and!. }
  destruct Htail as (c2 & Hev & Hm2 & Hl2 & Hp2 & HL2 & Hevd).
  exists c2. split.
  - rewrite (evict_loop_step _ c1 c2 Hov1 Hev). apply evict_loop_stop.
    unfold Cache.over_capacity, Cache.size. rewrite Hp2, HL2, Hm2.
    apply bool_decide_eq_false_2.
    rewrite map_size_delete, Hek1. fold (Cache.size c1). rewrite Hsize1. simpl. lia.
  - split; [by rewrite Hm2|]. by split.
Qed.

(** X18: Updating a stored key does not protect it from eviction.  On a
    tidy LRU cache at its capacity whose least recently used key is [k]:
    an [Insert] that updates [k] and then an [Insert] of a key that is
    not stored both return; the second evicts through the old node of
    [k], so it is the key just updated that leaves the cache (and that
    the callback sees), while every other key stays. *)
Theorem Insert_update_then_evicted c k v x vx l0 id :
  Cache.tidy c → Cache.policy_ c = Cache.kLRU →
  Cache.size c = Cache.lru_capacity_ c →
  Cache.lru_list_ c = l0 ++ [(id, k)] →
  Cache.key_to_value_ c !! x = None →
  ∃ c1 c2,
    Cache.Insert c k v = Cache.Done c1 ∧ Cache.Contains c1 k = true ∧
    Cache.Insert c1 x vx = Cache.Done c2 ∧
    Cache.Contains c2 k = false ∧ Cache.Contains c2 x = true ∧
    (∀ k', k' ∈ l0.*2 → Cache.Contains c2 k' = true) ∧
    Cache.evicted_ c2
      = (if Cache.evict_cb_ c then Cache.evicted_ c ++ [k] else Cache.evicted_ c).
Proof.
  intros Ht Hpol Hfull Hl Hx.
  pose proof Ht as (_ & Hkeys & Hdom & _).
  assert (Hk : is_Some (Cache.key_to_value_ c !! k)).
  { apply Hdom. rewrite Hl, fmap_app. apply elem_of_app. right. by left. }
  destruct Hk as [[v0 it0] Hk].
  assert (Hxk : x ≠ k) by congruence.
  unfold Cache.Insert at 1.
  assert (Hsize1 : base.size (<[k := (v, Cache.next_node_ c)]> (Cache.key_to_value_ c))
                   = Cache.size c).
  { apply map_size_insert_Some. eauto. }
  rewrite evict_if_necessary_within;
    [|done|unfold Cache.size; simpl; rewrite Hsize1; lia].
  match goal with |- ∃ c1 c2, Cache.Done ?c0 = _ ∧ _ => set (c1 := c0) end.
  destruct (Insert_evicts_tail_node c1 x vx ((Cache.next_node_ c, k) :: l0) id k
              (v, Cache.next_node_ c))
    as (c2 & Hrun & Hm2 & _ & Hevd).
  - done.
  - unfold Cache.size, c1. simpl. by rewrite Hsize1.
  - unfold c1. simpl. by rewrite Hl.
  - unfold c1. simpl. by rewrite lookup_insert_ne.
  - unfold c1. simpl. apply lookup_insert_eq.
  - exists c1, c2. split; [done|]. split.
    { unfold Cache.Contains, c1. simpl. apply bool_decide_eq_true_2.
      rewrite lookup_insert_eq. eauto. }
    split; [done|]. unfold Cache.Contains. rewrite Hm2.
    unfold c1 in *. simpl in *. split_and!; [| | |done].
    + apply bool_decide_eq_false_2. rewrite lookup_delete_eq. by intros [? ?].
    + apply bool_decide_eq_true_2. rewrite lookup_delete_ne by done.
      rewrite lookup_insert_eq. eauto.
    + intros k' Hk'. apply bool_decide_eq_true_2.
      assert (Hk'k : k' ≠ k).
      { intros ->. rewrite Hl, fmap_app in Hkeys.
        apply NoDup_app in Hkeys as (_ & Hdisj & _).
        apply (Hdisj _ Hk'). by left. }
      assert (Hk'x : k' ≠ x).
      { intros ->. assert (His : is_Some (Cache.key_to_value_ c !! x)).
        { apply Hdom. rewrite Hl, fmap_app. apply elem_of_app. by left. }
        destruct His. congruence. }
      rewrite lookup_delete_ne by done.
      rewrite !lookup_insert_ne by done. apply Hdom.
      rewrite Hl, fmap_app. apply elem_of_app. by left.
Qed.

End CacheOrder.

(** The sample caches satisfy the invariants. *)
Lemma sample_caches_tidy :
  (Cache.tidy Cache.lru_cache ∧ Cache.anchored Cache.lru_cache) ∧
  (Cache.tidy Cache.byte_cache ∧ Cache.sized Cache.byte_cache ∧
   Cache.bytes_exact Cache.byte_cache) ∧
  (Cache.tidy Cache.lru_two ∧ Cache.anchored Cache.lru_two).
Proof.
  assert (Hempty : ∀ pol L B cb (f : option (Z → Z)),
            Cache.tidy (Cache.mkCache ∅ [] 0 0 pol L B cb [] f)).
  { intros. unfold Cache.tidy. simpl. split_and!; try constructor.
    - intros [? Hk]. by rewrite lookup_empty in Hk.
    - intros Hk. by apply elem_of_nil in Hk. }
  split_and!.
  - apply Hempty.
  - intros k v it Hk. unfold Cache.lru_cache in Hk. simpl in Hk.
    by rewrite lookup_empty in Hk.
  - apply Hempty.
  - intros _. by eexists.
  - intros f [= <-]. reflexivity.
  - unfold Cache.tidy, Cache.lru_two. simpl. split_and!.
    + apply (bool_decide_unpack _). by vm_compute.
    + apply (bool_decide_unpack _). by vm_compute.
    + intros k. rewrite !lookup_insert_is_Some, lookup_empty, !elem_of_cons.
      split.
      * intros [->|[_ [->|[_ [? ?]]]]]; [by left|right; by left|done].
      * intros [->|[->|Hk]]; [by left| |by apply elem_of_nil in Hk].
        right. split; [done|by left].
    + repeat constructor.
  - intros k v it. unfold Cache.lru_two. simpl.
    rewrite !lookup_insert_Some, lookup_empty.
    intros [[<- [= <- <-]]|[_ [[<- [= <- <-]]|[_ ?]]]]; [by left|right; by left|done].
Qed.

(** The sample caches are what the constructor and two calls of [Insert]
    leave behind. *)
Lemma sample_caches_constructed :
  Cache.new_cache Cache.kLRU 2 0 true None = Cache.Done Cache.lru_cache ∧
  Cache.new_cache Cache.kSize 0 100 true (Some (λ v : Z, v))
    = Cache.Done Cache.byte_cache ∧
  last (Cache.insert_all Cache.lru_cache [(Cache.k1, 10%Z); (Cache.k2, 20%Z)])
    = Some (Cache.Done Cache.lru_two) ∧
  last (Cache.insert_all Cache.byte_cache [(Cache.k1, 60%Z); (Cache.k2, 30%Z)])
    = Some (Cache.Done Cache.byte_two) ∧
  (∃ c, Cache.new_cache Cache.kLRU 2 0 true (Some (λ v : Z, v)) = Cache.Done c ∧
        last (Cache.insert_all c [(Cache.k1, 10%Z); (Cache.k2, 20%Z)])
          = Some (Cache.Done Cache.lru_sized_two)).
Proof. split_and!; [reflexivity..|]. eexists. split; reflexivity. Qed.

(** The populated caches that count bytes satisfy the invariants. *)
Lemma sized_caches_tidy :
  (Cache.tidy Cache.byte_two ∧ Cache.sized Cache.byte_two ∧
   Cache.bytes_exact Cache.byte_two) ∧
  (Cache.tidy Cache.lru_sized_two ∧ Cache.sized Cache.lru_sized_two ∧
   Cache.bytes_exact Cache.lru_sized_two).
Proof.
  assert (Htidy : ∀ (v1 v2 b : Z) pol L B cb ev (f : option (Z → Z)),
            Cache.tidy
              (Cache.mkCache (<[Cache.k2 := (v2, 1)]> (<[Cache.k1 := (v1, 0)]> ∅))
                 [(1, Cache.k2); (0, Cache.k1)] 2 b pol L B cb ev f)).
  { intros. unfold Cache.tidy. simpl. split_and!.
    - apply (bool_decide_unpack _). by vm_compute.
    - apply (bool_decide_unpack _). by vm_compute.
    - intros k. rewrite !lookup_insert_is_Some, lookup_empty, !elem_of_cons.
      split.
      + intros [->|[_ [->|[_ [? ?]]]]]; [by left|right; by left|done].
      + intros [->|[->|Hk]]; [by left| |by apply elem_of_nil in Hk].
        right. split; [done|by left].
    - repeat constructor. }
  split; (split; [apply Htidy|]; split).
  - intros _. by eexists.
  - intros f [= <-]. unfold Cache.stored_bytes, Cache.byte_two. simpl.
    rewrite !map_fold_insert_L; try (intros; lia); try done.
  - intros _. by eexists.
  - intros f [= <-]. unfold Cache.stored_bytes, Cache.lru_sized_two. simpl.
    rewrite !map_fold_insert_L; try (intros; lia); try done.
Qed.

Lemma Insert_fresh_then_Get_witness :
  ∃ c', Cache.Insert Cache.lru_two Cache.k3 30%Z = Cache.Done c' ∧
    Cache.tidy c' ∧ Cache.anchored c' ∧
    Cache.Contains c' Cache.k3 = true ∧
    Cache.Get c' Cache.k3 = Cache.Done (c', Some 30%Z) ∧
    (∀ k', k' ≠ Cache.k3 → Cache.Contains c' k' = true →
           Cache.key_to_value_ c' !! k'
             = Cache.key_to_value_ Cache.lru_two !! k') ∧
    ∃ rest, Cache.lru_list_ c' = (Cache.next_node_ Cache.lru_two, Cache.k3) :: rest ∧
            rest `prefix_of` Cache.lru_list_ Cache.lru_two.
Proof.
  apply (Insert_fresh_then_Get Cache.lru_two Cache.k3 30%Z).
  - apply sample_caches_tidy.
  - apply sample_caches_tidy.
  - intros H. by vm_compute in H.
  - intros _. vm_compute. lia.
  - reflexivity.
Defined.

Lemma Insert_fresh_evicts_lru_tail_witness :
  ∃ c', Cache.Insert Cache.lru_two Cache.k3 30%Z = Cache.Done c' ∧
    if decide (Cache.size Cache.lru_two < Cache.lru_capacity_ Cache.lru_two) then
      Cache.lru_list_ c'
        = (Cache.next_node_ Cache.lru_two, Cache.k3) :: Cache.lru_list_ Cache.lru_two ∧
      Cache.key_to_value_ c'
        = <[Cache.k3 := (30%Z, Cache.next_node_ Cache.lru_two)]>
            (Cache.key_to_value_ Cache.lru_two) ∧
      Cache.evicted_ c' = Cache.evicted_ Cache.lru_two
    else
      ∃ l0 id ek,
        Cache.lru_list_ Cache.lru_two = l0 ++ [(id, ek)] ∧
        Cache.lru_list_ c' = (Cache.next_node_ Cache.lru_two, Cache.k3) :: l0 ∧
        Cache.key_to_value_ c'
          = delete ek (<[Cache.k3 := (30%Z, Cache.next_node_ Cache.lru_two)]>
                         (Cache.key_to_value_ Cache.lru_two)) ∧
        Cache.Contains c' ek = false ∧
        Cache.evicted_ c'
          = (if Cache.evict_cb_ Cache.lru_two
             then Cache.evicted_ Cache.lru_two ++ [ek]
             else Cache.evicted_ Cache.lru_two).
Proof.
  apply (Insert_fresh_evicts_lru_tail Cache.lru_two Cache.k3 30%Z).
  - apply sample_caches_tidy.
  - reflexivity.
  - vm_compute. lia.
  - vm_compute. lia.
  - reflexivity.
Defined.

Lemma Insert_fresh_bytes_exact_witness :
  (∃ c', Cache.Insert Cache.byte_two Cache.k3 50%Z = Cache.Done c' ∧
     Cache.evicted_ c' = [Cache.k1] ∧ Cache.bytes c' = 80%Z ∧
     Cache.tidy c' ∧ Cache.sized c' ∧ Cache.bytes_exact c' ∧
     ∀ f, Cache.value_to_bytes_ Cache.byte_two = Some f →
       Cache.bytes c'
         = Cache.wrap64 (Cache.stored_bytes f (Cache.key_to_value_ c'))) ∧
  (∃ c', Cache.Insert Cache.lru_sized_two Cache.k3 5%Z = Cache.Done c' ∧
     Cache.evicted_ c' = [Cache.k1] ∧ Cache.bytes c' = 25%Z ∧
     Cache.tidy c' ∧ Cache.sized c' ∧ Cache.bytes_exact c' ∧
     ∀ f, Cache.value_to_bytes_ Cache.lru_sized_two = Some f →
       Cache.bytes c'
         = Cache.wrap64 (Cache.stored_bytes f (Cache.key_to_value_ c'))).
Proof.
  destruct sized_caches_tidy as ((Ht1 & Hs1 & Hb1) & (Ht2 & Hs2 & Hb2)).
  split.
  - destruct (Insert_fresh_bytes_exact Cache.byte_two Cache.k3 50%Z
                Ht1 Hs1 Hb1 eq_refl) as (c' & Hrun & Ht & Hs & Hb & Hf).
    exists c'. split; [exact Hrun|].
    assert (Hev : Cache.evicted_ c' = [Cache.k1] ∧ Cache.bytes c' = 80%Z).
    { vm_compute in Hrun. injection Hrun as <-. by split. }
    destruct Hev as [Hev Hbytes]. by split_and!.
  - destruct (Insert_fresh_bytes_exact Cache.lru_sized_two Cache.k3 5%Z
                Ht2 Hs2 Hb2 eq_refl) as (c' & Hrun & Ht & Hs & Hb & Hf).
    exists c'. split; [exact Hrun|].
    assert (Hev : Cache.evicted_ c' = [Cache.k1] ∧ Cache.bytes c' = 25%Z).
    { vm_compute in Hrun. injection Hrun as <-. by split. }
    destruct Hev as [Hev Hbytes]. by split_and!.
Defined.

Lemma Get_moves_to_front_witness :
  ∃ c', Cache.Get Cache.lru_two Cache.k1
        = Cache.Done (c', fst <$> Cache.key_to_value_ Cache.lru_two !! Cache.k1) ∧
    Cache.tidy c' ∧ Cache.same_config Cache.lru_two c' ∧
    Cache.size c' = Cache.size Cache.lru_two ∧
    Cache.bytes c' = Cache.bytes Cache.lru_two ∧
    Cache.evicted_ c' = Cache.evicted_ Cache.lru_two ∧
    (∀ k', fst <$> Cache.key_to_value_ c' !! k'
           = fst <$> Cache.key_to_value_ Cache.lru_two !! k') ∧
    (Cache.lru_list_ c').*2
      = if Cache.Contains Cache.lru_two Cache.k1
        then Cache.k1 :: filter (λ k', k' ≠ Cache.k1) (Cache.lru_list_ Cache.lru_two).*2
        else (Cache.lru_list_ Cache.lru_two).*2.
Proof.
  apply (Get_moves_to_front Cache.lru_two Cache.k1).
  - apply sample_caches_tidy.
  - apply sample_caches_tidy.
Defined.

Lemma Get_twice_restores_front_witness :
  ∃ c1 c2,
    Cache.Get Cache.lru_two Cache.k1 = Cache.Done (c1, Some 10%Z) ∧
    (Cache.lru_list_ c1).*2
      = Cache.k1 :: Cache.k2 :: filter (λ k', k' ≠ Cache.k1) [(0, Cache.k1)].*2 ∧
    Cache.key_to_value_ c1 !! Cache.k1 = Some (10%Z, 1) ∧
    Cache.Get c1 Cache.k1 = Cache.Done (c2, Some 10%Z) ∧
    (Cache.lru_list_ c2).*2
      = Cache.k2 :: Cache.k1 :: filter (λ k', k' ≠ Cache.k1) [(0, Cache.k1)].*2.
Proof.
  apply (Get_twice_restores_front Cache.lru_two Cache.k1 10%Z 0 1 Cache.k2
           [(0, Cache.k1)]).
  - apply sample_caches_tidy.
  - apply sample_caches_tidy.
  - reflexivity.
  - reflexivity.
  - discriminate.
Defined.

Lemma fresh_inserts_keep_most_recent_witness :
  ∃ c', default (Cache.Done Cache.lru_cache)
          (last (Cache.insert_all Cache.lru_cache
                   [(Cache.k1, 10%Z); (Cache.k2, 20%Z); (Cache.k3, 30%Z)]))
        = Cache.Done c' ∧
    length (Cache.insert_all Cache.lru_cache
              [(Cache.k1, 10%Z); (Cache.k2, 20%Z); (Cache.k3, 30%Z)])
      = length [(Cache.k1, 10%Z); (Cache.k2, 20%Z); (Cache.k3, 30%Z)] ∧
    Cache.tidy c' ∧
    (Cache.lru_list_ c').*2
      = take (Cache.lru_capacity_ Cache.lru_cache)
          (reverse [(Cache.k1, 10%Z); (Cache.k2, 20%Z); (Cache.k3, 30%Z)].*1
           ++ (Cache.lru_list_ Cache.lru_cache).*2) ∧
    (∀ k', Cache.Contains c' k' = true ↔
           k' ∈ take (Cache.lru_capacity_ Cache.lru_cache)
                  (reverse [(Cache.k1, 10%Z); (Cache.k2, 20%Z); (Cache.k3, 30%Z)].*1
                   ++ (Cache.lru_list_ Cache.lru_cache).*2)) ∧
    (∀ k', k' ∉ [(Cache.k1, 10%Z); (Cache.k2, 20%Z); (Cache.k3, 30%Z)].*1 →
           Cache.Contains c' k' = true →
           fst <$> Cache.key_to_value_ c' !! k'
             = fst <$> Cache.key_to_value_ Cache.lru_cache !! k') ∧
    (∀ x v, (x, v) ∈ [(Cache.k1, 10%Z); (Cache.k2, 20%Z); (Cache.k3, 30%Z)] →
            Cache.Contains c' x = true →
            fst <$> Cache.key_to_value_ c' !! x = Some v) ∧
    (Cache.evict_cb_ Cache.lru_cache = true →
     Cache.evicted_ c'
       = Cache.evicted_ Cache.lru_cache
         ++ reverse (drop (Cache.lru_capacity_ Cache.lru_cache)
                       (reverse [(Cache.k1, 10%Z); (Cache.k2, 20%Z);
                                 (Cache.k3, 30%Z)].*1
                        ++ (Cache.lru_list_ Cache.lru_cache).*2))).
Proof.
  apply (fresh_inserts_keep_most_recent Cache.lru_cache
           [(Cache.k1, 10%Z); (Cache.k2, 20%Z); (Cache.k3, 30%Z)]).
  - apply sample_caches_tidy.
  - reflexivity.
  - vm_compute. lia.
  - vm_compute. lia.
  - apply (bool_decide_unpack _). by vm_compute.
  - repeat constructor.
Defined.

Lemma Get_after_eviction_uses_erased_node_witness :
  ∃ c1 c2,
    Cache.Get Cache.lru_two Cache.k1 = Cache.Done (c1, Some 10%Z) ∧
    default (Cache.Done c1) (last (Cache.insert_all c1 [(Cache.k3, 30%Z)]))
      = Cache.Done c2 ∧
    length (Cache.insert_all c1 [(Cache.k3, 30%Z)]) = length [(Cache.k3, 30%Z)] ∧
    Cache.Contains c2 Cache.k1 = true ∧
    Cache.Get c2 Cache.k1 = Cache.Abort.
Proof.
  apply (Get_after_eviction_uses_erased_node Cache.lru_two Cache.k1 10%Z 0 1
           Cache.k2 [(0, Cache.k1)] [(Cache.k3, 30%Z)]).
  - apply sample_caches_tidy.
  - apply sample_caches_tidy.
  - reflexivity.
  - vm_compute. lia.
  - vm_compute. lia.
  - reflexivity.
  - reflexivity.
  - discriminate.
  - apply (bool_decide_unpack _). by vm_compute.
  - repeat constructor.
  - reflexivity.
Defined.

Lemma Insert_stored_key_keeps_old_node_witness :
  ∃ c', Cache.Insert Cache.lru_two Cache.k1 11%Z = Cache.Done c' ∧
    Cache.key_to_value_ c'
      = <[Cache.k1 := (11%Z, Cache.next_node_ Cache.lru_two)]>
          (Cache.key_to_value_ Cache.lru_two) ∧
    Cache.lru_list_ c'
      = (Cache.next_node_ Cache.lru_two, Cache.k1) :: Cache.lru_list_ Cache.lru_two ∧
    Cache.size c' = Cache.size Cache.lru_two ∧
    Cache.evicted_ c' = Cache.evicted_ Cache.lru_two ∧
    (Cache.bytes_exact Cache.lru_two →
     ∀ f, Cache.value_to_bytes_ Cache.lru_two = Some f →
     Cache.bytes c'
       = Cache.wrap64 (Cache.stored_bytes f (Cache.key_to_value_ c') + f 10%Z)).
Proof.
  apply (Insert_stored_key_keeps_old_node Cache.lru_two Cache.k1 11%Z 10%Z 0).
  - reflexivity.
  - vm_compute. lia.
  - reflexivity.
Defined.

Lemma Insert_update_then_evicted_witness :
  ∃ c1 c2,
    Cache.Insert Cache.lru_two Cache.k1 11%Z = Cache.Done c1 ∧
    Cache.Contains c1 Cache.k1 = true ∧
    Cache.Insert c1 Cache.k3 30%Z = Cache.Done c2 ∧
    Cache.Contains c2 Cache.k1 = false ∧ Cache.Contains c2 Cache.k3 = true ∧
    (∀ k', k' ∈ [(1, Cache.k2)].*2 → Cache.Contains c2 k' = true) ∧
    Cache.evicted_ c2
      = (if Cache.evict_cb_ Cache.lru_two
         then Cache.evicted_ Cache.lru_two ++ [Cache.k1]
         else Cache.evicted_ Cache.lru_two).
Proof.
  apply (Insert_update_then_evicted Cache.lru_two Cache.k1 11%Z Cache.k3 30%Z
           [(1, Cache.k2)] 0).
  - apply sample_caches_tidy.
  - reflexivity.
  - reflexivity.
  - reflexivity.
  - reflexivity.
Defined.

(** * From the property graph to the edge-type-aware topology *)

(** The (property index, destination) tuples of the edges of a node. *)
Lemma out_edges_tuples (t : GraphTopology) n :
  shuffle_wf t → n < NumNodes t →
  (λ e, (GetEdgePropertyIndexFromOutEdge t e, OutEdgeDst t e)) <$> OutEdges t n
  = slice (edge_begin t n) (edge_end t n) (edge_tuples t).
Proof.
  intros Hwf Hn.
  destruct (edge_range_bounds t n (proj1 Hwf) Hn) as [Hbe HeE].
  pose proof (edge_tuples_length t Hwf) as Hlen.
  destruct Hwf as [_ Hepi].
  apply list_eq_same_length with (edge_end t n - edge_begin t n).
  - rewrite length_slice; lia.
  - unfold OutEdges, OutDegree. by rewrite length_fmap, length_seq.
  - intros i x y Hi Hx Hy.
    rewrite list_lookup_fmap in Hx. unfold OutEdges, OutDegree in Hx.
    rewrite lookup_seq_lt in Hx by done. simpl in Hx. injection Hx as <-.
    unfold slice in Hy. rewrite lookup_take_lt, lookup_drop in Hy by done.
    unfold edge_tuples in Hy.
    apply lookup_zip_with_Some in Hy as (p & d & -> & Hp & Hd).
    unfold OutEdgeDst, GetEdgePropertyIndexFromOutEdge.
    rewrite (list_lookup_total_correct _ _ _ Hd).
    destruct (edge_prop_indices_ t) eqn:Hnil; [done|].
    by rewrite (list_lookup_total_correct _ _ _ Hp).
Qed.

(** The property indices of the edges of a topology. *)
Lemma edge_triples_prop_indices (t : GraphTopology) :
  well_formed t →
  (edge_triples t).*2
  = GetEdgePropertyIndexFromOutEdge t <$> seq 0 (NumEdges t).
Proof.
  intros Hwf. unfold edge_triples.
  rewrite <- (source_edge_pairs_edges t Hwf), <- !list_fmap_compose.
  by apply list_fmap_ext.
Qed.

(** Edges in (type, destination) order are in type order. *)
Lemma sorted_by_type_of_tuples (pg : PropertyGraph) (t : GraphTopology) :
  shuffle_wf t →
  (∀ n, n < NumNodes t →
     StronglySorted (λ x y, comp_type_dest pg y x = false)
       (slice (edge_begin t n) (edge_end t n) (edge_tuples t))) →
  sorted_by_type pg t.
Proof.
  intros Hwf Hs n Hn. specialize (Hs n Hn).
  rewrite <- (out_edges_tuples t n Hwf Hn) in Hs.
  apply StronglySorted_fmap_inv in Hs.
  apply (StronglySorted_fmap (edge_type pg t) _ le) in Hs; [done|].
  intros x y Hxy. simpl in Hxy. apply comp_type_dest_key in Hxy.
  unfold type_dest_le, type_dest_key, edge_type in *. simpl in Hxy. lia.
Qed.

(** The table of a view sorted by type, for a map that lists the types
    of its edges in increasing order. *)
Lemma per_type_table_exact (pg : PropertyGraph) (cm : CondensedTypeIDMap)
    (t : GraphTopology) (order : list Node) :
  well_formed t → sorted_by_type pg t → covers_types pg cm t →
  order ≡ₚ seq 0 (NumNodes t) →
  ∃ tbl, CreatePerEdgeTypeAdjacencyIndex pg cm t order = Some tbl ∧
    ∀ n i e, n < NumNodes t → i < num_unique_types cm →
      ((OutEdgesOfType t (num_unique_types cm) tbl n i).1 ≤ e ∧
       e < (OutEdgesOfType t (num_unique_types cm) tbl n i).2)
      ↔ (e ∈ OutEdges t n ∧ GetType cm i = Some (edge_type pg t e)).
Proof.
  intros Hwf Hsorted [Hcs Hcov] Hord. unfold CreatePerEdgeTypeAdjacencyIndex.
  unfold empty. case_bool_decide as HN.
  { assert (HE : NumEdges t = 0).
    { destruct Hwf as (_ & Hlast & _). unfold NumNodes in HN.
      apply length_zero_iff_nil in HN. by rewrite HN in Hlast. }
    rewrite decide_True by done. exists []. split; [done|]. intros; lia. }
  case_decide as HT.
  { assert (HE : NumEdges t = 0).
    { destruct (decide (NumEdges t = 0)) as [|Hne]; [done|].
      specialize (Hcov 0 ltac:(lia)). unfold num_unique_types in HT.
      apply length_zero_iff_nil in HT. rewrite HT in Hcov.
      by apply elem_of_nil in Hcov. }
    rewrite decide_True by done. exists []. split; [done|]. intros; lia. }
  destruct (index_nodes_spec pg cm t Hcs Hwf Hsorted Hcov ltac:(lia) order
              (replicate (NumNodes t * num_unique_types cm) 0))
    as (tbl & Hrun & _ & Htbl).
  { by apply sort_order_nodes. }
  { by rewrite length_replicate. }
  exists tbl. split; [done|]. intros n i e Hn Hi.
  apply (ranges_of_boundaries pg cm t Hcs Hwf Hsorted Hcov ltac:(lia)
           tbl n i e Hn Hi).
  intros j ty Hty. rewrite (Htbl n j ty Hn Hty).
  rewrite decide_True; [done|]. rewrite Hord. apply elem_of_seq. lia.
Qed.


(** The sample view [s1_view] is the original copy of [s1_pg], and
    [s1_view_by_type] is what the sort by type makes of it. *)
Lemma s1_view_sorted_by_type :
  MakeOriginalCopy s1_pg = Some s1_view ∧
  SortEdgesByTypeThenDest s1_pg s1_view s1_view_by_type.
Proof.
  split; [reflexivity|].
  exists [0; 1; 2; 3]. split; [done|]. split; [|done].
  eapply sort_nodes_cons.
  { exists [(1, 2); (0, 1)]. split; [split|reflexivity].
    - apply (bool_decide_unpack _). by vm_compute.
    - repeat constructor; by vm_compute. }
  eapply sort_nodes_cons.
  { exists []. split; [split|reflexivity].
    - apply (bool_decide_unpack _). by vm_compute.
    - constructor. }
  eapply sort_nodes_cons.
  { exists [(2, 3)]. split; [split|reflexivity].
    - apply (bool_decide_unpack _). by vm_compute.
    - repeat constructor. }
  eapply sort_nodes_cons.
  { exists [(4, 2); (3, 0)]. split; [split|reflexivity].
    - apply (bool_decide_unpack _). by vm_compute.
    - repeat constructor; by vm_compute. }
  apply sort_nodes_nil.
Qed.


(** * The offsets of a dynamic bitset *)

Lemma foldl_count {A} (P : A → bool) (l : list A) (a : nat) :
  foldl (λ count i, if P i then S count else count) a l
  = a + length (filter (λ i, P i) l).
Proof.
  revert a. induction l as [|x l IH]; intros a; simpl; [lia|].
  rewrite IH, filter_cons. destruct (P x); simpl; lia.
Qed.

(** Every thread stores the result of its own cell, in any order. *)
Lemma foldl_fill_cells (f : nat → nat) (order init : list nat) :
  let r := foldl (λ c tid, <[tid := f tid]> c) init order in
  length r = length init ∧
  ∀ i, r !! i = if decide (i ∈ order)
                then (if decide (i < length init) then Some (f i) else None)
                else init !! i.
Proof.
  revert init. induction order as [|t order IH]; intros init; simpl.
  - split; [done|]. intros i.
    destruct (decide (i ∈ [])) as [Hin|]; [by apply elem_of_nil in Hin|done].
  - destruct (IH (<[t := f t]> init)) as [Hlen Hlook].
    rewrite length_insert in Hlen, Hlook. split; [done|].
    intros i. rewrite Hlook.
    destruct (decide (i ∈ order)) as [Hin|Hnin].
    + by rewrite (decide_True (P := i ∈ t :: order))
        by (apply elem_of_cons; by right).
    + destruct (decide (i = t)) as [->|Hne].
      * rewrite (decide_True (P := t ∈ t :: order))
          by (apply elem_of_cons; by left).
        case_decide as Hlt.
        -- by rewrite list_lookup_insert_eq.
        -- apply lookup_ge_None. rewrite length_insert. lia.
      * rewrite list_lookup_insert_ne by done.
        rewrite (decide_False (P := i ∈ t :: order)); [done|].
        intros Hin. apply elem_of_cons in Hin as [?|?]; done.
Qed.

Lemma foldl_fill_all (f : nat → nat) (n : nat) (order init : list nat) :
  length init = n → order ≡ₚ seq 0 n →
  foldl (λ c tid, <[tid := f tid]> c) init order = f <$> seq 0 n.
Proof.
  intros Hlen Hord.
  destruct (foldl_fill_cells f order init) as [Hl Hlook].
  apply list_eq. intros i. rewrite Hlook, list_lookup_fmap.
  destruct (decide (i < n)) as [Hi|Hi].
  - rewrite decide_True by (rewrite Hord; apply elem_of_seq; lia).
    rewrite decide_True by lia. by rewrite lookup_seq_lt.
  - rewrite decide_False by (rewrite Hord, elem_of_seq; lia).
    rewrite lookup_ge_None_2 by lia.
    by rewrite lookup_ge_None_2 by (rewrite length_seq; lia).
Qed.

(** The sequential prefix-sum loop over the per-thread counts. *)
Lemma foldl_prefix_sums (counts : list nat) (k : nat) :
  k < length counts →
  let p := foldl (λ c i, <[i := c !!! i + c !!! (i - 1)]> c) counts (seq 1 k) in
  length p = length counts ∧
  (∀ i, i ≤ k → p !! i = Some (sum_list (take (S i) counts))) ∧
  (∀ i, k < i → p !! i = counts !! i).
Proof.
  induction k as [|k IH]; intros Hk.
  - simpl. split; [done|]. split; [|done].
    intros i Hi. assert (i = 0) as -> by lia.
    destruct counts as [|c0 counts]; [simpl in Hk; lia|]. simpl. f_equal. lia.
  - rewrite seq_S, foldl_app. simpl.
    destruct (IH ltac:(lia)) as (Hlen & Hlow & Hhigh).
    set (p := foldl _ counts (seq 1 k)) in *.
    rewrite length_insert. split; [done|]. split.
    + intros i Hi. destruct (decide (i = S k)) as [->|Hne].
      * rewrite list_lookup_insert_eq by lia. f_equal.
        pose proof (Hlow k (Nat.le_refl k)) as Hk0.
        replace (k - 0) with k by lia.
        rewrite (list_lookup_total_correct _ _ _ Hk0).
        destruct (lookup_lt_is_Some_2 counts (S k) Hk) as [c Hc].
        assert (Hk1 : p !! S k = Some c) by (rewrite Hhigh by lia; done).
        rewrite (list_lookup_total_correct _ _ _ Hk1).
        rewrite (take_S_r counts (S k) c Hc), sum_list_with_app. simpl. lia.
      * rewrite list_lookup_insert_ne by done. apply Hlow. lia.
    + intros i Hi. rewrite list_lookup_insert_ne by lia. apply Hhigh. lia.
Qed.

Lemma filter_concat {A} (P : A → Prop) `{!∀ x, Decision (P x)}
    (ls : list (list A)) :
  filter P (concat ls) = concat (filter P <$> ls).
Proof.
  induction ls as [|l ls IH]; [done|]. simpl. by rewrite filter_app, IH.
Qed.

Lemma take_slice {A} (b e : nat) (l : list A) :
  b ≤ e → take e l = take b l ++ slice b e l.
Proof.
  intros Hbe. unfold slice.
  rewrite <- (take_drop b l) at 1. rewrite take_app, length_take.
  destruct (decide (b ≤ length l)) as [Hl|Hl].
  - rewrite take_take. replace (e `min` b) with b by lia.
    f_equal. f_equal. lia.
  - rewrite !(take_ge l) by lia. rewrite drop_ge by lia. by rewrite !take_nil.
Qed.

Section Offsets.
Context (bitset : Bitset.DynamicBitset).
Context (block_range : nat → nat → nat → nat → nat * nat) (n : nat).

#[local] Abbreviation range := (Bitset.thread_range block_range n bitset).
#[local] Abbreviation block := (Bitset.thread_bits block_range n bitset).
#[local] Abbreviation before := (Bitset.bits_before block_range n bitset).

Hypothesis threads : 1 ≤ n.
Hypothesis first_block : (range 0).1 = 0.
Hypothesis block_bounds : ∀ tid, tid < n → (range tid).1 ≤ (range tid).2.
Hypothesis next_block : ∀ tid, S tid < n → (range (S tid)).1 = (range tid).2.
Hypothesis last_block : (range (n - 1)).2 = Bitset.size bitset.

Lemma count_block_spec tid :
  Bitset.count_block bitset (range tid) = length (block tid).
Proof.
  unfold Bitset.count_block, Bitset.thread_bits. by rewrite foldl_count.
Qed.

(** The blocks of the threads below [S k], one after the other. *)
Lemma blocks_concat k :
  k < n →
  concat (block <$> seq 0 (S k))
  = filter (λ i, Bitset.test bitset i) (seq 0 (range k).2).
Proof.
  induction k as [|k IH]; intros Hk.
  - simpl. rewrite app_nil_r. unfold Bitset.thread_bits.
    pose proof (block_bounds 0 Hk). rewrite first_block in *.
    by rewrite Nat.sub_0_r.
  - rewrite (seq_S (S k)), fmap_app, concat_app, IH by lia. simpl.
    rewrite app_nil_r.
    unfold Bitset.thread_bits. rewrite (next_block k Hk), <- filter_app.
    pose proof (block_bounds (S k) Hk) as Hb. rewrite (next_block k Hk) in Hb.
    change ((range k).2) with (0 + (range k).2) at 2.
    rewrite <- seq_app. do 2 f_equal. lia.
Qed.

Lemma blocks_all :
  concat (block <$> seq 0 n)
  = filter (λ i, Bitset.test bitset i) (seq 0 (Bitset.size bitset)).
Proof.
  pose proof (blocks_concat (n - 1) ltac:(lia)) as H.
  replace (S (n - 1)) with n in H by lia. by rewrite H, last_block.
Qed.

(** The writing loop of a thread puts its block at [index]. *)
Lemma write_block_spec (l : list nat) index (offs : list nat) :
  index + length (filter (λ i, Bitset.test bitset i) l) ≤ length offs →
  foldl (λ acc i,
           st ← acc;
           if Bitset.test bitset i then
             if decide (st.1 < length st.2)
             then Some (S st.1, <[st.1 := i]> st.2)
             else None
           else Some st)
        (Some (index, offs)) l
  = Some (index + length (filter (λ i, Bitset.test bitset i) l),
          splice index (index + length (filter (λ i, Bitset.test bitset i) l))
                 (filter (λ i, Bitset.test bitset i) l) offs).
Proof.
  revert index offs. induction l as [|x l IH]; intros index offs Hlen.
  - simpl. rewrite Nat.add_0_r. unfold splice. simpl.
    by rewrite take_drop.
  - simpl. rewrite filter_cons in Hlen |- *.
    destruct (Bitset.test bitset x) eqn:Hx.
    + simpl in Hlen |- *. rewrite decide_True by lia.
      rewrite IH by (rewrite length_insert; lia).
      f_equal. f_equal; [lia|]. unfold splice.
      rewrite take_S_r with (x := x)
        by (apply list_lookup_insert_eq; lia).
      rewrite take_insert_ge by lia.
      rewrite drop_insert_lt by lia.
      rewrite <- (assoc_L (++)). simpl. do 4 f_equal. lia.
    + simpl in Hlen |- *. by rewrite IH.
Qed.

(** The number of set bits in the blocks of the threads below [k]. *)

Lemma before_S k : before (S k) = before k + length (block k).
Proof.
  unfold Bitset.bits_before.
  rewrite seq_S, !fmap_app, sum_list_with_app. simpl. lia.
Qed.

Lemma before_mono a b : a ≤ b → before a ≤ before b.
Proof.
  induction 1 as [|b Hab IH]; [done|]. rewrite before_S. lia.
Qed.

Lemma before_all :
  before n = length (filter (λ i, Bitset.test bitset i)
                       (seq 0 (Bitset.size bitset))).
Proof.
  rewrite <- blocks_all. unfold Bitset.bits_before.
  generalize (block <$> seq 0 n). intros ls.
  induction ls as [|l ls IH]; [done|].
  rewrite fmap_cons. simpl. by rewrite length_app, IH.
Qed.

(** The second phase: every thread writes its block at its own place,
    in any order. *)
Lemma second_phase (cur : nat) (order : list nat) (R : list nat) :
  Forall (λ tid, tid < n) order → length R = cur + before n →
  ∃ R',
    foldl (λ acc tid,
             offs ← acc;
             snd <$> Bitset.write_block bitset (range tid)
                       (cur + before tid, offs))
          (Some R) order = Some R' ∧
    length R' = length R ∧ take cur R' = take cur R ∧
    ∀ tid, tid < n →
      slice (cur + before tid) (cur + before (S tid)) R'
      = if decide (tid ∈ order) then block tid
        else slice (cur + before tid) (cur + before (S tid)) R.
Proof.
  intros Hord. revert R. induction Hord as [|t order Ht Hord IH]; intros R Hlen.
  - exists R. split; [done|]. split; [done|]. split; [done|]. intros tid _.
    destruct (decide (tid ∈ [])) as [Hin|]; [by apply elem_of_nil in Hin|done].
  - pose proof (before_mono (S t) n ltac:(lia)) as Hle.
    pose proof (before_S t) as HS.
    cbn [foldl mbind option_bind]. unfold Bitset.write_block.
    pose proof (write_block_spec
                  (seq (range t).1 ((range t).2 - (range t).1))
                  (cur + before t) R) as Hw.
    change (filter (λ i, Bitset.test bitset i)
              (seq (range t).1 ((range t).2 - (range t).1)))
      with (block t) in Hw.
    rewrite Hw by lia. cbn [fmap option_fmap option_map snd].
    replace (cur + before t + length (block t)) with (cur + before (S t)) by lia.
    set (R1 := splice (cur + before t) (cur + before (S t)) (block t) R).
    assert (Hlen1 : length R1 = length R).
    { unfold R1. apply length_splice; lia. }
    destruct (IH R1 ltac:(lia)) as (R' & Hrun & Hlen' & Htake & Hslices).
    exists R'. split; [done|]. split; [lia|]. split.
    + rewrite Htake. unfold R1, splice.
      rewrite take_app_le by (rewrite length_take; lia).
      rewrite take_take. f_equal. lia.
    + intros tid Htid. rewrite (Hslices tid Htid).
      destruct (decide (tid ∈ order)) as [Hin|Hnin].
      * rewrite (decide_True (P := tid ∈ t :: order)); [done|].
        apply elem_of_cons. by right.
      * destruct (decide (tid = t)) as [->|Hne].
        -- rewrite (decide_True (P := t ∈ t :: order))
             by (apply elem_of_cons; by left).
           unfold R1. apply slice_splice_same; lia.
        -- rewrite (decide_False (P := tid ∈ t :: order))
             by (intros Hin; apply elem_of_cons in Hin as [?|?]; done).
           unfold R1. destruct (decide (tid < t)) as [Hlt|Hge].
           ++ apply slice_splice_before; [|lia].
              pose proof (before_mono (S tid) t ltac:(lia)). lia.
           ++ apply slice_splice_after; [|lia..].
              pose proof (before_mono (S t) tid ltac:(lia)). lia.
Qed.

(** A vector is its consecutive parts one after the other. *)
Lemma parts_concat (cur : nat) (R : list nat) k :
  k ≤ n →
  (∀ tid, tid < n →
     slice (cur + before tid) (cur + before (S tid)) R = block tid) →
  take (cur + before k) R = take cur R ++ concat (block <$> seq 0 k).
Proof.
  intros Hk Hparts. induction k as [|k IH].
  - unfold Bitset.bits_before. simpl. by rewrite Nat.add_0_r, app_nil_r.
  - rewrite (take_slice (cur + before k) (cur + before (S k)))
      by (rewrite before_S; lia).
    rewrite IH by lia. rewrite Hparts by lia.
    rewrite seq_S, fmap_app, concat_app. simpl.
    by rewrite app_nil_r, (assoc_L (++)).
Qed.

End Offsets.

Lemma foldl_ext_in {A B} (f g : A → B → A) (a : A) (l : list B) :
  (∀ acc x, x ∈ l → f acc x = g acc x) → foldl f a l = foldl g a l.
Proof.
  revert a. induction l as [|x l IH]; intros a H; [done|]. simpl.
  rewrite (H a x) by (apply elem_of_cons; by left).
  apply IH. intros acc y Hy. apply H. apply elem_of_cons. by right.
Qed.

(** X20: [ComputeOffsets] (and with it [AppendOffsets] and [GetOffsets])
    for 64-bit offsets: with at least one thread, blocks that split
    [[0, size())] into consecutive ranges in thread order, and whatever
    the order in which the threads run the two phases, the call returns
    and appends to the vector exactly the indices of the set bits, in
    increasing order; what the vector held before is unchanged. *)
Theorem ComputeOffsets_appends_set_bits (bitset : Bitset.DynamicBitset)
    (block_range : nat → nat → nat → nat → nat * nat) (n : nat)
    (first second offsets : list nat) :
  1 ≤ n →
  (block_range 0 (Bitset.size bitset) 0 n).1 = 0 →
  (∀ tid, tid < n → (block_range 0 (Bitset.size bitset) tid n).1
                    ≤ (block_range 0 (Bitset.size bitset) tid n).2) →
  (∀ tid, S tid < n → (block_range 0 (Bitset.size bitset) (S tid) n).1
                      = (block_range 0 (Bitset.size bitset) tid n).2) →
  (block_range 0 (Bitset.size bitset) (n - 1) n).2 = Bitset.size bitset →
  first ≡ₚ seq 0 n → second ≡ₚ seq 0 n →
  Bitset.ComputeOffsets block_range n first second bitset offsets
  = Some (offsets ++ filter (λ i, Bitset.test bitset i)
                       (seq 0 (Bitset.size bitset))).
Proof.
  intros Hn H0 Hb Hnext Hlast Hfirst Hsecond.
  unfold Bitset.ComputeOffsets.
  set (range := Bitset.thread_range block_range n bitset).
  set (block := Bitset.thread_bits block_range n bitset).
  set (before := Bitset.bits_before block_range n bitset).
  rewrite (foldl_fill_all (λ tid, Bitset.count_block bitset (range tid)) n)
    by (by rewrite ?length_replicate).
  set (counts := (λ tid, Bitset.count_block bitset (range tid)) <$> seq 0 n).
  assert (Hcl : length counts = n) by (unfold counts; by rewrite length_fmap, length_seq).
  destruct (foldl_prefix_sums counts (n - 1) ltac:(lia)) as (Hpl & Hlow & _).
  set (prefix := foldl _ counts (seq 1 (n - 1))) in *.
  assert (Hprefix : ∀ i, i < n → prefix !!! i = before (S i)).
  { intros i Hi. apply list_lookup_total_correct. rewrite Hlow by lia.
    f_equal. unfold counts, before, Bitset.bits_before.
    rewrite <- fmap_take, take_seq.
    replace (S i `min` n) with (S i) by lia.
    rewrite <- !list_fmap_compose. f_equal. apply list_fmap_ext.
    intros _ tid _. simpl.
    apply (count_block_spec bitset block_range n). }
  rewrite (Hprefix (n - 1)) by lia. replace (S (n - 1)) with n by lia.
  pose proof (before_all bitset block_range n Hn H0 Hb Hnext Hlast) as Hall.
  fold before in Hall.
  case_decide as Hcount.
  2:{ assert (Hnil : filter (λ i, Bitset.test bitset i)
                       (seq 0 (Bitset.size bitset)) = []).
      { apply nil_length_inv. lia. }
      by rewrite Hnil, app_nil_r. }
  rewrite (foldl_ext_in _
    (λ acc tid, offs ← acc;
       snd <$> Bitset.write_block bitset (range tid)
                 (length offsets + before tid, offs))).
  2:{ intros acc tid Htid. rewrite Hsecond in Htid. apply elem_of_seq in Htid.
      destruct acc as [offs|]; [|done]. cbn [mbind option_bind].
      case_decide as Ht0.
      - rewrite (Hprefix (tid - 1)) by lia.
        by replace (S (tid - 1)) with tid by lia.
      - assert (tid = 0) as -> by lia. change (before 0) with 0.
        by rewrite Nat.add_0_r. }
  destruct (second_phase bitset block_range n Hn H0 Hlast
              (length offsets) second (offsets ++ replicate (before n) 0))
    as (R' & Hrun & Hlen' & Htake & Hslices).
  { apply Forall_forall. intros tid Htid. rewrite Hsecond in Htid.
    apply elem_of_seq in Htid. lia. }
  { by rewrite length_app, length_replicate. }
  transitivity (Some R'); [exact Hrun|]. f_equal.
  rewrite length_app, length_replicate in Hlen'.
  rewrite take_app_length in Htake.
  assert (Hparts : take (length offsets + before n) R'
                   = take (length offsets) R' ++ concat (block <$> seq 0 n)).
  { apply (parts_concat bitset block_range n Hn H0 Hlast
             (length offsets) R' n (le_n n)).
    intros tid Htid. rewrite (Hslices tid Htid).
    rewrite decide_True; [done|]. rewrite Hsecond. apply elem_of_seq. lia. }
  assert (Hblocks : concat (block <$> seq 0 n)
                    = filter (λ i, Bitset.test bitset i)
                        (seq 0 (Bitset.size bitset)))
    by exact (blocks_all bitset block_range n Hn H0 Hb Hnext Hlast).
  rewrite take_ge in Hparts by lia. by rewrite Hparts, Htake, Hblocks.
Qed.

Lemma ComputeOffsets_appends_set_bits_witness :
  Bitset.ComputeOffsets Bitset.even_blocks 3 [2; 0; 1] [1; 2; 0]
    Bitset.ten_bits [7]
  = Some ([7] ++ filter (λ i, Bitset.test Bitset.ten_bits i)
                   (seq 0 (Bitset.size Bitset.ten_bits))).
Proof.
  apply (ComputeOffsets_appends_set_bits Bitset.ten_bits Bitset.even_blocks 3
           [2; 0; 1] [1; 2; 0] [7]).
  - lia.
  - reflexivity.
  - intros tid Htid. do 3 (destruct tid as [|tid]; [vm_compute; lia|]). lia.
  - intros tid Htid. do 2 (destruct tid as [|tid]; [reflexivity|]). lia.
  - reflexivity.
  - apply (bool_decide_unpack _). by vm_compute.
  - apply (bool_decide_unpack _). by vm_compute.
Defined.
